(** * BetaSplittingNetwork: a shallow embedding of [BetaSplittingNetwork.py]

    The script grows a rooted binary tree under the beta-splitting model and
    then inserts reticulation edges.  It is written against three libraries:
    networkx ([DiGraph], [has_path]), the [random] / [numpy.random] modules
    and scipy's [loggamma].  The embedding below gives

    - the part of the [DiGraph] interface the script uses, on an explicit
      data structure that keeps networkx's iteration orders;
    - the pseudo-random source as an explicit stream threaded through every
      sampling call, in a state-and-exception monad;
    - the script's functions, statement by statement.

    Python [int] is [Z].  Python [float] is binary64: the primitive
    [float], with its rounding and its non-finite values.  The two
    transcendental functions ([loggamma], [np.exp]) are parameters, maps
    from binary64 to binary64.  The one float that is only ever compared,
    [stop_prob], is kept as the exact rational value of a finite float, and
    so is the value of a draw of [random.random()] it is compared with. *)

From Stdlib Require Import String Ascii ZArith NArith QArith List Bool Lia.
From Stdlib Require Import Permutation DecimalString.
From Stdlib Require DecimalZ DecimalPos.
From Stdlib Require Import Floats.
Import ListNotations.
Open Scope Z_scope.

(** ** Exceptions and the random source *)

Inductive exn : Type :=
| KeyError | ValueError | IndexError | TypeError | UnboundLocalError
| OverflowError
| NodeNotFound | NetworkXError
| OutOfFuel  (* a [while] loop of the model ran out of fuel *).

Inductive result (A : Type) : Type :=
| Ok (a : A)
| Raise (e : exn).
Arguments Ok {A} a.
Arguments Raise {A} e.

(** The state of the process-wide generator: the stream of raw draws that
    are still to come. *)
Definition rng : Type := nat -> N.

Definition M (A : Type) : Type := rng -> result (A * rng).

Definition ret {A} (a : A) : M A := fun r => Ok (a, r).
Definition raise {A} (e : exn) : M A := fun _ => Raise e.
Definition bind {A B} (c : M A) (k : A -> M B) : M B :=
  fun r => match c r with
           | Ok (a, r') => k a r'
           | Raise e => Raise e
           end.
Definition lift {A} (x : result A) : M A :=
  match x with Ok a => ret a | Raise e => raise e end.

(** Code that can raise but makes no draw. *)
Definition rbind {A B} (x : result A) (k : A -> result B) : result B :=
  match x with Ok a => k a | Raise e => Raise e end.

Declare Scope rnd_scope.
Delimit Scope rnd_scope with rnd.
Notation "x <- c ;; k" := (bind c (fun x => k))
  (at level 100, c at next level, right associativity) : rnd_scope.
Notation "' p <- c ;; k" := (bind c (fun x => match x with p => k end))
  (at level 100, p pattern, c at next level, right associativity) : rnd_scope.
Notation "x <~ c ;; k" := (rbind c (fun x => k))
  (at level 100, c at next level, right associativity) : rnd_scope.
Open Scope rnd_scope.

(** ** Python floats

    A Python [float] is an IEEE 754 binary64 number: the primitive [float],
    with the same arithmetic (round to nearest, ties to even), infinities
    and NaN. *)

(** The binary64 number nearest to an integer (exact below 2^53). *)
Definition nearest_float (z : Z) : float :=
  SF2Prim (binary_normalize prec emax z 0 false).

(** A Python [int] in arithmetic with a float, as in [beta + i]: the
    nearest binary64 number, [OverflowError] when the int is too large to
    have one. *)
Definition float_of_int (z : Z) : result float :=
  match binary_normalize prec emax z 0 false with
  | S754_infinity _ => Raise OverflowError
  | s => Ok (SF2Prim s)
  end.

(** [x + z] and [x - z] for a float [x] and an int [z]. *)
Definition add_int (x : float) (z : Z) : result float :=
  f <~ float_of_int z ;; Ok (x + f)%float.

Definition sub_int (x : float) (z : Z) : result float :=
  f <~ float_of_int z ;; Ok (x - f)%float.

(** [z + x] for an int [z] and a float [x]. *)
Definition int_add (z : Z) (x : float) : result float :=
  f <~ float_of_int z ;; Ok (f + x)%float.

(** The binary64 number with the value [u] of a draw of [random.random()]:
    [u] is [k / 2^53] with [k < 2^53]; numerator and denominator are
    binary64 numbers and so is their quotient. *)
Definition float_of_draw (u : Q) : float :=
  (nearest_float (Qnum u) / nearest_float (Zpos (Qden u)))%float.

Definition rng_next : M N := fun r => Ok (r 0%nat, fun i => r (S i)).

Definition two_53 : positive := 9007199254740992.

(** [random.random()]: a multiple of 2^-53 in [0, 1), given by its exact
    value; [float_of_draw] is the binary64 number. *)
Definition random_random : M Q :=
  k <- rng_next ;;
  ret (Z.of_N (k mod Npos two_53) # two_53).

Definition draw_index (k : N) (len : nat) : nat :=
  N.to_nat (k mod N.of_nat len).

(** [random.choice(seq)]: [IndexError] on an empty sequence. *)
Definition random_choice {A} (l : list A) : M A :=
  match l with
  | [] => raise IndexError
  | d :: _ => k <- rng_next ;; ret (nth (draw_index k (length l)) l d)
  end.

(** [itertools.accumulate(weights)]: the running sums, the first one being
    the first weight itself. *)
Fixpoint accumulate_from (acc : float) (weights : list float) : list float :=
  match weights with
  | [] => []
  | w :: rest => let acc := (acc + w)%float in acc :: accumulate_from acc rest
  end.

Definition accumulate (weights : list float) : list float :=
  match weights with
  | [] => []
  | w :: rest => w :: accumulate_from w rest
  end.

(** [bisect.bisect_right(a, x, lo, hi)]:
    [while lo < hi: mid = (lo + hi) // 2;
     if x < a[mid]: hi = mid else: lo = mid + 1].
    Each round at least halves [hi - lo], so [hi - lo] rounds are enough
    for the loop to end by its own test. *)
Fixpoint bisect_loop (rounds : nat) (a : list float) (x : float)
         (lo hi : nat) : nat :=
  match rounds with
  | O => lo
  | S rounds =>
      if (lo <? hi)%nat then
        let mid := ((lo + hi) / 2)%nat in
        if (x <? nth mid a nan)%float then bisect_loop rounds a x lo mid
        else bisect_loop rounds a x (S mid) hi
      else lo
  end.

Definition bisect (a : list float) (x : float) (lo hi : nat) : nat :=
  bisect_loop (hi - lo) a x lo hi.

(** [cum_weights[-1]] *)
Definition last_item (l : list float) : result float :=
  match l with
  | [] => Raise IndexError
  | x :: _ => Ok (last l x)
  end.

(** [random.choices(population, weights, k=1)[0]]:
    [cum_weights = list(accumulate(weights))]; [ValueError] when their
    number does not match the population; [total = cum_weights[-1] + 0.0];
    [ValueError] when [total <= 0.0] or [total] is not finite; then
    [population[bisect(cum_weights, random() * total, 0, n - 1)]]. *)
Definition random_choices {A} (population : list A) (weights : list float)
  : M A :=
  let n := length population in
  let cum_weights := accumulate weights in
  if negb (length cum_weights =? n)%nat then raise ValueError
  else
    last <- lift (last_item cum_weights) ;;
    let total := (last + 0)%float in
    if (total <=? 0)%float then raise ValueError
    else if negb (is_finite total) then raise ValueError
    else
      u <- random_random ;;
      let i := bisect cum_weights (float_of_draw u * total)%float 0 (n - 1) in
      match nth_error population i with
      | Some x => ret x
      | None => raise IndexError
      end.

(** [np.random.choice(range(n), 2)]: two independent draws, with
    replacement (numpy's default). *)
Definition np_random_choice_2 (n : nat) : M (nat * nat) :=
  match n with
  | O => raise ValueError
  | _ => i <- rng_next ;; j <- rng_next ;;
         ret (draw_index i n, draw_index j n)
  end.

(** ** The directed graph *)

Definition edge : Type := (Z * Z)%type.

Record EdgeAttr : Type := mkAttr {
  attr_length : option float;
  attr_prob : option float
}.

Definition no_attr : EdgeAttr := mkAttr None None.

(** [g_node]: the nodes in insertion order, each with its ['label'].
    [g_edge]: the edges in insertion order, each with its attributes.
    networkx's adjacency dictionaries list, for a node, its successors (and
    its predecessors) in the order the edges were inserted, which is what
    filtering [g_edge] gives. *)
Record DiGraph : Type := mkDiGraph {
  g_node : list (Z * option Z);
  g_edge : list (edge * EdgeAttr)
}.

Definition empty_graph : DiGraph := mkDiGraph [] [].

Definition edge_eqb (e1 e2 : edge) : bool :=
  (fst e1 =? fst e2) && (snd e1 =? snd e2).

Definition nodes (g : DiGraph) : list Z := map fst (g_node g).
Definition edge_keys (g : DiGraph) : list edge := map fst (g_edge g).

Definition mem_Z (x : Z) (l : list Z) : bool := existsb (Z.eqb x) l.
Definition mem_edge (e : edge) (l : list edge) : bool := existsb (edge_eqb e) l.

Definition has_node (g : DiGraph) (n : Z) : bool := mem_Z n (nodes g).
Definition has_edge (g : DiGraph) (e : edge) : bool := mem_edge e (edge_keys g).

Definition succ_list (g : DiGraph) (u : Z) : list Z :=
  map snd (filter (fun e => fst e =? u) (edge_keys g)).
Definition pred_list (g : DiGraph) (v : Z) : list Z :=
  map fst (filter (fun e => snd e =? v) (edge_keys g)).

(** [G.successors(n)] and [G.predecessors(n)] raise when [n] is not a node. *)
Definition successors (g : DiGraph) (n : Z) : result (list Z) :=
  if has_node g n then Ok (succ_list g n) else Raise NetworkXError.
Definition predecessors (g : DiGraph) (n : Z) : result (list Z) :=
  if has_node g n then Ok (pred_list g n) else Raise NetworkXError.

(** [G.edges()]: for every node in node order, its out-edges. *)
Definition edges (g : DiGraph) : list edge :=
  flat_map (fun u => map (pair u) (succ_list g u)) (nodes g).

Definition number_of_nodes (g : DiGraph) : nat := length (nodes g).
Definition number_of_edges (g : DiGraph) : nat := length (edges g).

Definition add_node (g : DiGraph) (n : Z) : DiGraph :=
  if has_node g n then g
  else mkDiGraph (g_node g ++ [(n, None)]) (g_edge g).

(** [G.add_edge(u, v)] without attributes: both end points become nodes
    ([u] first); an edge that is already there is left as it is. *)
Definition add_edge (g : DiGraph) (u v : Z) : DiGraph :=
  let g := add_node (add_node g u) v in
  if has_edge g (u, v) then g
  else mkDiGraph (g_node g) (g_edge g ++ [((u, v), no_attr)]).

Definition add_edges_from (g : DiGraph) (es : list edge) : DiGraph :=
  fold_left (fun g e => add_edge g (fst e) (snd e)) es g.

(** [G.remove_edges_from(es)]: edges that are not there are skipped. *)
Definition remove_edge (g : DiGraph) (e : edge) : DiGraph :=
  mkDiGraph (g_node g) (filter (fun x => negb (edge_eqb (fst x) e)) (g_edge g)).

Definition remove_edges_from (g : DiGraph) (es : list edge) : DiGraph :=
  fold_left remove_edge es g.

(** [G.node[n].get('label')] *)
Definition get_label (g : DiGraph) (n : Z) : result (option Z) :=
  match find (fun x => fst x =? n) (g_node g) with
  | Some (_, l) => Ok l
  | None => Raise KeyError
  end.

(** [G.node[n]['label'] = l] *)
Definition set_label (g : DiGraph) (n l : Z) : result DiGraph :=
  if has_node g n then
    Ok (mkDiGraph
          (map (fun x => if fst x =? n then (fst x, Some l) else x) (g_node g))
          (g_edge g))
  else Raise KeyError.

(** [G[u][v]]: the attribute dictionary of an edge. *)
Definition get_edge_data (g : DiGraph) (e : edge) : result EdgeAttr :=
  match find (fun x => edge_eqb (fst x) e) (g_edge g) with
  | Some (_, d) => Ok d
  | None => Raise KeyError
  end.

Definition update_edge (g : DiGraph) (e : edge) (f : EdgeAttr -> EdgeAttr)
  : result DiGraph :=
  if has_edge g e then
    Ok (mkDiGraph (g_node g)
          (map (fun x => if edge_eqb (fst x) e then (fst x, f (snd x)) else x)
               (g_edge g)))
  else Raise KeyError.

(** [G[u][v]['length'] = l] and [G[u][v]['prob'] = p] *)
Definition set_length (g : DiGraph) (e : edge) (l : float) : result DiGraph :=
  update_edge g e (fun d => mkAttr (Some l) (attr_prob d)).
Definition set_prob (g : DiGraph) (e : edge) (p : float) : result DiGraph :=
  update_edge g e (fun d => mkAttr (attr_length d) (Some p)).

(** [max(G.nodes())] *)
Definition py_max (l : list Z) : result Z :=
  match l with
  | [] => Raise ValueError
  | x :: t => Ok (fold_left Z.max t x)
  end.

(** [nx.has_path(G, source, target)]: breadth-first closure of [source]
    under the successor relation.  A node reaches itself.  After [k] rounds
    the list holds every node within distance [k]; as many rounds as there
    are nodes are run.  [NodeNotFound] when an end point is not a node. *)
Definition bfs_round (g : DiGraph) (seen : list Z) : list Z :=
  nodup Z.eq_dec (seen ++ flat_map (succ_list g) seen).

Fixpoint bfs (g : DiGraph) (rounds : nat) (seen : list Z) : list Z :=
  match rounds with
  | O => seen
  | S k => bfs g k (bfs_round g seen)
  end.

Definition has_path (g : DiGraph) (source target : Z) : result bool :=
  if has_node g source && has_node g target then
    Ok (mem_Z target (bfs g (length (nodes g)) [source]))
  else Raise NodeNotFound.

(** ** The simulation functions *)

Definition py_range (a b : Z) : list Z :=
  map (fun i => a + Z.of_nat i) (seq 0 (Z.to_nat (b - a))).

Definition str (z : Z) : string := NilZero.string_of_int (Z.to_int z).

Section Sampler.

(** [scipy.special.loggamma] and [np.exp], on binary64 numbers. *)
Variables loggamma np_exp : float -> float.

(** [loggamma(z)] for a Python [int]: numpy passes an int of the int64 or
    uint64 range as such, and it is converted to binary64; a larger int
    is passed as a Python object, which the function does not accept. *)
Definition loggamma_int (z : Z) : result float :=
  if (- 2 ^ 63 <=? z) && (z <? 2 ^ 64) then Ok (loggamma (nearest_float z))
  else Raise TypeError.

Definition a_n (beta : float) : Z := 1.

(** The body of the loop of [computeProb]: [q_i_n] for one [i]. *)
Definition q_i_n (n : Z) (beta : float) (i : Z) : result float :=
  x <~ add_int beta i ;;
  x <~ add_int x 1 ;;
  let lg1 := loggamma x in
  y <~ add_int beta n ;;
  y <~ sub_int y i ;;
  y <~ add_int y 1 ;;
  let lg2 := loggamma y in
  lg3 <~ loggamma_int (i + 1) ;;
  d <~ int_add (a_n beta) lg3 ;;
  lg4 <~ loggamma_int (n - i + 1) ;;
  Ok (np_exp ((lg1 + lg2) - (d + lg4)))%float.

Fixpoint computeProb_loop (n : Z) (beta : float) (range : list Z)
  : result (list float) :=
  match range with
  | [] => Ok []
  | i :: range =>
      q <~ q_i_n n beta i ;;
      q_n <~ computeProb_loop n beta range ;;
      Ok (q :: q_n)
  end.

Definition computeProb (n : Z) (beta : float) : result (list float) :=
  computeProb_loop n beta (py_range 1 n).

(** The loop state: tree, [last_internal_node], [last_leaf_node], [queue].
    [queue.pop()] takes the element appended last, so the Python list is
    kept with its end at the head. *)
Definition build_state : Type := (DiGraph * Z * Z * list Z)%type.

(** One round of [for new_n in [split, n_node-split]]. *)
Definition add_child (node new_n : Z) (st : build_state) : result build_state :=
  let '(tree, last_internal_node, last_leaf_node, queue) := st in
  if new_n =? 1 then
    Ok (add_edge tree node (last_leaf_node + 1),
        last_internal_node, last_leaf_node + 1, queue)
  else
    match set_label (add_edge tree node (last_internal_node + 1))
                    (last_internal_node + 1) new_n with
    | Ok tree' =>
        Ok (tree', last_internal_node + 1, last_leaf_node,
            (last_internal_node + 1) :: queue)
    | Raise e => Raise e
    end.

Fixpoint simulate_loop (fuel : nat) (beta : float) (st : build_state)
  : M DiGraph :=
  let '(tree, last_internal_node, last_leaf_node, queue) := st in
  match queue with
  | [] => ret tree
  | node :: queue =>
      match fuel with
      | O => raise OutOfFuel
      | S fuel =>
          l <- lift (get_label tree node) ;;
          match l with
          | None => raise TypeError
          | Some n_node =>
              if n_node >? 1 then
                q_n <- lift (computeProb n_node beta) ;;
                split <- random_choices (py_range 1 n_node) q_n ;;
                st1 <- lift (add_child node split
                               (tree, last_internal_node, last_leaf_node, queue)) ;;
                st2 <- lift (add_child node (n_node - split) st1) ;;
                simulate_loop fuel beta st2
              else
                simulate_loop fuel beta
                  (tree, last_internal_node, last_leaf_node, queue)
          end
      end
  end.

Definition simulateBetaSplitting (fuel : nat) (n : Z) (beta : float)
  : M DiGraph :=
  let tree := add_node empty_graph (n + 1) in
  tree <- lift (set_label tree (n + 1) n) ;;
  simulate_loop fuel beta (tree, n + 1, 0, [n + 1]).

End Sampler.

Definition swap_if {A} (b : bool) (p : A * A) : A * A :=
  if b then (snd p, fst p) else p.

Definition Qlt_bool (a b : Q) : bool := negb (Qle_bool b a).

(** [if length != None: ...] of [AddEdgeBetween], for the edge [(p, c)]
    subdivided by [x]. *)
Definition split_length (network : DiGraph) (p x c : Z) (len : option float)
  : M DiGraph :=
  match len with
  | Some length1 =>
      u <- random_random ;;
      let l11 := (float_of_draw u * length1)%float in
      let l12 := (length1 - l11)%float in
      network <- lift (set_length network (p, x) l11) ;;
      lift (set_length network (x, c) l12)
  | None => ret network
  end.

Definition copy_prob (network : DiGraph) (x c : Z) (pr : option float)
  : M DiGraph :=
  match pr with
  | Some prob1 => lift (set_prob network (x, c) prob1)
  | None => ret network
  end.

Definition AddEdgeBetween (network : DiGraph) (edge1 edge2 : edge)
           (new_nodes : option (Z * Z)) : M DiGraph :=
  new_nodes <- match new_nodes with
               | None => max_node <- lift (py_max (nodes network)) ;;
                         ret (max_node + 1, max_node + 2)
               | Some nn => ret nn
               end ;;
  above <- lift (has_path network (snd edge2) (fst edge1)) ;;
  let '(edge1, edge2) := swap_if above (edge1, edge2) in
  d1 <- lift (get_edge_data network edge1) ;;
  let length1 := attr_length d1 in
  let prob1 := attr_prob d1 in
  d2 <- lift (get_edge_data network edge2) ;;
  let length2 := attr_length d2 in
  let prob2 := attr_prob d2 in
  let network := remove_edges_from network [edge1; edge2] in
  let network :=
    add_edges_from network
      [(fst edge1, fst new_nodes); (fst new_nodes, snd edge1);
       (fst edge2, snd new_nodes); (snd new_nodes, snd edge2);
       (fst new_nodes, snd new_nodes)] in
  network <- split_length network (fst edge1) (fst new_nodes) (snd edge1) length1 ;;
  network <- copy_prob network (fst new_nodes) (snd edge1) prob1 ;;
  network <- split_length network (fst edge2) (snd new_nodes) (snd edge2) length2 ;;
  copy_prob network (snd new_nodes) (snd edge2) prob2.

Definition AddEdgeUniform (network : DiGraph) (new_nodes : option (Z * Z))
  : M DiGraph :=
  let edges := edges network in
  '(i0, i1) <- np_random_choice_2 (length edges) ;;
  AddEdgeBetween network (nth i0 edges (0, 0)) (nth i1 edges (0, 0)) new_nodes.

Definition within (bound : option Z) (k : Z) : bool :=
  match bound with
  | None => true
  | Some b => k <=? b
  end.

(** The inner [while] of [AddEdgeLocal]: the random walk. *)
Fixpoint walk (fuel : nat) (network : DiGraph) (stop_prob : Q)
         (max_steps : option Z) (step_number : Z)
         (previous_node current_node : Z) : M (Z * Z) :=
  if within max_steps step_number then
    match fuel with
    | O => raise OutOfFuel
    | S fuel =>
        succs <- lift (successors network current_node) ;;
        preds <- lift (predecessors network current_node) ;;
        next <- random_choice (succs ++ preds) ;;
        let previous_node := current_node in
        let current_node := next in
        u <- random_random ;;
        if Qlt_bool u stop_prob then ret (previous_node, current_node)
        else walk fuel network stop_prob max_steps (step_number + 1)
                  previous_node current_node
    end
  else ret (previous_node, current_node).

(** One pass through the body of the outer [while]: the pair
    [(edge1, edge2)] it leaves in the local variables. *)
Definition local_attempt (fuel : nat) (network : DiGraph) (stop_prob : Q)
           (max_steps : option Z) : M (edge * edge) :=
  edge1 <- random_choice (edges network) ;;
  previous_node <- random_choice [fst edge1; snd edge1] ;;
  let current_node := fst edge1 in
  let current_node :=
    if current_node =? previous_node then snd edge1 else current_node in
  '(previous_node, current_node) <-
     walk fuel network stop_prob max_steps 1 previous_node current_node ;;
  let edge2 := (previous_node, current_node) in
  let edge2 :=
    if negb (mem_edge edge2 (edges network))
    then (current_node, previous_node) else edge2 in
  ret (edge1, edge2).

(** The outer [while]; [bound] holds [edge1] and [edge2] once an attempt
    has assigned them. *)
Fixpoint local_search (fuel : nat) (network : DiGraph) (stop_prob : Q)
         (max_steps max_tries : option Z) (try_number : Z)
         (bound : option (edge * edge)) : M (option (edge * edge)) :=
  if within max_tries try_number then
    match fuel with
    | O => raise OutOfFuel
    | S fuel' =>
        '(edge1, edge2) <- local_attempt fuel network stop_prob max_steps ;;
        if negb (edge_eqb edge1 edge2) then ret (Some (edge1, edge2))
        else local_search fuel' network stop_prob max_steps max_tries
                          (try_number + 1) (Some (edge1, edge2))
    end
  else ret bound.

Definition AddEdgeLocal (fuel : nat) (network : DiGraph)
           (new_nodes : option (Z * Z)) (stop_prob : Q)
           (max_steps max_tries : option Z) : M DiGraph :=
  found <- local_search fuel network stop_prob max_steps max_tries 1 None ;;
  match found with
  | None => raise UnboundLocalError
  | Some (edge1, edge2) => AddEdgeBetween network edge1 edge2 new_nodes
  end.

Fixpoint GenerateNetwork_loop (fuel : nat) (network : DiGraph) (r : nat)
         (method : option Q) : M DiGraph :=
  match r with
  | O => ret network
  | S r =>
      network <- match method with
                 | None => AddEdgeUniform network None
                 | Some stop_prob =>
                     AddEdgeLocal fuel network None stop_prob None None
                 end ;;
      GenerateNetwork_loop fuel network r method
  end.

Definition GenerateNetwork (fuel : nat) (tree : DiGraph) (r : Z)
           (method : option Q) : M DiGraph :=
  let network := tree in
  GenerateNetwork_loop fuel network (Z.to_nat r) method.

Definition CRLF : string := String (ascii_of_nat 13) (String (ascii_of_nat 10) EmptyString).

Fixpoint output_lines (i : nat) (lines : list string) (output : string) : string :=
  match lines with
  | [] => output
  | l :: rest =>
      let output := if negb (i =? 0)%nat then (output ++ CRLF)%string else output in
      output_lines (S i) rest (output ++ l)%string
  end.

Definition edge_line (e : edge) : string :=
  (str (fst e) ++ " " ++ str (snd e))%string.

Definition parent_line (g : DiGraph) (v : Z) : string :=
  fold_left (fun out p => (out ++ " " ++ str p)%string) (pred_list g v) (str v).

Definition OutputNetwork (network : DiGraph) (out_type : string) : string :=
  if String.eqb out_type "el" then
    output_lines 0 (map edge_line (edges network)) ""
  else if String.eqb out_type "pl" then
    output_lines 0 (map (parent_line network) (nodes network)) ""
  else "".

(** The script's main part, for given command line values. *)
Definition main (loggamma np_exp : float -> float) (fuel : nat)
           (tree_size : Z) (beta : float) (retics : Z) (local : option Q)
           (out_type : string) : M string :=
  tree <- simulateBetaSplitting loggamma np_exp fuel tree_size beta ;;
  network <- GenerateNetwork fuel tree retics local ;;
  ret (OutputNetwork network out_type).

(** ** Vocabulary of the properties *)

(** Well-formed graphs: what networkx maintains for every [DiGraph].
    Nodes and edges are dictionary keys (no repetition) and the end points
    of an edge are nodes. *)
Record wf (g : DiGraph) : Prop := mk_wf {
  wf_nodes : NoDup (nodes g);
  wf_keys : NoDup (edge_keys g);
  wf_ends : forall u v, In (u, v) (edge_keys g) ->
                        In u (nodes g) /\ In v (nodes g)
}.

(** The executable form of [wf], for concrete graphs. *)
Fixpoint nodupb {A} (eqb : A -> A -> bool) (l : list A) : bool :=
  match l with
  | [] => true
  | x :: t => negb (existsb (eqb x) t) && nodupb eqb t
  end.

Definition wfb (g : DiGraph) : bool :=
  nodupb Z.eqb (nodes g) && nodupb edge_eqb (edge_keys g)
  && forallb (fun e => has_node g (fst e) && has_node g (snd e)) (edge_keys g).

(** The edge relation, and reachability along directed edges (a node
    reaches itself). *)
Definition E (g : DiGraph) (u v : Z) : Prop := In (u, v) (edge_keys g).

Inductive reach (g : DiGraph) : Z -> Z -> Prop :=
| reach_refl x : reach g x x
| reach_step x y z : E g x y -> reach g y z -> reach g x z.

(** A walk, with the nodes visited after its start. *)
Inductive walk_on (g : DiGraph) : Z -> list Z -> Z -> Prop :=
| walk_nil x : walk_on g x [] x
| walk_cons x y l z : E g x y -> walk_on g y l z -> walk_on g x (y :: l) z.

(** No directed cycle: no edge leads back to its origin. *)
Definition acyclic (g : DiGraph) : Prop :=
  forall x y, E g x y -> ~ reach g y x.

(** The graph after [remove_edges_from] and [add_edges_from] in
    [AddEdgeBetween], written out. *)
Definition spliced (g : DiGraph) (eA eB : edge) (X Y : Z) : DiGraph :=
  mkDiGraph
    (g_node g ++ [(X, None); (Y, None)])
    (g_edge (remove_edge (remove_edge g eA) eB)
     ++ map (fun e => (e, no_attr))
          [(fst eA, X); (X, snd eA); (fst eB, Y); (Y, snd eB); (X, Y)]).

(** [update_edge] when the edge is there. *)
Definition upd (g : DiGraph) (e : edge) (f : EdgeAttr -> EdgeAttr) : DiGraph :=
  mkDiGraph (g_node g)
    (map (fun x => if edge_eqb (fst x) e then (fst x, f (snd x)) else x)
         (g_edge g)).

Definition with_length (l : float) (d : EdgeAttr) : EdgeAttr :=
  mkAttr (Some l) (attr_prob d).

Definition with_prob (p : float) (d : EdgeAttr) : EdgeAttr :=
  mkAttr (attr_length d) (Some p).

(** The generator after one draw, and the value [random.random()] returns
    from a given state. *)
Definition rng_tail (r : rng) : rng := fun i => r (S i).

Definition rand_val (r : rng) : Q := Z.of_N (r 0%nat mod Npos two_53) # two_53.

(** The same value as the binary64 number the code computes with. *)
Definition rand_float (r : rng) : float := float_of_draw (rand_val r).

(** The attribute part of [AddEdgeBetween] for one subdivided edge
    [(p, c)] with data [d], the new node [x] and the draw [u]. *)
Definition redistribute (g : DiGraph) (p x c : Z) (d : EdgeAttr) (u : float)
  : DiGraph :=
  let g := match attr_length d with
           | Some L => upd (upd g (p, x) (with_length (u * L)%float))
                           (x, c) (with_length (L - u * L)%float)
           | None => g
           end in
  match attr_prob d with
  | Some pr => upd g (x, c) (with_prob pr)
  | None => g
  end.

(** The generator after the attribute part for an edge with data [d]: a
    draw is made only when the edge had a length. *)
Definition after_length (d : EdgeAttr) (r : rng) : rng :=
  match attr_length d with Some _ => rng_tail r | None => r end.

(** The graph [AddEdgeBetween] leaves: [eA] and [eB] are the two edges
    after the reorientation, [X] and [Y] the new nodes, [dA] and [dB] the
    attributes of the removed edges, [u1] and [u2] the two draws. *)
Definition inserted (g : DiGraph) (eA eB : edge) (X Y : Z)
           (dA dB : EdgeAttr) (u1 u2 : float) : DiGraph :=
  redistribute
    (redistribute (spliced g eA eB X Y) (fst eA) X (snd eA) dA u1)
    (fst eB) Y (snd eB) dB u2.

(** What one call of [AddEdgeBetween] (with [new_nodes=None]) does to the
    node list and to the invariants. *)
Definition grows (g g' : DiGraph) : Prop :=
  wf g' /\ acyclic g' /\
  exists m, py_max (nodes g) = Ok m /\ (forall x, In x (nodes g) -> x <= m) /\
            nodes g' = nodes g ++ [m + 1; m + 2].

(** [k] insertions in a row. *)
Inductive grows_star : DiGraph -> nat -> DiGraph -> Prop :=
| grows_zero g : grows_star g 0 g
| grows_more g g1 g2 k : grows g g1 -> grows_star g1 k g2 ->
                         grows_star g (S k) g2.

(** An executable acyclicity test, for concrete graphs. *)
Definition is_dag (g : DiGraph) : bool :=
  forallb (fun e => match has_path g (snd e) (fst e) with
                    | Ok false => true
                    | _ => false
                    end) (edge_keys g).

(** The tree on two tips: what [simulateBetaSplitting] builds for [n = 2]. *)
Definition cherry : DiGraph :=
  mkDiGraph [(3, Some 2); (1, None); (2, None)]
            [((3, 1), no_attr); ((3, 2), no_attr)].

(** A generator whose raw draws are all 0. *)
Definition zeros : rng := fun _ => 0%N.

(** How the attributes [d] of a removed edge show on its two halves: [d1]
    on the half that leaves the old parent, [d2] on the half that enters
    the old child; [u] is the number [random.random()] returned.  The
    product and the difference are those of binary64 arithmetic. *)
Definition halves (d d1 d2 : EdgeAttr) (u : float) : Prop :=
  attr_prob d1 = None /\ attr_prob d2 = attr_prob d /\
  match attr_length d with
  | Some L =>
      attr_length d1 = Some (u * L)%float /\
      attr_length d2 = Some (L - u * L)%float
  | None => attr_length d1 = None /\ attr_length d2 = None
  end.

(** The two-tip tree with a length and a probability on the edge (3, 1). *)
Definition weighted_cherry : DiGraph :=
  mkDiGraph [(3, Some 2); (1, None); (2, None)]
            [((3, 1), mkAttr (Some 2%float) (Some 0.25%float));
             ((3, 2), no_attr)].

(** The same tree with the length 7.7 (the binary64 number nearest to it)
    on the edge (3, 1). *)
Definition long_cherry : DiGraph :=
  mkDiGraph [(3, Some 2); (1, None); (2, None)]
            [((3, 1), mkAttr (Some 0x1.ecccccccccccdp+2%float) None);
             ((3, 2), no_attr)].

(** A generator whose [random.random()] is always 19/128. *)
Definition low_rng : rng := fun _ => 1337006139375616%N.

(** The exact value of a finite binary64 number. *)
Definition exact (x : float) : option Q :=
  match Prim2SF x with
  | S754_zero _ => Some 0%Q
  | S754_finite s m e =>
      let v := if s then Z.neg m else Z.pos m in
      Some (if 0 <=? e then inject_Z (v * 2 ^ e)
            else Qmake v (Z.to_pos (2 ^ (- e))))
  | _ => None
  end.

(** What [random.choices] asks of its weights: their total, the last
    running sum, is greater than zero and finite. *)
Definition total_ok (weights : list float) : bool :=
  match last_item (accumulate weights) with
  | Ok last => negb (last + 0 <=? 0)%float && is_finite (last + 0)%float
  | Raise _ => false
  end.

(** The weights of every size from 2 to [n] are computed and pass that
    test. *)
Definition good_weights (loggamma np_exp : float -> float) (n : Z)
           (beta : float) : Prop :=
  forall m, 2 <= m <= n ->
    exists q_n, computeProb loggamma np_exp m beta = Ok q_n
                /\ total_ok q_n = true.

(** Stand-ins for the two library functions, to run the code on concrete
    inputs.  They agree with [scipy.special.loggamma] and [np.exp] at the
    arguments that occur for two tips with [beta = 0] and with
    [beta = 200]: [loggamma(2) = 0], [loggamma(202) = ln(201!)],
    [exp(-1)], and [exp(x) = inf] for [x] above 709.79. *)
Definition lib_loggamma (x : float) : float :=
  if (x =? 202)%float then 0x1.b244847398a6bp+9%float else 0%float.

Definition lib_exp (x : float) : float :=
  if (710 <=? x)%float then infinity
  else if (x =? -1)%float then 0x1.78b56362cef38p-2%float
  else 1%float.

(** A generator whose [random.random()] is always 1/2. *)
Definition halves_rng : rng := fun _ => 4503599627370496%N.

(** A new node [id] with label [lab], hung below [q]. *)
Definition attach (tree : DiGraph) (q id : Z) (lab : option Z) : DiGraph :=
  mkDiGraph (g_node tree ++ [(id, lab)]) (g_edge tree ++ [((q, id), no_attr)]).

(** The identifier and the label [add_child] gives to a child with
    [new_n] tips. *)
Definition child_id (new_n last_internal_node last_leaf_node : Z) : Z :=
  if new_n =? 1 then last_leaf_node + 1 else last_internal_node + 1.

Definition child_label (new_n : Z) : option Z :=
  if new_n =? 1 then None else Some new_n.

(** Sums, and the label of a node as a number (0 when it has none). *)
Definition sumZ (l : list Z) : Z := fold_right Z.add 0 l.

Definition label_val (tree : DiGraph) (q : Z) : Z :=
  match get_label tree q with Ok (Some m) => m | _ => 0 end.

(** The number of tips below a node: its label, and 1 for a leaf (which
    carries no label). *)
Definition tips (tree : DiGraph) (c : Z) : Z :=
  match get_label tree c with Ok (Some m) => m | _ => 1 end.

(** The loop invariant of [simulateBetaSplitting] for [n] tips.  [cur] is
    the node whose children are being created and [pend] the sizes of its
    children still to come ([cur = 0] between two rounds of the loop). *)
Record Inv (n : Z) (tree : DiGraph) (li ll : Z) (queue : list Z)
       (cur : Z) (pend : list Z) : Prop := mk_Inv {
  inv_wf : wf tree;
  inv_dag : acyclic tree;
  inv_nodes : forall x, In x (nodes tree) <-> (1 <= x <= ll \/ n + 1 <= x <= li);
  inv_ll : 0 <= ll;
  inv_li : n + 1 <= li;
  inv_nodup : NoDup queue;
  inv_queue : forall q, In q queue ->
      n + 1 <= q <= li /\ q <> cur /\ 2 <= label_val tree q /\
      get_label tree q = Ok (Some (label_val tree q)) /\
      succ_list tree q = [];
  inv_pend : forall c, In c pend -> 1 <= c;
  inv_tips : ll + sumZ (map (label_val tree) queue) + sumZ pend = n;
  inv_count : (li - n) + sumZ (map (fun q => label_val tree q - 2) queue)
              + sumZ (map (fun c => c - 1) pend) = n - 1;
  inv_done : forall x, n + 1 <= x <= li -> ~ In x queue -> x <> cur ->
      exists c1 c2,
        2 <= label_val tree x /\
        get_label tree x = Ok (Some (label_val tree x)) /\
        succ_list tree x = [c1; c2] /\
        tips tree c1 + tips tree c2 = label_val tree x;
  inv_cur : (cur = 0 /\ pend = []) \/
            (n + 1 <= cur <= li /\ ~ In cur queue /\
             2 <= label_val tree cur /\
             get_label tree cur = Ok (Some (label_val tree cur)) /\
             (length (succ_list tree cur) + length pend = 2)%nat /\
             sumZ (map (tips tree) (succ_list tree cur)) + sumZ pend
             = label_val tree cur);
  inv_leaf : forall x, 1 <= x <= ll ->
      get_label tree x = Ok None /\ succ_list tree x = [];
  inv_pred : forall x, In x (nodes tree) -> x <> n + 1 ->
      exists p, pred_list tree x = [p];
  inv_root : pred_list tree (n + 1) = [];
  inv_root_label : get_label tree (n + 1) = Ok (Some n)
}.

(** Degrees and leaves. *)
Definition out_degree (g : DiGraph) (x : Z) : nat := length (succ_list g x).

Definition in_degree (g : DiGraph) (x : Z) : nat := length (pred_list g x).

Definition leaves (g : DiGraph) : list Z :=
  filter (fun x => (out_degree g x =? 0)%nat) (nodes g).

(** The value a run returns, without the final state of the generator. *)
Definition outcome {A} (x : result (A * rng)) : result A :=
  match x with Ok (a, _) => Ok a | Raise e => Raise e end.

(** Reticulations: the nodes with two incoming edges. *)
Definition reticulations (g : DiGraph) : list Z :=
  filter (fun x => (in_degree g x =? 2)%nat) (nodes g).

(** The four kinds of node of a binary network, by (in-degree,
    out-degree): root, tree node, leaf, reticulation. *)
Definition binary_node (g : DiGraph) (x : Z) : Prop :=
  In (in_degree g x, out_degree g x)
     [(0, 2); (1, 2); (1, 0); (2, 1)]%nat.

(** The tree on three tips whose root splits into one tip and two. *)
Definition caterpillar : DiGraph :=
  mkDiGraph [(4, Some 3); (1, None); (5, Some 2); (2, None); (3, None)]
            [((4, 1), no_attr); ((4, 5), no_attr);
             ((5, 2), no_attr); ((5, 3), no_attr)].

(** The character [c] occurs in the string [s]. *)
Fixpoint occurs (c : ascii) (s : string) : Prop :=
  match s with
  | EmptyString => False
  | String a s' => a = c \/ occurs c s'
  end.

(** A generator with the raw draws 0, 0, 1, 1, 0, 0, ... *)
Definition mixed : rng :=
  fun i => if ((i =? 2) || (i =? 3))%nat then 1%N else 0%N.

(** * Properties *)

(** ** Membership tests *)

Lemma edge_eqb_eq (e1 e2 : edge) : edge_eqb e1 e2 = true <-> e1 = e2.
Proof.
  destruct e1 as [a b], e2 as [c d]; unfold edge_eqb; simpl.
  rewrite andb_true_iff, !Z.eqb_eq. split.
  - intros [-> ->]; reflexivity.
  - intros H; inversion H; auto.
Qed.

Lemma edge_eqb_refl (e : edge) : edge_eqb e e = true.
Proof. apply edge_eqb_eq; reflexivity. Qed.

Lemma edge_eqb_neq (e1 e2 : edge) : edge_eqb e1 e2 = false <-> e1 <> e2.
Proof.
  rewrite <- edge_eqb_eq. destruct (edge_eqb e1 e2); split; congruence.
Qed.

Lemma edge_eq_dec (e1 e2 : edge) : {e1 = e2} + {e1 <> e2}.
Proof. decide equality; apply Z.eq_dec. Qed.

Lemma mem_Z_In (x : Z) (l : list Z) : mem_Z x l = true <-> In x l.
Proof.
  unfold mem_Z. rewrite existsb_exists. split.
  - intros [y [Hy E]]. apply Z.eqb_eq in E. subst; assumption.
  - intros H. exists x. split; [assumption | apply Z.eqb_refl].
Qed.

Lemma mem_edge_In (e : edge) (l : list edge) : mem_edge e l = true <-> In e l.
Proof.
  unfold mem_edge. rewrite existsb_exists. split.
  - intros [y [Hy E]]. apply edge_eqb_eq in E. subst; assumption.
  - intros H. exists e. split; [assumption | apply edge_eqb_refl].
Qed.

Lemma mem_Z_false (x : Z) (l : list Z) : mem_Z x l = false <-> ~ In x l.
Proof.
  rewrite <- mem_Z_In. destruct (mem_Z x l); split; congruence.
Qed.

Lemma mem_edge_false (e : edge) (l : list edge) : mem_edge e l = false <-> ~ In e l.
Proof.
  rewrite <- mem_edge_In. destruct (mem_edge e l); split; congruence.
Qed.

Lemma In_succ_list (g : DiGraph) (u v : Z) :
  In v (succ_list g u) <-> In (u, v) (edge_keys g).
Proof.
  unfold succ_list. rewrite in_map_iff. split.
  - intros [[a b] [E H]]. apply filter_In in H. destruct H as [H F].
    simpl in *. apply Z.eqb_eq in F. subst. assumption.
  - intros H. exists (u, v). split; [reflexivity |].
    apply filter_In. split; [assumption | simpl; apply Z.eqb_refl].
Qed.

Lemma In_pred_list (g : DiGraph) (u v : Z) :
  In u (pred_list g v) <-> In (u, v) (edge_keys g).
Proof.
  unfold pred_list. rewrite in_map_iff. split.
  - intros [[a b] [E H]]. apply filter_In in H. destruct H as [H F].
    simpl in *. apply Z.eqb_eq in F. subst. assumption.
  - intros H. exists (u, v). split; [reflexivity |].
    apply filter_In. split; [assumption | simpl; apply Z.eqb_refl].
Qed.

Lemma In_edges (g : DiGraph) (e : edge) :
  In e (edges g) <-> In e (edge_keys g) /\ In (fst e) (nodes g).
Proof.
  unfold edges. rewrite in_flat_map. split.
  - intros [u [Hu H]]. apply in_map_iff in H. destruct H as [v [E Hv]].
    subst e. simpl. split; [apply In_succ_list; assumption | assumption].
  - intros [H Hn]. exists (fst e). split; [assumption |].
    apply in_map_iff. exists (snd e). split; [destruct e; reflexivity |].
    apply In_succ_list. destruct e; assumption.
Qed.

(** ** Well-formed graphs *)

Lemma nodupb_Z (l : list Z) : nodupb Z.eqb l = true -> NoDup l.
Proof.
  induction l as [|x t IH]; simpl; intros H; constructor.
  - apply andb_true_iff in H. destruct H as [H _].
    apply negb_true_iff in H. apply (mem_Z_false x t). exact H.
  - apply IH. apply andb_true_iff in H. tauto.
Qed.

Lemma nodupb_edge (l : list edge) : nodupb edge_eqb l = true -> NoDup l.
Proof.
  induction l as [|x t IH]; simpl; intros H; constructor.
  - apply andb_true_iff in H. destruct H as [H _].
    apply negb_true_iff in H. apply (mem_edge_false x t). exact H.
  - apply IH. apply andb_true_iff in H. tauto.
Qed.

Lemma wfb_wf (g : DiGraph) : wfb g = true -> wf g.
Proof.
  unfold wfb. rewrite !andb_true_iff. intros [[H1 H2] H3].
  constructor.
  - apply nodupb_Z; assumption.
  - apply nodupb_edge; assumption.
  - intros u v H. rewrite forallb_forall in H3. specialize (H3 _ H).
    simpl in H3. apply andb_true_iff in H3. unfold has_node in H3.
    rewrite !mem_Z_In in H3. exact H3.
Qed.

Lemma edges_keys (g : DiGraph) (e : edge) :
  wf g -> (In e (edges g) <-> In e (edge_keys g)).
Proof.
  intros W. rewrite In_edges. split; [tauto |].
  intros H. split; [assumption |]. destruct e as [u v].
  apply (wf_ends g W u v H).
Qed.

(** ** Reachability and [has_path] *)

Lemma reach_trans (g : DiGraph) (x y z : Z) :
  reach g x y -> reach g y z -> reach g x z.
Proof.
  induction 1; intros; [assumption |].
  eapply reach_step; eauto.
Qed.

Lemma reach_edge (g : DiGraph) (x y : Z) : E g x y -> reach g x y.
Proof. intros H. eapply reach_step; [exact H | apply reach_refl]. Qed.

Lemma reach_walk (g : DiGraph) (x z : Z) :
  reach g x z <-> exists l, walk_on g x l z.
Proof.
  split.
  - induction 1 as [x | x y z H _ [l IH]].
    + exists []. constructor.
    + exists (y :: l). constructor; assumption.
  - intros [l H]. induction H; [apply reach_refl |].
    eapply reach_step; eauto.
Qed.

Lemma walk_suffix (g : DiGraph) (l1 : list Z) :
  forall x y l2 z, walk_on g x (l1 ++ y :: l2) z -> walk_on g y l2 z.
Proof.
  induction l1 as [|a l1 IH]; simpl; intros x y l2 z H; inversion H; subst.
  - assumption.
  - eapply IH; eassumption.
Qed.

Lemma walk_last (g : DiGraph) (x z : Z) (l : list Z) :
  walk_on g x l z -> l = [] /\ x = z \/ In z l.
Proof.
  induction 1 as [x | x y l z H W IH].
  - left; auto.
  - right. destruct IH as [[-> ->] | IH]; simpl; auto.
Qed.

(** Every walk can be cut down to one that repeats no node. *)
Lemma walk_simple (g : DiGraph) (x z : Z) (l : list Z) :
  walk_on g x l z ->
  exists l', walk_on g x l' z /\ NoDup (x :: l') /\ incl l' l.
Proof.
  induction 1 as [x | x y l z H W [l' [W' [ND I]]]].
  - exists []. repeat split.
    + constructor.
    + constructor; [simpl; tauto | constructor].
    + apply incl_refl.
  - assert (I' : incl (y :: l') (y :: l)).
    { intros a [-> | Ha]; simpl; auto. }
    destruct (in_dec Z.eq_dec x (y :: l')) as [Hin | Hout].
    + apply in_split in Hin. destruct Hin as [l1 [l2 Heq]].
      exists l2. split; [| split].
      * destruct l1 as [|a l1]; simpl in Heq; inversion Heq; subst.
        -- assumption.
        -- eapply walk_suffix; eassumption.
      * rewrite Heq in ND. apply NoDup_app_remove_l in ND. exact ND.
      * intros a Ha. apply I'. rewrite Heq.
        apply in_or_app; right; right; exact Ha.
    + exists (y :: l'). repeat split.
      * constructor; assumption.
      * constructor; assumption.
      * exact I'.
Qed.

Lemma walk_nodes (g : DiGraph) (x z : Z) (l : list Z) :
  wf g -> walk_on g x l z -> forall a, In a l -> In a (nodes g).
Proof.
  intros W. induction 1 as [x | x y l z H _ IH]; simpl; intros a Ha.
  - contradiction.
  - destruct Ha as [<- | Ha]; [| auto].
    apply (wf_ends g W x y H).
Qed.

Lemma bfs_round_In (g : DiGraph) (seen : list Z) (y : Z) :
  In y (bfs_round g seen) <->
  In y seen \/ exists x, In x seen /\ E g x y.
Proof.
  unfold bfs_round. rewrite nodup_In, in_app_iff, in_flat_map.
  split; intros [H | [x [Hx H]]]; auto; right; exists x;
    (split; [assumption | apply In_succ_list; assumption]).
Qed.

Lemma bfs_incl (g : DiGraph) (k : nat) :
  forall seen x, In x seen -> In x (bfs g k seen).
Proof.
  induction k as [|k IH]; simpl; intros seen x H; [assumption |].
  apply IH. apply bfs_round_In. left; assumption.
Qed.

Lemma bfs_complete (g : DiGraph) (k : nat) :
  forall seen x l z,
    walk_on g x l z -> (length l <= k)%nat -> In x seen ->
    In z (bfs g k seen).
Proof.
  induction k as [|k IH]; intros seen x l z W L Hx.
  - destruct l; simpl in L; [| lia]. inversion W; subst. assumption.
  - inversion W; subst.
    + apply bfs_incl; assumption.
    + simpl. apply (IH _ y l0 z); [assumption | simpl in L; lia |].
      apply bfs_round_In. right. exists x. split; assumption.
Qed.

Lemma bfs_sound (g : DiGraph) (k : nat) :
  forall seen z, In z (bfs g k seen) ->
                 exists x, In x seen /\ reach g x z.
Proof.
  induction k as [|k IH]; simpl; intros seen z H.
  - exists z. split; [assumption | apply reach_refl].
  - apply IH in H. destruct H as [y [Hy R]].
    apply bfs_round_In in Hy. destruct Hy as [Hy | [x [Hx Exy]]].
    + exists y; auto.
    + exists x. split; [assumption |]. eapply reach_step; eauto.
Qed.

(** [has_path] decides reachability on a well-formed graph. *)
Lemma has_path_spec (g : DiGraph) (s t : Z) :
  wf g -> In s (nodes g) -> In t (nodes g) ->
  exists b, has_path g s t = Ok b /\ (b = true <-> reach g s t).
Proof.
  intros W Hs Ht. unfold has_path, has_node.
  rewrite (proj2 (mem_Z_In s _) Hs), (proj2 (mem_Z_In t _) Ht). simpl.
  eexists. split; [reflexivity |]. rewrite mem_Z_In. split.
  - intros H. apply bfs_sound in H. destruct H as [x [[<- | []] R]]. exact R.
  - intros R. apply reach_walk in R. destruct R as [l Wl].
    apply walk_simple in Wl. destruct Wl as [l' [Wl' [ND _]]].
    apply (bfs_complete g _ [s] s l' t); [assumption | | simpl; auto].
    assert (L : (length (s :: l') <= length (nodes g))%nat).
    { apply NoDup_incl_length; [assumption |].
      intros a [<- | Ha]; [assumption |].
      eapply walk_nodes; eassumption. }
    simpl in L. lia.
Qed.

Lemma has_path_error (g : DiGraph) (s t : Z) (e : exn) :
  has_path g s t = Raise e -> ~ (In s (nodes g) /\ In t (nodes g)).
Proof.
  unfold has_path, has_node. intros H [Hs Ht].
  rewrite (proj2 (mem_Z_In s _) Hs), (proj2 (mem_Z_In t _) Ht) in H.
  discriminate.
Qed.

(** ** The graph operations *)

Lemma add_node_in (g : DiGraph) (n : Z) : In n (nodes g) -> add_node g n = g.
Proof.
  intros H. unfold add_node, has_node.
  rewrite (proj2 (mem_Z_In _ _) H). reflexivity.
Qed.

Lemma add_node_out (g : DiGraph) (n : Z) :
  ~ In n (nodes g) ->
  add_node g n = mkDiGraph (g_node g ++ [(n, None)]) (g_edge g).
Proof.
  intros H. unfold add_node, has_node.
  rewrite (proj2 (mem_Z_false _ _) H). reflexivity.
Qed.

Lemma add_node_edges (g : DiGraph) (n : Z) : g_edge (add_node g n) = g_edge g.
Proof. unfold add_node. destruct (has_node g n); reflexivity. Qed.

Lemma add_node_nodes (g : DiGraph) (n : Z) :
  nodes (add_node g n) = if mem_Z n (nodes g) then nodes g else nodes g ++ [n].
Proof.
  unfold add_node, has_node. destruct (mem_Z n (nodes g)); [reflexivity |].
  unfold nodes; simpl. rewrite map_app. reflexivity.
Qed.

Lemma add_edge_nodes (g : DiGraph) (u v : Z) :
  g_node (add_edge g u v) = g_node (add_node (add_node g u) v).
Proof.
  unfold add_edge. destruct (has_edge _ _); reflexivity.
Qed.

Lemma add_edge_new (g : DiGraph) (u v : Z) :
  ~ In (u, v) (edge_keys g) ->
  g_edge (add_edge g u v) = g_edge g ++ [((u, v), no_attr)].
Proof.
  intros H. unfold add_edge, has_edge.
  replace (edge_keys (add_node (add_node g u) v)) with (edge_keys g)
    by (unfold edge_keys; rewrite !add_node_edges; reflexivity).
  rewrite (proj2 (mem_edge_false _ _) H). simpl.
  rewrite !add_node_edges. reflexivity.
Qed.

Lemma add_edges_from_nodes (es : list edge) :
  forall g,
    g_node (add_edges_from g es) =
    g_node (fold_left add_node (flat_map (fun e => [fst e; snd e]) es) g).
Proof.
  induction es as [|e es IH]; intros g; simpl; [reflexivity |].
  unfold add_edges_from in *. simpl. rewrite IH.
  assert (G : forall l g1 g2, g_node g1 = g_node g2 ->
               g_node (fold_left add_node l g1) = g_node (fold_left add_node l g2)).
  { clear. induction l as [|n l IH]; simpl; intros g1 g2 H; [assumption |].
    apply IH. unfold add_node, has_node, nodes. rewrite H.
    destruct (mem_Z n (map fst (g_node g2))); simpl; congruence. }
  apply G. apply add_edge_nodes.
Qed.

Lemma add_edges_from_new (es : list edge) :
  forall g,
    NoDup es -> (forall e, In e es -> ~ In e (edge_keys g)) ->
    g_edge (add_edges_from g es) = g_edge g ++ map (fun e => (e, no_attr)) es.
Proof.
  induction es as [|e es IH]; intros g ND H; simpl.
  - rewrite app_nil_r. reflexivity.
  - unfold add_edges_from in *. simpl.
    inversion ND as [| ? ? He ND']; subst.
    assert (K : g_edge (add_edge g (fst e) (snd e)) = g_edge g ++ [(e, no_attr)]).
    { destruct e as [u v]. simpl. apply add_edge_new. apply H. left; reflexivity. }
    rewrite IH; [| assumption |].
    + rewrite K, <- app_assoc. reflexivity.
    + intros e' He' Hin. unfold edge_keys in Hin. rewrite K, map_app in Hin.
      apply in_app_or in Hin. destruct Hin as [Hin | [<- | []]].
      * apply (H e'); [right; assumption | exact Hin].
      * apply He. exact He'.
Qed.

Lemma remove_edge_keys (g : DiGraph) (e : edge) :
  edge_keys (remove_edge g e) =
  filter (fun x => negb (edge_eqb x e)) (edge_keys g).
Proof.
  unfold remove_edge, edge_keys; simpl.
  induction (g_edge g) as [|[k d] l IH]; simpl; [reflexivity |].
  destruct (edge_eqb k e); simpl; congruence.
Qed.

Lemma In_remove_edge (g : DiGraph) (e x : edge) :
  In x (edge_keys (remove_edge g e)) <-> In x (edge_keys g) /\ x <> e.
Proof.
  rewrite remove_edge_keys, filter_In, negb_true_iff, edge_eqb_neq. tauto.
Qed.

Section Splice.

Variables (g : DiGraph) (eA eB : edge) (X Y : Z).
Hypothesis W : wf g.
Hypothesis HA : In eA (edge_keys g).
Hypothesis HB : In eB (edge_keys g).
Hypothesis HX : ~ In X (nodes g).
Hypothesis HY : ~ In Y (nodes g).
Hypothesis HXY : X <> Y.

Let new_edges : list edge :=
  [(fst eA, X); (X, snd eA); (fst eB, Y); (Y, snd eB); (X, Y)].

Lemma splice_ends :
  In (fst eA) (nodes g) /\ In (snd eA) (nodes g) /\
  In (fst eB) (nodes g) /\ In (snd eB) (nodes g).
Proof.
  destruct eA as [pA cA], eB as [pB cB]. simpl.
  destruct (wf_ends g W _ _ HA), (wf_ends g W _ _ HB). tauto.
Qed.

Lemma splice_apart :
  fst eA <> X /\ snd eA <> X /\ fst eB <> X /\ snd eB <> X /\
  fst eA <> Y /\ snd eA <> Y /\ fst eB <> Y /\ snd eB <> Y.
Proof.
  destruct splice_ends as (H1 & H2 & H3 & H4).
  repeat split; intros Heq; rewrite Heq in *; contradiction.
Qed.

Lemma new_edges_NoDup : NoDup new_edges.
Proof.
  destruct splice_apart as (A1 & A2 & A3 & A4 & A5 & A6 & A7 & A8).
  unfold new_edges.
  repeat constructor; simpl; intros H;
    repeat (destruct H as [H | H]; [inversion H; congruence |]);
    exact H.
Qed.

Lemma new_edges_fresh (e : edge) :
  In e new_edges -> ~ In e (edge_keys g).
Proof.
  intros H Hin. destruct e as [u v].
  destruct (wf_ends g W _ _ Hin) as [Hu Hv].
  unfold new_edges in H. simpl in H.
  repeat (destruct H as [H | H]; [inversion H; subst; contradiction |]).
  exact H.
Qed.

Lemma splice_eq :
  add_edges_from (remove_edges_from g [eA; eB]) new_edges
  = spliced g eA eB X Y.
Proof.
  destruct splice_ends as (H1 & H2 & H3 & H4).
  destruct splice_apart as (A1 & A2 & A3 & A4 & A5 & A6 & A7 & A8).
  set (g1 := remove_edges_from g [eA; eB]).
  assert (N1 : g_node g1 = g_node g) by reflexivity.
  assert (K1 : forall e, In e (edge_keys g1) -> In e (edge_keys g)).
  { intros e He. unfold g1 in He. simpl in He.
    apply In_remove_edge in He. destruct He as [He _].
    apply In_remove_edge in He. tauto. }
  assert (Hn : g_node (add_edges_from g1 new_edges)
               = g_node g ++ [(X, None); (Y, None)]).
  { rewrite add_edges_from_nodes. unfold new_edges.
    cbn [flat_map app fold_left fst snd].
    assert (S1 : forall h n, In n (nodes h) -> add_node h n = h)
      by (intros; apply add_node_in; assumption).
    assert (Ng1 : nodes g1 = nodes g) by reflexivity.
    rewrite (add_node_in g1 (fst eA)) by (rewrite Ng1; assumption).
    rewrite (add_node_out g1 X) by (rewrite Ng1; assumption).
    set (g2 := mkDiGraph (g_node g1 ++ [(X, None)]) (g_edge g1)).
    assert (Ng2 : nodes g2 = nodes g ++ [X]).
    { unfold g2, nodes. cbn [g_node]. rewrite map_app, N1. reflexivity. }
    rewrite (add_node_in g2 X) by (rewrite Ng2; apply in_or_app; right; simpl; auto).
    rewrite (add_node_in g2 (snd eA)) by (rewrite Ng2; apply in_or_app; left; assumption).
    rewrite (add_node_in g2 (fst eB)) by (rewrite Ng2; apply in_or_app; left; assumption).
    rewrite (add_node_out g2 Y).
    2:{ rewrite Ng2. intros Hin. apply in_app_or in Hin.
        destruct Hin as [Hin | [Hin | []]]; [contradiction | congruence]. }
    set (g3 := mkDiGraph (g_node g2 ++ [(Y, None)]) (g_edge g2)).
    assert (Ng3 : nodes g3 = nodes g ++ [X; Y]).
    { unfold g3, nodes. cbn [g_node]. unfold nodes in Ng2.
      rewrite map_app, Ng2, <- app_assoc. reflexivity. }
    rewrite (add_node_in g3 Y) by (rewrite Ng3; apply in_or_app; right; simpl; auto).
    rewrite (add_node_in g3 (snd eB)) by (rewrite Ng3; apply in_or_app; left; assumption).
    rewrite (add_node_in g3 X) by (rewrite Ng3; apply in_or_app; right; simpl; auto).
    rewrite (add_node_in g3 Y) by (rewrite Ng3; apply in_or_app; right; simpl; auto).
    unfold g3, g2. cbn [g_node]. rewrite N1, <- app_assoc. reflexivity. }
  assert (He : g_edge (add_edges_from g1 new_edges)
               = g_edge g1 ++ map (fun e => (e, no_attr)) new_edges).
  { apply add_edges_from_new; [apply new_edges_NoDup |].
    intros e He Hin. apply (new_edges_fresh e He). apply K1. exact Hin. }
  destruct (add_edges_from g1 new_edges) as [ns es] eqn:Eg.
  simpl in Hn, He. unfold spliced. rewrite Hn, He. reflexivity.
Qed.

Lemma spliced_nodes : nodes (spliced g eA eB X Y) = nodes g ++ [X; Y].
Proof. unfold spliced, nodes; simpl. rewrite map_app. reflexivity. Qed.

Lemma spliced_keys :
  edge_keys (spliced g eA eB X Y)
  = edge_keys (remove_edge (remove_edge g eA) eB) ++ new_edges.
Proof.
  unfold spliced, edge_keys. cbn [g_edge]. rewrite map_app. reflexivity.
Qed.

Lemma spliced_E (u v : Z) :
  E (spliced g eA eB X Y) u v <->
  (E g u v /\ (u, v) <> eA /\ (u, v) <> eB) \/ In (u, v) new_edges.
Proof.
  unfold E. rewrite spliced_keys, in_app_iff, !In_remove_edge. tauto.
Qed.

Lemma spliced_wf : wf (spliced g eA eB X Y).
Proof.
  destruct splice_ends as (H1 & H2 & H3 & H4).
  constructor.
  - rewrite spliced_nodes. apply NoDup_app.
    + apply (wf_nodes g W).
    + repeat constructor; simpl; intuition congruence.
    + intros a Ha [<- | [<- | []]]; contradiction.
  - rewrite spliced_keys. apply NoDup_app.
    + rewrite !remove_edge_keys. apply NoDup_filter.
      rewrite <- remove_edge_keys. rewrite remove_edge_keys.
      apply NoDup_filter. apply (wf_keys g W).
    + apply new_edges_NoDup.
    + intros e He Hn. apply (new_edges_fresh e Hn).
      apply In_remove_edge in He. destruct He as [He _].
      apply In_remove_edge in He. tauto.
  - intros u v H. apply spliced_E in H. rewrite spliced_nodes, !in_app_iff.
    destruct H as [[H _] | H].
    + destruct (wf_ends g W _ _ H). tauto.
    + unfold new_edges in H. simpl in H. simpl.
      repeat (destruct H as [H | H]; [inversion H; subst; tauto |]).
      contradiction.
Qed.

End Splice.

(** ** Edge attributes *)

Lemma upd_nodes (g : DiGraph) (e : edge) f : nodes (upd g e f) = nodes g.
Proof. reflexivity. Qed.

Lemma upd_keys (g : DiGraph) (e : edge) f : edge_keys (upd g e f) = edge_keys g.
Proof.
  unfold upd, edge_keys; simpl. rewrite map_map. apply map_ext.
  intros x. destruct (edge_eqb (fst x) e); reflexivity.
Qed.

Lemma update_edge_ok (g : DiGraph) (e : edge) f :
  In e (edge_keys g) -> update_edge g e f = Ok (upd g e f).
Proof.
  intros H. unfold update_edge, has_edge.
  rewrite (proj2 (mem_edge_In _ _) H). reflexivity.
Qed.

Lemma get_upd (g : DiGraph) (e e' : edge) f :
  get_edge_data (upd g e f) e' =
  match get_edge_data g e' with
  | Ok d => Ok (if edge_eqb e' e then f d else d)
  | Raise x => Raise x
  end.
Proof.
  unfold get_edge_data, upd; simpl.
  induction (g_edge g) as [|[k d] l IH]; simpl; [reflexivity |].
  destruct (edge_eqb k e) eqn:Ek; simpl.
  - destruct (edge_eqb k e') eqn:Ek'.
    + apply edge_eqb_eq in Ek, Ek'. subst. rewrite edge_eqb_refl. reflexivity.
    + exact IH.
  - destruct (edge_eqb k e') eqn:Ek'.
    + apply edge_eqb_eq in Ek'. subst. rewrite Ek. reflexivity.
    + exact IH.
Qed.

Lemma get_edge_data_In (g : DiGraph) (e : edge) :
  In e (edge_keys g) -> exists d, get_edge_data g e = Ok d.
Proof.
  unfold get_edge_data, edge_keys.
  induction (g_edge g) as [|[k d] l IH]; simpl; intros H; [contradiction |].
  destruct (edge_eqb k e) eqn:Ek; [eexists; reflexivity |].
  destruct H as [H | H]; [| auto].
  apply edge_eqb_neq in Ek. contradiction.
Qed.

Lemma get_edge_data_Ok (g : DiGraph) (e : edge) (d : EdgeAttr) :
  get_edge_data g e = Ok d -> In e (edge_keys g).
Proof.
  unfold get_edge_data, edge_keys.
  induction (g_edge g) as [|[k d'] l IH]; simpl; intros H; [discriminate |].
  destruct (edge_eqb k e) eqn:Ek; [| auto].
  apply edge_eqb_eq in Ek. auto.
Qed.

Lemma get_spliced_new (g : DiGraph) (eA eB : edge) (X Y : Z) (e : edge) :
  wf g -> ~ In X (nodes g) -> ~ In Y (nodes g) ->
  In e [(fst eA, X); (X, snd eA); (fst eB, Y); (Y, snd eB); (X, Y)] ->
  get_edge_data (spliced g eA eB X Y) e = Ok no_attr.
Proof.
  intros W HX HY He.
  assert (Hold : forall k, In k (edge_keys (remove_edge (remove_edge g eA) eB))
                           -> k <> e).
  { intros k Hk <-. apply In_remove_edge in Hk. destruct Hk as [Hk _].
    apply In_remove_edge in Hk. destruct Hk as [Hk _].
    destruct k as [u v]. destruct (wf_ends g W _ _ Hk) as [Hu Hv].
    simpl in He.
    repeat (destruct He as [He | He]; [inversion He; subst; contradiction |]).
    exact He. }
  unfold get_edge_data, spliced. cbn [g_edge].
  unfold edge_keys in Hold.
  induction (g_edge (remove_edge (remove_edge g eA) eB)) as [|[k d] l IH].
  - clear Hold. simpl in He |- *.
    repeat (destruct He as [He | He];
            [ subst e; rewrite ?edge_eqb_refl; try reflexivity;
              repeat (match goal with
                      | |- context [edge_eqb ?a ?b] =>
                          destruct (edge_eqb a b); [reflexivity |]
                      end); rewrite ?edge_eqb_refl; reflexivity
            | ]).
    contradiction.
  - simpl. destruct (edge_eqb k e) eqn:Ek.
    + apply edge_eqb_eq in Ek. exfalso. apply (Hold k); simpl; auto.
    + apply IH. intros k' Hk'. apply Hold. simpl; auto.
Qed.

(** ** Running monadic code *)

Lemma bind_ok {A B} (c : M A) (k : A -> M B) (r r1 : rng) (a : A) :
  c r = Ok (a, r1) -> bind c k r = k a r1.
Proof. intros H. unfold bind. rewrite H. reflexivity. Qed.

Lemma lift_ok {A} (x : result A) (a : A) (r : rng) :
  x = Ok a -> lift x r = Ok (a, r).
Proof. intros ->. reflexivity. Qed.

Lemma bind_inv {A B} (c : M A) (k : A -> M B) (r r' : rng) (b : B) :
  bind c k r = Ok (b, r') ->
  exists a r1, c r = Ok (a, r1) /\ k a r1 = Ok (b, r').
Proof.
  unfold bind. destruct (c r) as [[a r1] | e]; [| discriminate].
  intros H. exists a, r1. auto.
Qed.

Lemma lift_inv {A} (x : result A) (a : A) (r r' : rng) :
  lift x r = Ok (a, r') -> x = Ok a /\ r' = r.
Proof.
  destruct x; simpl; unfold ret, raise; intros H; inversion H; auto.
Qed.

Lemma random_random_run (r : rng) :
  random_random r = Ok (rand_val r, rng_tail r).
Proof. reflexivity. Qed.

Lemma rand_val_range (r : rng) : (0 <= rand_val r)%Q /\ (rand_val r < 1)%Q.
Proof.
  unfold rand_val, Qle, Qlt. cbn [Qnum Qden].
  assert (H : (r 0%nat mod N.pos two_53 < N.pos two_53)%N)
    by (apply N.mod_upper_bound; discriminate).
  revert H. generalize (r 0%nat mod N.pos two_53)%N. generalize two_53.
  intros p k H. split; lia.
Qed.

Lemma py_max_spec (l : list Z) :
  l <> [] ->
  exists m, py_max l = Ok m /\ In m l /\ forall x, In x l -> x <= m.
Proof.
  destruct l as [|a t]; [congruence | intros _].
  simpl. eexists; split; [reflexivity |].
  revert a. induction t as [|b t IH]; intros a; simpl.
  - split; [auto |]. intros x [<- | []]; lia.
  - destruct (IH (Z.max a b)) as [H1 H2]. split.
    + destruct H1 as [H1 | H1]; [| right; right; exact H1].
      rewrite <- H1.
      destruct (Z.max_spec a b) as [[_ Hm] | [_ Hm]]; rewrite Hm; auto.
    + pose proof (H2 (Z.max a b) (or_introl eq_refl)) as Hmax.
      intros x [Hx | [Hx | Hx]]; [lia | lia |].
      apply H2. right; assumption.
Qed.

(** ** [AddEdgeBetween], step by step *)

Lemma redistribute_nodes g p x c d u : nodes (redistribute g p x c d u) = nodes g.
Proof.
  unfold redistribute. destruct (attr_length d), (attr_prob d); reflexivity.
Qed.

Lemma redistribute_keys g p x c d u :
  edge_keys (redistribute g p x c d u) = edge_keys g.
Proof.
  unfold redistribute.
  destruct (attr_length d), (attr_prob d); rewrite ?upd_keys; reflexivity.
Qed.

Lemma redistribute_run (g : DiGraph) (p x c : Z) (d : EdgeAttr) (r : rng) :
  In (p, x) (edge_keys g) -> In (x, c) (edge_keys g) ->
  bind (split_length g p x c (attr_length d))
       (fun network => copy_prob network x c (attr_prob d)) r
  = Ok (redistribute g p x c d (rand_float r), after_length d r).
Proof.
  intros H1 H2. unfold redistribute, after_length, split_length, copy_prob.
  destruct (attr_length d) as [L |]; destruct (attr_prob d) as [pr |];
    unfold bind, lift, ret, set_length, set_prob; rewrite random_random_run || idtac;
    repeat (rewrite update_edge_ok by (rewrite ?upd_keys; assumption); simpl);
    reflexivity.
Qed.

Lemma redistribute_run_k {B} (g : DiGraph) (p x c : Z) (d : EdgeAttr)
      (k : DiGraph -> M B) (r : rng) :
  In (p, x) (edge_keys g) -> In (x, c) (edge_keys g) ->
  bind (split_length g p x c (attr_length d))
       (fun network => bind (copy_prob network x c (attr_prob d)) k) r
  = k (redistribute g p x c d (rand_float r)) (after_length d r).
Proof.
  intros H1 H2. unfold redistribute, after_length, split_length, copy_prob.
  destruct (attr_length d) as [L |]; destruct (attr_prob d) as [pr |];
    unfold bind, lift, ret, set_length, set_prob; rewrite random_random_run || idtac;
    repeat (rewrite update_edge_ok by (rewrite ?upd_keys; assumption); simpl);
    reflexivity.
Qed.

Lemma inserted_nodes g eA eB X Y dA dB u1 u2 :
  nodes (inserted g eA eB X Y dA dB u1 u2) = nodes g ++ [X; Y].
Proof.
  unfold inserted. rewrite !redistribute_nodes.
  unfold spliced, nodes; simpl. rewrite map_app. reflexivity.
Qed.

Lemma inserted_keys g eA eB X Y dA dB u1 u2 :
  edge_keys (inserted g eA eB X Y dA dB u1 u2)
  = edge_keys (spliced g eA eB X Y).
Proof. unfold inserted. rewrite !redistribute_keys. reflexivity. Qed.

Lemma In_spliced_new g eA eB X Y e :
  In e [(fst eA, X); (X, snd eA); (fst eB, Y); (Y, snd eB); (X, Y)] ->
  In e (edge_keys (spliced g eA eB X Y)).
Proof.
  intros H. unfold spliced, edge_keys. cbn [g_edge].
  rewrite map_app. apply in_or_app. right.
  rewrite map_map. simpl. exact H.
Qed.

Lemma AddEdgeBetween_run (g : DiGraph) (e1 e2 : edge) (r : rng) :
  wf g -> In e1 (edge_keys g) -> In e2 (edge_keys g) ->
  exists m b dA dB,
    py_max (nodes g) = Ok m /\
    has_path g (snd e2) (fst e1) = Ok b /\
    get_edge_data g (fst (swap_if b (e1, e2))) = Ok dA /\
    get_edge_data g (snd (swap_if b (e1, e2))) = Ok dB /\
    AddEdgeBetween g e1 e2 None r
    = Ok (inserted g (fst (swap_if b (e1, e2))) (snd (swap_if b (e1, e2)))
                   (m + 1) (m + 2) dA dB
                   (rand_float r) (rand_float (after_length dA r)),
          after_length dB (after_length dA r)).
Proof.
  intros W H1 H2.
  assert (N1 : In (fst e1) (nodes g))
    by (destruct e1 as [a b]; apply (wf_ends g W a b H1)).
  assert (N2 : In (snd e2) (nodes g))
    by (destruct e2 as [a b]; apply (wf_ends g W a b H2)).
  destruct (py_max_spec (nodes g)) as [m [Hm [_ Hle]]].
  { intros Hnil. rewrite Hnil in N1. contradiction. }
  destruct (has_path_spec g (snd e2) (fst e1) W N2 N1) as [b [Hb _]].
  set (eA := fst (swap_if b (e1, e2))).
  set (eB := snd (swap_if b (e1, e2))).
  assert (HA : In eA (edge_keys g)) by (unfold eA; destruct b; assumption).
  assert (HB : In eB (edge_keys g)) by (unfold eB; destruct b; assumption).
  destruct (get_edge_data_In g eA HA) as [dA HdA].
  destruct (get_edge_data_In g eB HB) as [dB HdB].
  exists m, b, dA, dB. repeat (split; [assumption |]).
  assert (HX : ~ In (m + 1) (nodes g)) by (intros Hin; apply Hle in Hin; lia).
  assert (HY : ~ In (m + 2) (nodes g)) by (intros Hin; apply Hle in Hin; lia).
  assert (HXY : m + 1 <> m + 2) by lia.
  unfold AddEdgeBetween.
  rewrite (bind_ok _ _ r r (m + 1, m + 2)).
  2:{ rewrite (bind_ok _ _ r r m) by (apply lift_ok; exact Hm). reflexivity. }
  rewrite (bind_ok _ _ r r b) by (apply lift_ok; exact Hb).
  replace (swap_if b (e1, e2)) with (eA, eB)
    by (unfold eA, eB; destruct b; reflexivity).
  rewrite (bind_ok _ _ r r dA) by (apply lift_ok; exact HdA).
  rewrite (bind_ok _ _ r r dB) by (apply lift_ok; exact HdB).
  cbn [fst snd].
  rewrite (splice_eq g eA eB (m + 1) (m + 2) W HA HB HX HY HXY).
  rewrite redistribute_run_k
    by (apply In_spliced_new; simpl; auto).
  unfold inserted.
  apply (redistribute_run
           (redistribute (spliced g eA eB (m + 1) (m + 2)) (fst eA) (m + 1)
                         (snd eA) dA (rand_float r))
           (fst eB) (m + 2) (snd eB) dB (after_length dA r)).
  - rewrite redistribute_keys. apply In_spliced_new; simpl; auto.
  - rewrite redistribute_keys. apply In_spliced_new; simpl; auto 6.
Qed.

(** ** Acyclicity of the spliced graph *)

Lemma E_ext (g g' : DiGraph) :
  edge_keys g' = edge_keys g -> forall u v, E g' u v <-> E g u v.
Proof. intros H u v. unfold E. rewrite H. tauto. Qed.

Lemma reach_ext (g g' : DiGraph) :
  edge_keys g' = edge_keys g -> forall u v, reach g' u v -> reach g u v.
Proof.
  intros H u v R. induction R; [apply reach_refl |].
  eapply reach_step; [| eassumption]. apply (E_ext g g' H). assumption.
Qed.

Lemma acyclic_ext (g g' : DiGraph) :
  edge_keys g' = edge_keys g -> acyclic g -> acyclic g'.
Proof.
  intros H A x y Exy R. apply (A x y).
  - apply (E_ext g g' H). assumption.
  - apply (reach_ext g g' H). assumption.
Qed.

Lemma wf_ext (g g' : DiGraph) :
  nodes g' = nodes g -> edge_keys g' = edge_keys g -> wf g -> wf g'.
Proof.
  intros Hn Hk [W1 W2 W3]. constructor; rewrite ?Hn, ?Hk; assumption.
Qed.

Section SplicedAcyclic.

Variables (g : DiGraph) (eA eB : edge) (X Y : Z).
Hypothesis W : wf g.
Hypothesis HA : In eA (edge_keys g).
Hypothesis HB : In eB (edge_keys g).
Hypothesis HX : ~ In X (nodes g).
Hypothesis HY : ~ In Y (nodes g).
Hypothesis HXY : X <> Y.
Hypothesis Hdag : acyclic g.
(** what the reorientation establishes *)
Hypothesis Hbelow : ~ reach g (snd eB) (fst eA).

Local Abbreviation g' := (spliced g eA eB X Y).
Local Abbreviation pA := (fst eA).
Local Abbreviation cA := (snd eA).
Local Abbreviation pB := (fst eB).
Local Abbreviation cB := (snd eB).

Lemma EA : E g pA cA.
Proof. unfold E. destruct eA; exact HA. Qed.

Lemma EB : E g pB cB.
Proof. unfold E. destruct eB; exact HB. Qed.

Lemma E'_cases (u v : Z) :
  E g' u v ->
  (E g u v /\ In u (nodes g) /\ In v (nodes g))
  \/ (u = pA /\ v = X) \/ (u = X /\ v = cA)
  \/ (u = pB /\ v = Y) \/ (u = Y /\ v = cB) \/ (u = X /\ v = Y).
Proof.
  intros H. apply spliced_E in H. destruct H as [[H _] | H].
  - left. destruct (wf_ends g W u v H). auto.
  - right. simpl in H.
    repeat (destruct H as [H | H];
            [injection H as Hu Hv; subst u v; tauto |]).
    contradiction.
Qed.

Lemma old_ends :
  In pA (nodes g) /\ In cA (nodes g) /\ In pB (nodes g) /\ In cB (nodes g).
Proof. apply splice_ends; assumption. Qed.

(** Reachability between old nodes that may use the connector. *)
Local Abbreviation R u v := (reach g u v \/ (reach g u pA /\ reach g cB v)).

Lemma reach_new_old (u v : Z) :
  reach g' u v -> In v (nodes g) ->
  (u <> X -> u <> Y -> R u v)
  /\ (u = X -> R cA v \/ reach g cB v)
  /\ (u = Y -> reach g cB v).
Proof.
  destruct old_ends as (O1 & O2 & O3 & O4).
  pose proof EA as HEA. pose proof EB as HEB.
  induction 1 as [v | u y v Huy Ryv IH]; intros Hv.
  - repeat split.
    + intros _ _. left. apply reach_refl.
    + intros ->. contradiction.
    + intros ->. contradiction.
  - specialize (IH Hv). destruct IH as (IH1 & IH2 & IH3).
    apply E'_cases in Huy.
    destruct Huy as [(Ho & Hu & Hy) | [[-> ->] | [[-> ->] | [[-> ->] | [[-> ->] | [-> ->]]]]]].
    + assert (y <> X) by (intros ->; contradiction).
      assert (y <> Y) by (intros ->; contradiction).
      repeat split.
      * intros _ _. destruct (IH1 H H0) as [K | [K1 K2]].
        -- left. eapply reach_step; eauto.
        -- right. split; [eapply reach_step; eauto | assumption].
      * intros ->. contradiction.
      * intros ->. contradiction.
    + repeat split.
      * intros _ _. destruct (IH2 eq_refl) as [[K | [K1 K2]] | K].
        -- left. eapply reach_step; eauto.
        -- right. split; [apply reach_refl | assumption].
        -- right. split; [apply reach_refl | assumption].
      * intros Heq. rewrite Heq in O1. contradiction.
      * intros Heq. rewrite Heq in O1. contradiction.
    + assert (cA <> X) by (intros Heq; rewrite Heq in O2; contradiction).
      assert (cA <> Y) by (intros Heq; rewrite Heq in O2; contradiction).
      repeat split.
      * intros Hn. congruence.
      * intros _. left. auto.
      * intros Heq. congruence.
    + repeat split.
      * intros _ _. left. eapply reach_step; [exact HEB | auto].
      * intros Heq. rewrite Heq in O3. contradiction.
      * intros Heq. rewrite Heq in O3. contradiction.
    + assert (cB <> X) by (intros Heq; rewrite Heq in O4; contradiction).
      assert (cB <> Y) by (intros Heq; rewrite Heq in O4; contradiction).
      repeat split.
      * intros _ Hn. congruence.
      * intros Heq. congruence.
      * intros _. destruct (IH1 H H0) as [K | [_ K]]; assumption.
    + repeat split.
      * intros Hn. congruence.
      * intros _. right. auto.
      * intros Heq. congruence.
Qed.

Lemma reach_into_X' (u t : Z) :
  reach g' u t -> t = X -> u = X \/ reach g' u pA.
Proof.
  destruct old_ends as (O1 & O2 & O3 & O4).
  induction 1 as [v | u y v Huy Ryv IH]; intros Ht.
  - left; assumption.
  - specialize (IH Ht). right. destruct IH as [-> | IH].
    + subst v. apply E'_cases in Huy.
      destruct Huy as [(_ & _ & Hy) | [[-> _] | [[_ Hy] | [[_ Hy] | [[_ Hy] | [_ Hy]]]]]].
      * contradiction.
      * apply reach_refl.
      * rewrite <- Hy in O2. contradiction.
      * congruence.
      * rewrite <- Hy in O4. contradiction.
      * congruence.
    + eapply reach_step; eauto.
Qed.

Lemma reach_into_X (u : Z) : reach g' u X -> u = X \/ reach g' u pA.
Proof. intros H. apply (reach_into_X' u X H eq_refl). Qed.

Lemma reach_into_Y' (u t : Z) :
  reach g' u t -> t = Y ->
  u = Y \/ u = X \/ reach g' u pA \/ reach g' u pB.
Proof.
  destruct old_ends as (O1 & O2 & O3 & O4).
  induction 1 as [v | u y v Huy Ryv IH]; intros Ht.
  - left; assumption.
  - specialize (IH Ht). right. destruct IH as [-> | [-> | [IH | IH]]].
    + subst v. apply E'_cases in Huy.
      destruct Huy as [(_ & _ & Hy) | [[_ Hy] | [[_ Hy] | [[-> _] | [[_ Hy] | [-> _]]]]]].
      * contradiction.
      * congruence.
      * rewrite <- Hy in O2. contradiction.
      * right; right. apply reach_refl.
      * rewrite <- Hy in O4. contradiction.
      * left; reflexivity.
    + destruct (reach_into_X u) as [-> | K].
      * eapply reach_step; [exact Huy | apply reach_refl].
      * left; reflexivity.
      * right; left; exact K.
    + right; left. eapply reach_step; eauto.
    + right; right. eapply reach_step; eauto.
Qed.

Lemma reach_into_Y (u : Z) :
  reach g' u Y -> u = Y \/ u = X \/ reach g' u pA \/ reach g' u pB.
Proof. intros H. apply (reach_into_Y' u Y H eq_refl). Qed.

Lemma no_cB_pA_R (v : Z) : R cB v -> reach g cB v.
Proof. intros [K | [_ K]]; assumption. Qed.

Lemma R_cA_pA : ~ R cA pA.
Proof.
  intros [K | [K _]]; apply (Hdag pA cA EA K).
Qed.

Lemma spliced_acyclic : acyclic g'.
Proof.
  destruct old_ends as (O1 & O2 & O3 & O4).
  assert (NX : forall a, In a (nodes g) -> a <> X) by (intros a Ha ->; contradiction).
  assert (NY : forall a, In a (nodes g) -> a <> Y) by (intros a Ha ->; contradiction).
  intros x y Hxy Ryx. apply E'_cases in Hxy.
  destruct Hxy as [(Ho & Hx & Hy) | [[-> ->] | [[-> ->] | [[-> ->] | [[-> ->] | [-> ->]]]]]].
  - destruct (reach_new_old y x Ryx Hx) as (K & _ & _).
    destruct (K (NX y Hy) (NY y Hy)) as [K1 | [K1 K2]].
    + apply (Hdag x y Ho K1).
    + apply Hbelow.
      eapply reach_trans; [exact K2 |].
      eapply reach_step; [exact Ho | exact K1].
  - destruct (reach_new_old X pA Ryx O1) as (_ & K & _).
    destruct (K eq_refl) as [K1 | K1].
    + apply R_cA_pA; assumption.
    + apply Hbelow; assumption.
  - destruct (reach_into_X cA Ryx) as [K | K].
    + apply (NX cA O2 K).
    + destruct (reach_new_old cA pA K O1) as (K1 & _ & _).
      apply R_cA_pA. apply K1; auto.
  - destruct (reach_new_old Y pB Ryx O3) as (_ & _ & K).
    apply (Hdag pB cB EB (K eq_refl)).
  - destruct (reach_into_Y cB Ryx) as [K | [K | [K | K]]].
    + apply (NY cB O4 K).
    + apply (NX cB O4 K).
    + destruct (reach_new_old cB pA K O1) as (K1 & _ & _).
      apply Hbelow. apply no_cB_pA_R. apply K1; auto.
    + destruct (reach_new_old cB pB K O3) as (K1 & _ & _).
      apply (Hdag pB cB EB). apply no_cB_pA_R. apply K1; auto.
  - destruct (reach_into_X Y Ryx) as [K | K].
    + congruence.
    + destruct (reach_new_old Y pA K O1) as (_ & _ & K1).
      apply Hbelow. apply K1. reflexivity.
Qed.

End SplicedAcyclic.

(** ** One insertion keeps the graph a well-formed DAG *)

Lemma E_fst_snd (g : DiGraph) (e : edge) :
  In e (edge_keys g) -> E g (fst e) (snd e).
Proof. unfold E. destruct e; auto. Qed.

Lemma reorientation_sound (g : DiGraph) (e1 e2 : edge) (b : bool) :
  acyclic g -> In e1 (edge_keys g) -> In e2 (edge_keys g) ->
  (b = true <-> reach g (snd e2) (fst e1)) ->
  ~ reach g (snd (snd (swap_if b (e1, e2)))) (fst (fst (swap_if b (e1, e2)))).
Proof.
  intros A H1 H2 Hb. destruct b; simpl.
  - intros K. assert (K2 : reach g (snd e2) (fst e1)) by (apply Hb; reflexivity).
    apply (A (fst e1) (snd e1) (E_fst_snd g e1 H1)).
    eapply reach_trans; [exact K |].
    eapply reach_step; [apply (E_fst_snd g e2 H2) | exact K2].
  - intros K. apply Hb in K. discriminate.
Qed.

Lemma insertion_invariants (g : DiGraph) (e1 e2 : edge) (r : rng) :
  wf g -> acyclic g -> In e1 (edge_keys g) -> In e2 (edge_keys g) ->
  exists g' r' m b,
    py_max (nodes g) = Ok m /\
    (forall x, In x (nodes g) -> x <= m) /\
    has_path g (snd e2) (fst e1) = Ok b /\
    (b = true <-> reach g (snd e2) (fst e1)) /\
    AddEdgeBetween g e1 e2 None r = Ok (g', r') /\
    nodes g' = nodes g ++ [m + 1; m + 2] /\
    edge_keys g' =
      edge_keys (spliced g (fst (swap_if b (e1, e2))) (snd (swap_if b (e1, e2)))
                         (m + 1) (m + 2)) /\
    wf g' /\ acyclic g'.
Proof.
  intros W A H1 H2.
  destruct (AddEdgeBetween_run g e1 e2 r W H1 H2)
    as (m & b & dA & dB & Hm & Hb & HdA & HdB & Hrun).
  assert (N1 : In (fst e1) (nodes g))
    by (destruct e1 as [a c]; apply (wf_ends g W a c H1)).
  assert (N2 : In (snd e2) (nodes g))
    by (destruct e2 as [a c]; apply (wf_ends g W a c H2)).
  destruct (has_path_spec g (snd e2) (fst e1) W N2 N1) as [b' [Hb' Hiff]].
  assert (b' = b) by congruence. subst b'.
  destruct (py_max_spec (nodes g)) as [m' [Hm' [_ Hle]]].
  { intros Hnil. rewrite Hnil in N1. contradiction. }
  assert (m' = m) by congruence. subst m'.
  pose proof (reorientation_sound g e1 e2 b A H1 H2 Hiff) as Hbelow.
  set (eA := fst (swap_if b (e1, e2))) in *.
  set (eB := snd (swap_if b (e1, e2))) in *.
  assert (HA : In eA (edge_keys g)) by (unfold eA; destruct b; assumption).
  assert (HB : In eB (edge_keys g)) by (unfold eB; destruct b; assumption).
  assert (HX : ~ In (m + 1) (nodes g)) by (intros Hin; apply Hle in Hin; lia).
  assert (HY : ~ In (m + 2) (nodes g)) by (intros Hin; apply Hle in Hin; lia).
  assert (HXY : m + 1 <> m + 2) by lia.
  eexists _, _, m, b. repeat (split; [eassumption |]).
  split; [apply inserted_nodes |].
  split; [apply inserted_keys |].
  split.
  - apply (wf_ext (spliced g eA eB (m + 1) (m + 2))).
    + rewrite inserted_nodes. symmetry. apply spliced_nodes.
    + apply inserted_keys.
    + apply spliced_wf; assumption.
  - apply (acyclic_ext (spliced g eA eB (m + 1) (m + 2))).
    + apply inserted_keys.
    + apply spliced_acyclic; assumption.
Qed.

(** ** The edge selectors *)

Lemma bind_raise {A B} (c : M A) (k : A -> M B) (r : rng) (e : exn) :
  bind c k r = Raise e ->
  c r = Raise e \/ exists a r1, c r = Ok (a, r1) /\ k a r1 = Raise e.
Proof.
  unfold bind. destruct (c r) as [[a r1] | e']; intros H.
  - right. exists a, r1. auto.
  - left. inversion H. reflexivity.
Qed.

Lemma draw_index_lt (k : N) (len : nat) :
  (0 < len)%nat -> (draw_index k len < len)%nat.
Proof.
  intros H. unfold draw_index.
  assert ((k mod N.of_nat len < N.of_nat len)%N)
    by (apply N.mod_upper_bound; lia).
  lia.
Qed.

Lemma random_choice_run {A} (l : list A) (d : A) (r : rng) :
  l <> [] ->
  random_choice l r = Ok (nth (draw_index (r 0%nat) (length l)) l d, rng_tail r).
Proof.
  destruct l as [|a t]; [congruence | intros _].
  unfold random_choice, bind, rng_next, ret. f_equal. f_equal.
  apply nth_indep. apply draw_index_lt. simpl; lia.
Qed.

Lemma random_choice_In {A} (l : list A) (x : A) (r r' : rng) :
  random_choice l r = Ok (x, r') -> In x l.
Proof.
  destruct l as [|a t] eqn:El; [discriminate |].
  rewrite <- El. intros H.
  rewrite (random_choice_run l a r) in H by (rewrite El; discriminate).
  injection H as <- _.
  apply nth_In. apply draw_index_lt. rewrite El; simpl; lia.
Qed.

Lemma random_choice_raise {A} (l : list A) (r : rng) (e : exn) :
  random_choice l r = Raise e -> e = IndexError /\ l = [].
Proof.
  destruct l as [|a t]; unfold random_choice, bind, rng_next, ret, raise;
    intros H; inversion H; auto.
Qed.

Lemma np_random_choice_2_run (n : nat) (r : rng) :
  (0 < n)%nat ->
  np_random_choice_2 n r
  = Ok ((draw_index (r 0%nat) n, draw_index (r 1%nat) n),
        rng_tail (rng_tail r)).
Proof. destruct n; [lia | reflexivity]. Qed.

Lemma AddEdgeUniform_run (g : DiGraph) (r : rng) :
  edges g <> [] ->
  AddEdgeUniform g None r
  = AddEdgeBetween g
      (nth (draw_index (r 0%nat) (length (edges g))) (edges g) (0, 0))
      (nth (draw_index (r 1%nat) (length (edges g))) (edges g) (0, 0))
      None (rng_tail (rng_tail r)).
Proof.
  intros H. unfold AddEdgeUniform.
  rewrite (bind_ok _ _ r (rng_tail (rng_tail r))
             (draw_index (r 0%nat) (length (edges g)),
              draw_index (r 1%nat) (length (edges g)))).
  - reflexivity.
  - apply np_random_choice_2_run.
    destruct (edges g); [congruence | simpl; lia].
Qed.

Lemma AddEdgeUniform_empty (g : DiGraph) (r : rng) :
  edges g = [] -> AddEdgeUniform g None r = Raise ValueError.
Proof. intros H. unfold AddEdgeUniform. rewrite H. reflexivity. Qed.

Lemma nth_edges_In (g : DiGraph) (k : N) :
  wf g -> edges g <> [] ->
  In (nth (draw_index k (length (edges g))) (edges g) (0, 0)) (edge_keys g).
Proof.
  intros W H. apply (edges_keys g _ W). apply nth_In.
  apply draw_index_lt. destruct (edges g); [congruence | simpl; lia].
Qed.

(** The walk keeps [(previous_node, current_node)] on an edge, in one
    direction or the other. *)
Lemma walk_on_edge (fuel : nat) (g : DiGraph) (stop_prob : Q)
      (max_steps : option Z) :
  forall step prev cur r p c r',
    In (prev, cur) (edge_keys g) \/ In (cur, prev) (edge_keys g) ->
    walk fuel g stop_prob max_steps step prev cur r = Ok ((p, c), r') ->
    In (p, c) (edge_keys g) \/ In (c, p) (edge_keys g).
Proof.
  induction fuel as [|fuel IH]; intros step prev cur r p c r' H0 H; simpl in H.
  - destruct (within max_steps step); [discriminate |].
    inversion H; subst. assumption.
  - destruct (within max_steps step).
    2:{ inversion H; subst. assumption. }
    apply bind_inv in H. destruct H as (succs & r1 & Hs & H).
    apply lift_inv in Hs. destruct Hs as [Hs ->].
    apply bind_inv in H. destruct H as (preds & r1 & Hp & H).
    apply lift_inv in Hp. destruct Hp as [Hp ->].
    apply bind_inv in H. destruct H as (next & r1 & Hn & H).
    apply bind_inv in H. destruct H as (u & r2 & _ & H).
    assert (Hnext : In (cur, next) (edge_keys g) \/ In (next, cur) (edge_keys g)).
    { apply random_choice_In in Hn. apply in_app_or in Hn.
      unfold successors, predecessors in *.
      destruct (has_node g cur); [| discriminate].
      inversion Hs; inversion Hp; subst.
      destruct Hn as [Hn | Hn].
      - left. apply In_succ_list. assumption.
      - right. apply In_pred_list. assumption. }
    destruct (Qlt_bool u stop_prob).
    + inversion H; subst. assumption.
    + eapply IH; eassumption.
Qed.

Lemma walk_raise (fuel : nat) (g : DiGraph) (stop_prob : Q)
      (max_steps : option Z) :
  forall step prev cur r e,
    walk fuel g stop_prob max_steps step prev cur r = Raise e ->
    e <> KeyError.
Proof.
  induction fuel as [|fuel IH]; intros step prev cur r e H; simpl in H.
  - destruct (within max_steps step); inversion H. discriminate.
  - destruct (within max_steps step); [| discriminate].
    unfold successors, predecessors in H.
    destruct (has_node g cur).
    2:{ inversion H. discriminate. }
    apply bind_raise in H. destruct H as [H | (a & r1 & Ha & H)]; [discriminate |].
    apply bind_raise in H. destruct H as [H | (a' & r2 & Ha' & H)]; [discriminate |].
    apply bind_raise in H. destruct H as [H | (nx & r3 & Hn & H)].
    { apply random_choice_raise in H. destruct H as [-> _]. discriminate. }
    apply bind_raise in H. destruct H as [H | (u & r4 & Hu & H)]; [discriminate |].
    destruct (Qlt_bool u stop_prob); [discriminate |].
    eapply IH; eassumption.
Qed.

Lemma local_attempt_edges (fuel : nat) (g : DiGraph) (stop_prob : Q)
      (max_steps : option Z) (r r' : rng) (e1 e2 : edge) :
  wf g ->
  local_attempt fuel g stop_prob max_steps r = Ok ((e1, e2), r') ->
  In e1 (edges g) /\ In e2 (edges g).
Proof.
  intros W H. unfold local_attempt in H.
  apply bind_inv in H. destruct H as (edge1 & r1 & H1 & H).
  apply bind_inv in H. destruct H as (prev & r2 & Hp & H).
  apply bind_inv in H. destruct H as ([p c] & r3 & Hw & H).
  unfold ret in H. inversion H; subst. clear H.
  apply random_choice_In in H1. apply random_choice_In in Hp.
  split; [assumption |].
  assert (K1 : In e1 (edge_keys g)) by (apply (edges_keys g e1 W); assumption).
  apply walk_on_edge in Hw.
  - destruct (mem_edge (p, c) (edges g)) eqn:Em; simpl.
    + apply mem_edge_In. assumption.
    + apply mem_edge_false in Em. apply (edges_keys g _ W).
      destruct Hw as [Hw | Hw]; [| assumption].
      exfalso. apply Em. apply (edges_keys g _ W). assumption.
  - destruct e1 as [a b]. simpl in *.
    destruct Hp as [<- | [<- | []]].
    + rewrite Z.eqb_refl. left. assumption.
    + destruct (a =? b) eqn:Eab.
      * apply Z.eqb_eq in Eab. subst. left. assumption.
      * right. assumption.
Qed.

Lemma local_attempt_raise (fuel : nat) (g : DiGraph) (stop_prob : Q)
      (max_steps : option Z) (r : rng) (e : exn) :
  local_attempt fuel g stop_prob max_steps r = Raise e -> e <> KeyError.
Proof.
  intros H. unfold local_attempt in H.
  apply bind_raise in H. destruct H as [H | (edge1 & r1 & H1 & H)].
  { apply random_choice_raise in H. destruct H as [-> _]. discriminate. }
  apply bind_raise in H. destruct H as [H | (prev & r2 & Hp & H)].
  { apply random_choice_raise in H. destruct H as [-> _]. discriminate. }
  apply bind_raise in H. destruct H as [H | ([p c] & r3 & Hw & H)].
  { eapply walk_raise; eassumption. }
  discriminate.
Qed.

Lemma local_search_edges (fuel : nat) (g : DiGraph) (stop_prob : Q)
      (max_steps max_tries : option Z) :
  wf g ->
  forall try_number bound r found r',
    local_search fuel g stop_prob max_steps max_tries try_number bound r
    = Ok (found, r') ->
    found = bound \/
    exists e1 e2, found = Some (e1, e2) /\ In e1 (edges g) /\ In e2 (edges g).
Proof.
  intros W. induction fuel as [|fuel IH]; intros t bound r found r' H; simpl in H.
  - destruct (within max_tries t); [discriminate |].
    inversion H; auto.
  - destruct (within max_tries t).
    2:{ inversion H; auto. }
    apply bind_inv in H. destruct H as ([e1 e2] & r1 & Ha & H).
    apply local_attempt_edges in Ha; [| assumption].
    destruct (negb (edge_eqb e1 e2)).
    + inversion H; subst. right. exists e1, e2. tauto.
    + apply IH in H. destruct H as [-> | H]; [| right; assumption].
      right. exists e1, e2. tauto.
Qed.

Lemma local_search_raise (fuel : nat) (g : DiGraph) (stop_prob : Q)
      (max_steps max_tries : option Z) :
  forall try_number bound r e,
    local_search fuel g stop_prob max_steps max_tries try_number bound r
    = Raise e -> e <> KeyError.
Proof.
  induction fuel as [|fuel IH]; intros t bound r e H; simpl in H.
  - destruct (within max_tries t); inversion H. discriminate.
  - destruct (within max_tries t); [| discriminate].
    apply bind_raise in H. destruct H as [H | ([e1 e2] & r1 & Ha & H)].
    { eapply local_attempt_raise; eassumption. }
    destruct (negb (edge_eqb e1 e2)); [discriminate |].
    eapply IH; eassumption.
Qed.

(** ** Insertions, one after the other *)

Lemma AddEdgeBetween_grows (g g' : DiGraph) (e1 e2 : edge) (r r' : rng) :
  wf g -> acyclic g -> In e1 (edge_keys g) -> In e2 (edge_keys g) ->
  AddEdgeBetween g e1 e2 None r = Ok (g', r') -> grows g g'.
Proof.
  intros W A H1 H2 H.
  destruct (insertion_invariants g e1 e2 r W A H1 H2)
    as (g1 & r1 & m & b & Hm & Hle & _ & _ & Hrun & Hn & _ & W' & A').
  rewrite Hrun in H. inversion H; subst.
  split; [assumption | split; [assumption |]]. exists m. auto.
Qed.

Lemma AddEdgeUniform_grows (g g' : DiGraph) (r r' : rng) :
  wf g -> acyclic g -> AddEdgeUniform g None r = Ok (g', r') -> grows g g'.
Proof.
  intros W A H.
  destruct (edges g) as [|e0 es] eqn:Ee.
  - rewrite AddEdgeUniform_empty in H by assumption. discriminate.
  - assert (Hne : edges g <> []) by (rewrite Ee; discriminate).
    rewrite AddEdgeUniform_run in H by assumption.
    eapply AddEdgeBetween_grows; [exact W | exact A | | | exact H];
      apply nth_edges_In; assumption.
Qed.

Lemma AddEdgeLocal_grows (fuel : nat) (g g' : DiGraph) (stop_prob : Q)
      (max_steps max_tries : option Z) (r r' : rng) :
  wf g -> acyclic g ->
  AddEdgeLocal fuel g None stop_prob max_steps max_tries r = Ok (g', r') ->
  grows g g'.
Proof.
  intros W A H. unfold AddEdgeLocal in H.
  apply bind_inv in H. destruct H as (found & r1 & Hs & H).
  apply (local_search_edges fuel g stop_prob max_steps max_tries W) in Hs.
  destruct Hs as [-> | (e1 & e2 & -> & H1 & H2)]; [discriminate |].
  eapply AddEdgeBetween_grows; [exact W | exact A | | | exact H];
    apply (edges_keys g _ W); assumption.
Qed.

Lemma GenerateNetwork_loop_grows (fuel : nat) (method : option Q) (k : nat) :
  forall g r g' r',
    wf g -> acyclic g ->
    GenerateNetwork_loop fuel g k method r = Ok (g', r') ->
    grows_star g k g'.
Proof.
  induction k as [|k IH]; intros g r g' r' W A H; simpl in H.
  - inversion H; subst. constructor.
  - apply bind_inv in H. destruct H as (g1 & r1 & H1 & H).
    assert (G : grows g g1).
    { destruct method as [sp |].
      - eapply AddEdgeLocal_grows; eassumption.
      - eapply AddEdgeUniform_grows; eassumption. }
    econstructor; [exact G |].
    destruct G as (W1 & A1 & _). eapply IH; eassumption.
Qed.

Lemma grows_star_inv (g g' : DiGraph) (k : nat) :
  wf g -> acyclic g -> grows_star g k g' ->
  wf g' /\ acyclic g' /\
  exists l, nodes g' = nodes g ++ l /\ length l = (2 * k)%nat /\
            forall x y, In x l -> In y (nodes g) -> y < x.
Proof.
  intros W A H. induction H as [g | g g1 g2 k G S IH].
  - split; [assumption | split; [assumption |]]. exists [].
    rewrite app_nil_r. split; [reflexivity | split; [reflexivity |]].
    intros x y [].
  - destruct G as (W1 & A1 & m & Hm & Hle & Hn).
    destruct (IH W1 A1) as (W2 & A2 & l & Hl & Hlen & Hfresh).
    split; [assumption | split; [assumption |]].
    exists ([m + 1; m + 2] ++ l). rewrite Hl, Hn, <- app_assoc.
    split; [reflexivity | split].
    + rewrite length_app. simpl. lia.
    + intros x y Hx Hin. apply in_app_or in Hx. destruct Hx as [Hx | Hx].
      * apply Hle in Hin. simpl in Hx. lia.
      * apply (Hfresh x y Hx). rewrite Hn. apply in_or_app. left. assumption.
Qed.

Lemma is_dag_acyclic (g : DiGraph) : wf g -> is_dag g = true -> acyclic g.
Proof.
  intros W H x y Exy R. unfold is_dag in H. rewrite forallb_forall in H.
  specialize (H (x, y) Exy). simpl in H.
  destruct (wf_ends g W x y Exy) as [Hx Hy].
  destruct (has_path_spec g y x W Hy Hx) as [b [Hb Hiff]].
  rewrite Hb in H. destruct b; [discriminate |].
  apply Hiff in R. discriminate.
Qed.

Lemma cherry_wf : wf cherry.
Proof. apply wfb_wf. reflexivity. Defined.

Lemma cherry_acyclic : acyclic cherry.
Proof. apply is_dag_acyclic; [apply cherry_wf | reflexivity]. Defined.

(** ** Counting nodes and edges *)

Lemma length_edges_from (ks : list edge) :
  forall ns, NoDup ns -> (forall e, In e ks -> In (fst e) ns) ->
    length (flat_map
              (fun u => map (pair u)
                          (map snd (filter (fun e => fst e =? u) ks))) ns)
    = length ks.
Proof.
  induction ks as [|e ks IH]; intros ns ND H.
  - induction ns as [|u ns IHn]; [reflexivity |]. simpl.
    inversion ND; subst. apply IHn; [assumption |]. intros e [].
  - assert (Hstep : forall ms, NoDup ms ->
              length (flat_map
                        (fun u => map (pair u)
                                    (map snd (filter (fun x => fst x =? u) (e :: ks)))) ms)
              = Nat.add
                  (length (flat_map
                             (fun u => map (pair u)
                                         (map snd (filter (fun x => fst x =? u) ks))) ms))
                  (if mem_Z (fst e) ms then 1%nat else 0%nat)).
    { induction ms as [|u ms IHm]; intros NDm; [reflexivity |].
      inversion NDm as [| ? ? Hu NDm']; subst.
      cbn [flat_map]. rewrite !length_app, IHm by assumption.
      rewrite !length_map. cbn [filter mem_Z existsb].
      destruct (fst e =? u) eqn:Eu.
      - apply Z.eqb_eq in Eu. subst u.
        replace (existsb (Z.eqb (fst e)) ms) with false
          by (symmetry; apply (mem_Z_false (fst e) ms); assumption).
        rewrite (proj2 (mem_Z_false (fst e) ms) Hu).
        cbn [length map orb]. lia.
      - unfold mem_Z. cbn [orb]. lia. }
    rewrite Hstep by assumption.
    rewrite IH by (try assumption; intros x Hx; apply H; right; assumption).
    rewrite (proj2 (mem_Z_In (fst e) ns)) by (apply H; left; reflexivity).
    simpl. lia.
Qed.

Lemma number_of_edges_keys (g : DiGraph) :
  wf g -> number_of_edges g = length (edge_keys g).
Proof.
  intros W. unfold number_of_edges, edges, succ_list.
  apply length_edges_from; [apply (wf_nodes g W) |].
  intros [u v] H. apply (wf_ends g W u v H).
Qed.

Lemma length_filter_out (l : list edge) (a : edge) :
  NoDup l -> In a l ->
  S (length (filter (fun x => negb (edge_eqb x a)) l)) = length l.
Proof.
  induction l as [|x l IH]; intros ND H; [contradiction |].
  inversion ND as [| ? ? Hx ND']; subst. simpl.
  destruct (edge_eqb x a) eqn:Ex; simpl.
  - apply edge_eqb_eq in Ex. subst x. f_equal.
    clear IH H ND. induction l as [|y l IHl]; [reflexivity |].
    simpl. inversion ND'; subst.
    destruct (edge_eqb y a) eqn:Ey.
    + apply edge_eqb_eq in Ey. subst y. exfalso. apply Hx. simpl; auto.
    + simpl. f_equal. apply IHl; [| assumption].
      intros K. apply Hx. simpl; auto.
  - f_equal. apply IH; [assumption |].
    destruct H as [H | H]; [| assumption].
    apply edge_eqb_neq in Ex. congruence.
Qed.

Lemma filter_out_absent (l : list edge) (a : edge) :
  ~ In a l -> filter (fun x => negb (edge_eqb x a)) l = l.
Proof.
  induction l as [|x l IH]; intros H; [reflexivity |]. simpl.
  destruct (edge_eqb x a) eqn:Ex.
  - apply edge_eqb_eq in Ex. subst. exfalso. apply H. simpl; auto.
  - simpl. f_equal. apply IH. intros K. apply H. simpl; auto.
Qed.

(** One insertion adds two nodes; it adds three edges when the two edges
    it is given differ, and four when they are the same edge. *)
Lemma insertion_counts (g g' : DiGraph) (e1 e2 : edge) (r r' : rng) :
  wf g -> In e1 (edges g) -> In e2 (edges g) ->
  AddEdgeBetween g e1 e2 None r = Ok (g', r') ->
  number_of_nodes g' = (number_of_nodes g + 2)%nat
  /\ number_of_edges g' =
     (number_of_edges g + if edge_eqb e1 e2 then 4 else 3)%nat.
Proof.
  intros W H1 H2 Hrun.
  apply (edges_keys g _ W) in H1. apply (edges_keys g _ W) in H2.
  destruct (AddEdgeBetween_run g e1 e2 r W H1 H2)
    as (m & b & dA & dB & Hm & Hb & _ & _ & Hrun').
  rewrite Hrun' in Hrun. injection Hrun as <- _.
  destruct (py_max_spec (nodes g)) as [m' [Hm' [_ Hle]]].
  { intros Hnil. destruct e1 as [a c].
    destruct (wf_ends g W a c H1) as [K _]. rewrite Hnil in K. contradiction. }
  assert (m' = m) by congruence. subst m'.
  set (eA := fst (swap_if b (e1, e2))) in *.
  set (eB := snd (swap_if b (e1, e2))) in *.
  assert (HA : In eA (edge_keys g)) by (unfold eA; destruct b; assumption).
  assert (HB : In eB (edge_keys g)) by (unfold eB; destruct b; assumption).
  assert (HX : ~ In (m + 1) (nodes g)) by (intros K; apply Hle in K; lia).
  assert (HY : ~ In (m + 2) (nodes g)) by (intros K; apply Hle in K; lia).
  assert (Heq : edge_eqb e1 e2 = edge_eqb eA eB).
  { unfold eA, eB. destruct b; simpl; [| reflexivity].
    destruct (edge_eqb e1 e2) eqn:E12.
    - apply edge_eqb_eq in E12. subst. symmetry. apply edge_eqb_refl.
    - symmetry. apply edge_eqb_neq. apply edge_eqb_neq in E12. congruence. }
  split.
  - unfold number_of_nodes. rewrite inserted_nodes, length_app. reflexivity.
  - rewrite number_of_edges_keys.
    2:{ apply (wf_ext (spliced g eA eB (m + 1) (m + 2))).
        - rewrite inserted_nodes. symmetry. apply spliced_nodes.
        - apply inserted_keys.
        - apply spliced_wf; assumption || lia. }
    rewrite inserted_keys, spliced_keys, length_app.
    rewrite (number_of_edges_keys g W), Heq.
    rewrite (remove_edge_keys (remove_edge g eA) eB), (remove_edge_keys g eA).
    pose proof (length_filter_out (edge_keys g) eA (wf_keys g W) HA) as LA.
    cbn [length].
    destruct (edge_eqb eA eB) eqn:EAB.
    + apply edge_eqb_eq in EAB. rewrite <- EAB.
      rewrite filter_out_absent.
      2:{ intros K. apply filter_In in K. destruct K as [_ K].
          rewrite edge_eqb_refl in K. discriminate. }
      lia.
    + pose proof (length_filter_out
                    (filter (fun x => negb (edge_eqb x eA)) (edge_keys g)) eB) as LB.
      rewrite <- LB in LA.
      * lia.
      * apply NoDup_filter. apply (wf_keys g W).
      * apply filter_In. split; [assumption |].
        apply negb_true_iff. apply edge_eqb_neq. apply edge_eqb_neq in EAB.
        congruence.
Qed.

(** ** Acyclicity is preserved *)

(** C1.  On a DAG, [AddEdgeBetween] called with two distinct edges
    [e1 = (pA, cA)] and [e2 = (pB, cB)] exchanges the two when
    [has_path(network, cB, pA)] holds, removes both, adds the four halves
    and the connector [(X, Y)] with [X = max + 1] and [Y = max + 2], and
    leaves a graph without a directed cycle.  Hence every graph
    [GenerateNetwork] returns from a DAG is a DAG, for every [r] and both
    selection methods. *)
Theorem AddEdgeBetween_preserves_acyclicity (g : DiGraph) :
  wf g -> acyclic g ->
  (forall e1 e2 r,
      In e1 (edges g) -> In e2 (edges g) -> e1 <> e2 ->
      exists g' r' m b,
        py_max (nodes g) = Ok m /\
        has_path g (snd e2) (fst e1) = Ok b /\
        (b = true <-> reach g (snd e2) (fst e1)) /\
        AddEdgeBetween g e1 e2 None r = Ok (g', r') /\
        (forall eA eB, (eA, eB) = swap_if b (e1, e2) ->
           forall e, In e (edges g') <->
                     (In e (edges g) /\ e <> eA /\ e <> eB)
                     \/ In e [(fst eA, m + 1); (m + 1, snd eA);
                              (fst eB, m + 2); (m + 2, snd eB);
                              (m + 1, m + 2)]) /\
        acyclic g')
  /\ (forall fuel r method rng0 g' rng1,
         GenerateNetwork fuel g r method rng0 = Ok (g', rng1) -> acyclic g').
Proof.
  intros W A. split.
  - intros e1 e2 r H1 H2 _.
    apply (edges_keys g _ W) in H1. apply (edges_keys g _ W) in H2.
    destruct (insertion_invariants g e1 e2 r W A H1 H2)
      as (g' & r' & m & b & Hm & Hle & Hb & Hiff & Hrun & Hn & Hk & W' & A').
    exists g', r', m, b. repeat (split; [assumption |]).
    split; [| assumption].
    intros eA eB Hsw e. rewrite <- Hsw in Hk. simpl in Hk.
    rewrite (edges_keys g' e W'), (edges_keys g e W).
    destruct e as [u v]. fold (E g' u v). rewrite (E_ext _ _ Hk u v).
    assert (HX : ~ In (m + 1) (nodes g)) by (intros Hin; apply Hle in Hin; lia).
    assert (HY : ~ In (m + 2) (nodes g)) by (intros Hin; apply Hle in Hin; lia).
    apply spliced_E.
  - intros fuel r method rng0 g' rng1 H. unfold GenerateNetwork in H.
    apply GenerateNetwork_loop_grows in H; [| assumption | assumption].
    apply grows_star_inv in H; tauto.
Qed.

Lemma AddEdgeBetween_preserves_acyclicity_witness :
  exists g' r',
    AddEdgeBetween cherry (3, 1) (3, 2) None zeros = Ok (g', r')
    /\ acyclic g'.
Proof.
  destruct (AddEdgeBetween_preserves_acyclicity cherry cherry_wf cherry_acyclic)
    as [H _].
  destruct (H (3, 1) (3, 2) zeros) as (g' & r' & m & b & _ & _ & _ & Hrun & _ & A).
  - simpl; auto.
  - simpl; auto.
  - discriminate.
  - exists g', r'. split; assumption.
Defined.

(** ** Attributes after an insertion *)

Lemma get_upd_same (g : DiGraph) (e : edge) f (d : EdgeAttr) :
  get_edge_data g e = Ok d -> get_edge_data (upd g e f) e = Ok (f d).
Proof. intros H. rewrite get_upd, H, edge_eqb_refl. reflexivity. Qed.

Lemma get_upd_other (g : DiGraph) (e e' : edge) f :
  e' <> e -> get_edge_data (upd g e f) e' = get_edge_data g e'.
Proof.
  intros H. rewrite get_upd. apply edge_eqb_neq in H. rewrite H.
  destruct (get_edge_data g e'); reflexivity.
Qed.

Lemma get_redistribute_other (g : DiGraph) (p x c : Z) (d : EdgeAttr)
      (u : float) (e : edge) :
  e <> (p, x) -> e <> (x, c) ->
  get_edge_data (redistribute g p x c d u) e = get_edge_data g e.
Proof.
  intros H1 H2. unfold redistribute.
  destruct (attr_length d), (attr_prob d);
    rewrite ?get_upd_other by assumption; reflexivity.
Qed.

Lemma get_redistribute_upper (g : DiGraph) (p x c : Z) (d d0 : EdgeAttr)
      (u : float) :
  (p, x) <> (x, c) -> get_edge_data g (p, x) = Ok d0 ->
  get_edge_data (redistribute g p x c d u) (p, x)
  = Ok (mkAttr (match attr_length d with
                | Some L => Some (u * L)%float
                | None => attr_length d0
                end) (attr_prob d0)).
Proof.
  intros H1 H0. unfold redistribute.
  destruct (attr_length d), (attr_prob d);
    rewrite ?(get_upd_other _ (x, c)) by assumption;
    rewrite ?(get_upd_same _ _ _ d0) by assumption;
    try reflexivity; rewrite H0; destruct d0; reflexivity.
Qed.

Lemma get_redistribute_lower (g : DiGraph) (p x c : Z) (d d0 : EdgeAttr)
      (u : float) :
  (p, x) <> (x, c) -> get_edge_data g (x, c) = Ok d0 ->
  get_edge_data (redistribute g p x c d u) (x, c)
  = Ok (mkAttr (match attr_length d with
                | Some L => Some (L - u * L)%float
                | None => attr_length d0
                end)
               (match attr_prob d with
                | Some pr => Some pr
                | None => attr_prob d0
                end)).
Proof.
  intros H1 H0. unfold redistribute.
  assert (H2 : (x, c) <> (p, x)) by congruence.
  apply edge_eqb_neq in H2.
  destruct (attr_length d), (attr_prob d);
    rewrite ?get_upd, H0, ?edge_eqb_refl, ?H2; destruct d0; reflexivity.
Qed.

Lemma halves_intro (d : EdgeAttr) (u : float) :
  halves d
    (mkAttr (match attr_length d with
             | Some L => Some (u * L)%float
             | None => None
             end) None)
    (mkAttr (match attr_length d with
             | Some L => Some (L - u * L)%float
             | None => None
             end)
            (match attr_prob d with Some pr => Some pr | None => None end))
    u.
Proof.
  unfold halves. simpl.
  split; [reflexivity |]. split; [destruct (attr_prob d); reflexivity |].
  destruct (attr_length d) as [L |]; auto.
Qed.

(** C6, as the code has it.  In an insertion, with [eA = (pA, cA)] and
    [eB = (pB, cB)] the two edges after the reorientation: when the
    removed [(pA, cA)] had a length [L], [(pA, X)] gets [l1 = u * L] for
    the number [u] in [0, 1) that [random.random()] returns, and
    [(X, cA)] gets [L - l1], product and difference being rounded to
    binary64; its probability, if any, goes to [(X, cA)] unchanged and
    [(pA, X)] has none; the same for [(pB, cB)] and [Y], with the next
    draw; the connector [(X, Y)] has neither attribute.  A draw is made
    for an edge only when it had a length, [eA] first. *)
Theorem AddEdgeBetween_attributes (g : DiGraph) (e1 e2 : edge) (r : rng) :
  wf g -> In e1 (edges g) -> In e2 (edges g) -> e1 <> e2 ->
  exists g' r' m b eA eB dA dB,
    py_max (nodes g) = Ok m /\
    has_path g (snd e2) (fst e1) = Ok b /\
    (eA, eB) = swap_if b (e1, e2) /\
    get_edge_data g eA = Ok dA /\ get_edge_data g eB = Ok dB /\
    AddEdgeBetween g e1 e2 None r = Ok (g', r') /\
    r' = after_length dB (after_length dA r) /\
    exists a1 a2 b1 b2,
      get_edge_data g' (fst eA, m + 1) = Ok a1 /\
      get_edge_data g' (m + 1, snd eA) = Ok a2 /\
      get_edge_data g' (fst eB, m + 2) = Ok b1 /\
      get_edge_data g' (m + 2, snd eB) = Ok b2 /\
      get_edge_data g' (m + 1, m + 2) = Ok no_attr /\
      (0 <= rand_val r)%Q /\ (rand_val r < 1)%Q /\
      (0 <= rand_val (after_length dA r))%Q /\
      (rand_val (after_length dA r) < 1)%Q /\
      halves dA a1 a2 (rand_float r) /\
      halves dB b1 b2 (rand_float (after_length dA r)).
Proof.
  intros W H1 H2 _.
  apply (edges_keys g _ W) in H1. apply (edges_keys g _ W) in H2.
  destruct (AddEdgeBetween_run g e1 e2 r W H1 H2)
    as (m & b & dA & dB & Hm & Hb & HdA & HdB & Hrun).
  destruct (py_max_spec (nodes g)) as [m' [Hm' [_ Hle]]].
  { intros Hnil. destruct e1 as [a c].
    destruct (wf_ends g W a c H1) as [K _]. rewrite Hnil in K. contradiction. }
  assert (m' = m) by congruence. subst m'.
  set (eA := fst (swap_if b (e1, e2))) in *.
  set (eB := snd (swap_if b (e1, e2))) in *.
  assert (HA : In eA (edge_keys g)) by (unfold eA; destruct b; assumption).
  assert (HB : In eB (edge_keys g)) by (unfold eB; destruct b; assumption).
  assert (HX : ~ In (m + 1) (nodes g)) by (intros Hin; apply Hle in Hin; lia).
  assert (HY : ~ In (m + 2) (nodes g)) by (intros Hin; apply Hle in Hin; lia).
  destruct (splice_apart g eA eB (m + 1) (m + 2) W HA HB HX HY)
    as (A1 & A2 & A3 & A4 & A5 & A6 & A7 & A8).
  set (X := m + 1) in *. set (Y := m + 2) in *.
  assert (HXY : X <> Y) by (unfold X, Y; lia).
  eexists _, _, m, b, eA, eB, dA, dB.
  repeat (split; [first [eassumption | unfold eA, eB; destruct b; reflexivity] |]).
  set (u1 := rand_float r). set (u2 := rand_float (after_length dA r)).
  pose proof (fun e => get_spliced_new g eA eB X Y e W HX HY) as Hnew.
  do 4 eexists.
  unfold inserted. change (m + 1) with X. change (m + 2) with Y.
  clearbody X Y.
  split.
  { rewrite get_redistribute_other by congruence.
    apply get_redistribute_upper; [congruence |].
    apply Hnew. simpl; auto. }
  split.
  { rewrite get_redistribute_other by congruence.
    apply get_redistribute_lower; [congruence |].
    apply Hnew. simpl; auto. }
  split.
  { apply get_redistribute_upper; [congruence |].
    rewrite get_redistribute_other by congruence.
    apply Hnew. simpl; auto. }
  split.
  { apply get_redistribute_lower; [congruence |].
    rewrite get_redistribute_other by congruence.
    apply Hnew. simpl; auto 6. }
  split.
  { rewrite !get_redistribute_other by congruence.
    apply Hnew. simpl; auto 6. }
  destruct (rand_val_range r) as [U1 U1'].
  destruct (rand_val_range (after_length dA r)) as [U2 U2'].
  repeat (split; [assumption |]).
  split; apply halves_intro.
Qed.

Lemma weighted_cherry_wf : wf weighted_cherry.
Proof. apply wfb_wf. reflexivity. Defined.

Lemma AddEdgeBetween_attributes_witness :
  exists g' r' a1 a2,
    AddEdgeBetween weighted_cherry (3, 1) (3, 2) None halves_rng = Ok (g', r')
    /\ get_edge_data g' (3, 4) = Ok a1
    /\ get_edge_data g' (4, 1) = Ok a2
    /\ get_edge_data g' (4, 5) = Ok no_attr
    /\ attr_length a1 = Some 1%float /\ attr_length a2 = Some 1%float
    /\ attr_prob a1 = None /\ attr_prob a2 = Some 0.25%float.
Proof.
  destruct (AddEdgeBetween_attributes weighted_cherry (3, 1) (3, 2) halves_rng
              weighted_cherry_wf)
    as (g' & r' & m & b & eA & eB & dA & dB & Hm & Hb & Hsw & HdA & HdB & Hrun
        & _ & a1 & a2 & b1 & b2 & G1 & G2 & G3 & G4 & G5 & _ & _ & _ & _
        & HA & HB).
  - simpl; auto.
  - simpl; auto.
  - discriminate.
  - vm_compute in Hm. injection Hm as <-.
    vm_compute in Hb. injection Hb as <-.
    vm_compute in Hsw. injection Hsw as -> ->.
    vm_compute in HdA. injection HdA as <-.
    exists g', r', a1, a2. destruct HA as (P1 & P2 & P3).
    cbn [attr_length weighted_cherry] in P3. destruct P3 as [P3 P4].
    vm_compute in P3. vm_compute in P4.
    repeat split; assumption.
Defined.

Lemma long_cherry_wf : wf long_cherry.
Proof. apply wfb_wf. reflexivity. Defined.

(** C6 as the claim has it fails: with the length 7.7 on the edge (3, 1)
    and the draw 19/128, the two halves do not add up to the length, neither
    as binary64 numbers nor as the exact values (the difference is
    2^-51). *)
Lemma AddEdgeBetween_halves_miss_length :
  exists g' r' l1 l2 u q1 q2 qL,
    AddEdgeBetween long_cherry (3, 1) (3, 2) None low_rng = Ok (g', r')
    /\ (rand_val low_rng == 19 # 128)%Q
    /\ exact (rand_float low_rng) = Some u /\ (u == 19 # 128)%Q
    /\ get_edge_data long_cherry (3, 1)
       = Ok (mkAttr (Some 0x1.ecccccccccccdp+2%float) None)
    /\ get_edge_data g' (3, 4) = Ok (mkAttr (Some l1) None)
    /\ get_edge_data g' (4, 1) = Ok (mkAttr (Some l2) None)
    /\ (l1 + l2 =? 0x1.ecccccccccccdp+2)%float = false
    /\ exact l1 = Some q1 /\ exact l2 = Some q2
    /\ exact 0x1.ecccccccccccdp+2%float = Some qL
    /\ (qL - (q1 + q2) == 1 # 2251799813685248)%Q.
Proof.
  destruct (AddEdgeBetween long_cherry (3, 1) (3, 2) None low_rng)
    as [[g' r'] | e] eqn:H.
  - vm_compute in H. injection H as <- <-.
    eexists _, _, _, _, _, _, _, _.
    split; [reflexivity |].
    split; [reflexivity |].
    split; [vm_compute; reflexivity |].
    split; [reflexivity |].
    split; [reflexivity |].
    split; [reflexivity |].
    split; [reflexivity |].
    split; [reflexivity |].
    split; [vm_compute; reflexivity |].
    split; [vm_compute; reflexivity |].
    split; [vm_compute; reflexivity |].
    reflexivity.
  - vm_compute in H. discriminate H.
Defined.

Lemma local_attempt_end (fuel : nat) (g : DiGraph) (stop_prob : Q)
      (max_steps : option Z) (r r' : rng) (e1 e2 : edge) :
  wf g ->
  local_attempt fuel g stop_prob max_steps r = Ok ((e1, e2), r') ->
  exists previous_node current_node,
    (In (previous_node, current_node) (edges g)
     \/ In (current_node, previous_node) (edges g))
    /\ e2 = if negb (mem_edge (previous_node, current_node) (edges g))
            then (current_node, previous_node)
            else (previous_node, current_node).
Proof.
  intros W H. unfold local_attempt in H.
  apply bind_inv in H. destruct H as (edge1 & r1 & H1 & H).
  apply bind_inv in H. destruct H as (prev & r2 & Hp & H).
  apply bind_inv in H. destruct H as ([p c] & r3 & Hw & H).
  unfold ret in H. inversion H; subst. clear H.
  apply random_choice_In in H1. apply random_choice_In in Hp.
  exists p, c. split; [| reflexivity].
  rewrite !(edges_keys g _ W).
  apply walk_on_edge in Hw; [assumption |].
  apply (edges_keys g _ W) in H1.
  destruct e1 as [a b]. simpl in *.
  destruct Hp as [<- | [<- | []]].
  - rewrite Z.eqb_refl. left. assumption.
  - destruct (a =? b) eqn:Eab.
    + apply Z.eqb_eq in Eab. subst. left. assumption.
    + right. assumption.
Qed.

(** C10.  In [AddEdgeLocal], every step of the walk moves to a successor
    or a predecessor of the current node, so when a walk ends
    [(previous_node, current_node)] or [(current_node, previous_node)] is
    an edge; the [edge2] computed from them is an edge of the graph, the
    look-ups [network[edge2[0]][edge2[1]]] of [AddEdgeBetween] find it, and
    [AddEdgeLocal] never ends in a [KeyError]. *)
Theorem AddEdgeLocal_edge2_exists (fuel : nat) (g : DiGraph) (stop_prob : Q)
        (max_steps : option Z) :
  wf g ->
  (forall step prev cur r p c r',
      In (prev, cur) (edges g) \/ In (cur, prev) (edges g) ->
      walk fuel g stop_prob max_steps step prev cur r = Ok ((p, c), r') ->
      In (p, c) (edges g) \/ In (c, p) (edges g))
  /\ (forall r e1 e2 r',
         local_attempt fuel g stop_prob max_steps r = Ok ((e1, e2), r') ->
         (exists previous_node current_node,
             (In (previous_node, current_node) (edges g)
              \/ In (current_node, previous_node) (edges g))
             /\ e2 = if negb (mem_edge (previous_node, current_node) (edges g))
                     then (current_node, previous_node)
                     else (previous_node, current_node))
         /\ In e1 (edges g) /\ In e2 (edges g)
         /\ (exists d1 d2, get_edge_data g e1 = Ok d1
                           /\ get_edge_data g e2 = Ok d2)
         /\ exists g' r'', AddEdgeBetween g e1 e2 None r' = Ok (g', r''))
  /\ (forall max_tries r,
         AddEdgeLocal fuel g None stop_prob max_steps max_tries r
         <> Raise KeyError).
Proof.
  intros W. split; [| split].
  - intros step prev cur r p c r' H0 H.
    rewrite !(edges_keys g _ W) in *.
    eapply walk_on_edge; eassumption.
  - intros r e1 e2 r' H.
    split; [eapply local_attempt_end; eassumption |].
    destruct (local_attempt_edges _ _ _ _ _ _ _ _ W H) as [K1 K2].
    split; [assumption | split; [assumption |]].
    apply (edges_keys g _ W) in K1. apply (edges_keys g _ W) in K2.
    destruct (get_edge_data_In g e1 K1) as [d1 Hd1].
    destruct (get_edge_data_In g e2 K2) as [d2 Hd2].
    split; [exists d1, d2; auto |].
    destruct (AddEdgeBetween_run g e1 e2 r' W K1 K2)
      as (m & b & dA & dB & _ & _ & _ & _ & Hrun).
    eexists _, _. exact Hrun.
  - intros max_tries r H. unfold AddEdgeLocal in H.
    apply bind_raise in H. destruct H as [H | (found & r1 & Hs & H)].
    + apply local_search_raise in H. congruence.
    + apply (local_search_edges _ _ _ _ _ W) in Hs.
      destruct Hs as [-> | (e1 & e2 & -> & K1 & K2)]; [discriminate |].
      apply (edges_keys g _ W) in K1. apply (edges_keys g _ W) in K2.
      destruct (AddEdgeBetween_run g e1 e2 r1 W K1 K2)
        as (m & b & dA & dB & _ & _ & _ & _ & Hrun).
      rewrite Hrun in H. discriminate.
Qed.

Lemma AddEdgeLocal_edge2_exists_witness :
  AddEdgeLocal 4 cherry None (1 # 2) None None zeros <> Raise KeyError.
Proof.
  destruct (AddEdgeLocal_edge2_exists 4 cherry (1 # 2) None cherry_wf)
    as (_ & _ & H).
  apply H.
Defined.

(** ** The tree builder *)

Lemma nodes_attach tree q id lab : nodes (attach tree q id lab) = nodes tree ++ [id].
Proof. unfold attach, nodes; simpl. rewrite map_app. reflexivity. Qed.

Lemma keys_attach tree q id lab :
  edge_keys (attach tree q id lab) = edge_keys tree ++ [(q, id)].
Proof. unfold attach, edge_keys; simpl. rewrite map_app. reflexivity. Qed.

Lemma add_edge_attach (tree : DiGraph) (q id : Z) :
  wf tree -> In q (nodes tree) -> ~ In id (nodes tree) ->
  add_edge tree q id = attach tree q id None.
Proof.
  intros W Hq Hid. unfold add_edge.
  rewrite (add_node_in tree q Hq), (add_node_out tree id Hid).
  unfold has_edge, edge_keys. cbn [g_edge g_node].
  assert (Hn : ~ In (q, id) (edge_keys tree)).
  { intros H. apply (wf_ends tree W) in H. tauto. }
  unfold edge_keys in Hn. rewrite (proj2 (mem_edge_false _ _) Hn).
  reflexivity.
Qed.

Lemma set_label_attach (tree : DiGraph) (q id c : Z) :
  ~ In id (nodes tree) ->
  set_label (attach tree q id None) id c = Ok (attach tree q id (Some c)).
Proof.
  intros Hid. unfold set_label, has_node. rewrite nodes_attach.
  assert (Hin : In id (nodes tree ++ [id])) by (apply in_or_app; right; simpl; auto).
  rewrite (proj2 (mem_Z_In _ _) Hin).
  unfold attach. cbn [g_node g_edge]. f_equal. f_equal.
  rewrite map_app. simpl. rewrite Z.eqb_refl. f_equal.
  unfold nodes in Hid. induction (g_node tree) as [|[a l] t IH]; [reflexivity |].
  simpl in *. destruct (a =? id) eqn:Ea.
  - apply Z.eqb_eq in Ea. tauto.
  - f_equal. apply IH. tauto.
Qed.

Lemma get_label_attach_old tree q id lab x :
  In x (nodes tree) -> get_label (attach tree q id lab) x = get_label tree x.
Proof.
  intros H. unfold get_label, attach, nodes in *. cbn [g_node].
  induction (g_node tree) as [|[a l] t IH]; [contradiction |].
  simpl in *. destruct (a =? x) eqn:Ea; [reflexivity |].
  apply IH. destruct H as [H | H]; [| assumption].
  apply Z.eqb_neq in Ea. contradiction.
Qed.

Lemma get_label_attach_new tree q id lab :
  ~ In id (nodes tree) -> get_label (attach tree q id lab) id = Ok lab.
Proof.
  intros H. unfold get_label, attach, nodes in *. cbn [g_node].
  induction (g_node tree) as [|[a l] t IH].
  - simpl. rewrite Z.eqb_refl. reflexivity.
  - simpl in *. destruct (a =? id) eqn:Ea.
    + apply Z.eqb_eq in Ea. tauto.
    + apply IH. tauto.
Qed.

Lemma succ_list_attach tree q id lab x :
  succ_list (attach tree q id lab) x
  = succ_list tree x ++ (if q =? x then [id] else []).
Proof.
  unfold succ_list. rewrite keys_attach, filter_app, map_app. simpl.
  destruct (q =? x); reflexivity.
Qed.

Lemma pred_list_attach tree q id lab x :
  pred_list (attach tree q id lab) x
  = pred_list tree x ++ (if id =? x then [q] else []).
Proof.
  unfold pred_list. rewrite keys_attach, filter_app, map_app. simpl.
  destruct (id =? x); reflexivity.
Qed.

Lemma wf_attach tree q id lab :
  wf tree -> In q (nodes tree) -> ~ In id (nodes tree) ->
  wf (attach tree q id lab).
Proof.
  intros W Hq Hid. constructor.
  - rewrite nodes_attach. apply NoDup_app.
    + apply (wf_nodes tree W).
    + repeat constructor. simpl; tauto.
    + intros a Ha [<- | []]. contradiction.
  - rewrite keys_attach. apply NoDup_app.
    + apply (wf_keys tree W).
    + repeat constructor. simpl; tauto.
    + intros a Ha [<- | []]. apply (wf_ends tree W) in Ha. tauto.
  - intros u v H. rewrite keys_attach in H. rewrite nodes_attach, !in_app_iff.
    apply in_app_or in H. destruct H as [H | [H | []]].
    + apply (wf_ends tree W) in H. tauto.
    + inversion H; subst. simpl. tauto.
Qed.

Lemma pred_list_fresh tree x :
  wf tree -> ~ In x (nodes tree) -> pred_list tree x = [].
Proof.
  intros W H. destruct (pred_list tree x) as [|p l] eqn:Ep; [reflexivity |].
  exfalso. assert (K : In p (pred_list tree x)) by (rewrite Ep; simpl; auto).
  apply In_pred_list in K. apply (wf_ends tree W) in K. tauto.
Qed.

Lemma succ_list_fresh tree x :
  wf tree -> ~ In x (nodes tree) -> succ_list tree x = [].
Proof.
  intros W H. destruct (succ_list tree x) as [|p l] eqn:Ep; [reflexivity |].
  exfalso. assert (K : In p (succ_list tree x)) by (rewrite Ep; simpl; auto).
  apply In_succ_list in K. apply (wf_ends tree W) in K. tauto.
Qed.

Lemma add_child_attach (tree : DiGraph) (q c li ll : Z) (queue : list Z) :
  wf tree -> In q (nodes tree) -> ~ In (child_id c li ll) (nodes tree) ->
  add_child q c (tree, li, ll, queue)
  = Ok (attach tree q (child_id c li ll) (child_label c),
        (if c =? 1 then li else li + 1),
        (if c =? 1 then ll + 1 else ll),
        (if c =? 1 then queue else (li + 1) :: queue)).
Proof.
  intros W Hq Hid. unfold add_child, child_id, child_label in *.
  destruct (c =? 1).
  - rewrite add_edge_attach by assumption. reflexivity.
  - rewrite add_edge_attach by assumption.
    rewrite set_label_attach by assumption. reflexivity.
Qed.

Lemma acyclic_attach tree q id lab :
  wf tree -> acyclic tree -> In q (nodes tree) -> ~ In id (nodes tree) ->
  acyclic (attach tree q id lab).
Proof.
  intros W A Hq Hid.
  assert (Hout : forall v, reach tree id v -> v = id).
  { intros v R. inversion R as [| ? y ? Hy _]; subst; [reflexivity |].
    apply (wf_ends tree W) in Hy. tauto. }
  assert (Hcase : forall u v, E (attach tree q id lab) u v ->
                              E tree u v \/ (u = q /\ v = id)).
  { intros u v H. unfold E in H. rewrite keys_attach in H.
    apply in_app_or in H. destruct H as [H | [H | []]]; [left; exact H |].
    inversion H; auto. }
  assert (Hreach : forall u v, reach (attach tree q id lab) u v ->
                               reach tree u v \/ v = id).
  { intros u v R. induction R as [x | x y z Hxy _ IH].
    - left. apply reach_refl.
    - destruct IH as [IH | IH]; [| right; assumption].
      destruct (Hcase x y Hxy) as [Ho | [-> ->]].
      + left. eapply reach_step; eauto.
      + right. apply Hout. assumption. }
  intros x y Hxy R. destruct (Hcase x y Hxy) as [Ho | [-> ->]].
  - destruct (Hreach y x R) as [K | K].
    + apply (A x y Ho K).
    + subst x. apply (wf_ends tree W) in Ho. tauto.
  - destruct (Hreach id q R) as [K | K].
    + apply Hout in K. subst q. contradiction.
    + subst q. contradiction.
Qed.

Lemma sumZ_app (l1 l2 : list Z) : sumZ (l1 ++ l2) = sumZ l1 + sumZ l2.
Proof. induction l1; simpl; lia. Qed.

Lemma sumZ_nonneg (l : list Z) : (forall x, In x l -> 0 <= x) -> 0 <= sumZ l.
Proof.
  induction l as [|a l IH]; simpl; intros H; [lia |].
  pose proof (H a (or_introl eq_refl)).
  assert (0 <= sumZ l) by (apply IH; intros; apply H; auto). lia.
Qed.

Lemma Inv_sums_nonneg n tree li ll queue cur pend :
  Inv n tree li ll queue cur pend ->
  0 <= sumZ (map (label_val tree) queue)
  /\ 0 <= sumZ (map (fun q => label_val tree q - 2) queue)
  /\ 0 <= sumZ pend.
Proof.
  intros I. repeat split; apply sumZ_nonneg; intros x Hx.
  - apply in_map_iff in Hx. destruct Hx as [q [<- Hq]].
    apply (inv_queue _ _ _ _ _ _ _ I) in Hq. lia.
  - apply in_map_iff in Hx. destruct Hx as [q [<- Hq]].
    apply (inv_queue _ _ _ _ _ _ _ I) in Hq. lia.
  - apply (inv_pend _ _ _ _ _ _ _ I) in Hx. lia.
Qed.

Lemma Inv_attach n tree li ll queue cur c pend :
  1 <= n ->
  Inv n tree li ll queue cur (c :: pend) ->
  Inv n (attach tree cur (child_id c li ll) (child_label c))
      (if c =? 1 then li else li + 1)
      (if c =? 1 then ll + 1 else ll)
      (if c =? 1 then queue else (li + 1) :: queue)
      cur pend
  /\ In cur (nodes tree) /\ ~ In (child_id c li ll) (nodes tree).
Proof.
  intros Hn I.
  destruct (Inv_sums_nonneg _ _ _ _ _ _ _ I) as (S1 & S2 & S3).
  destruct I as [W A Nd Hll Hli ND Q P T C D Cu L Pr Ro Rl].
  destruct Cu as [[_ Hp] | (Cr & Cq & Cl & Cg & Clen & Csum)]; [discriminate |].
  assert (Hc : 1 <= c) by (apply P; simpl; auto).
  simpl in T, C, S3, Csum.
  assert (S4 : 0 <= sumZ pend).
  { apply sumZ_nonneg. intros x Hx. assert (1 <= x) by (apply P; simpl; auto). lia. }
  set (id := child_id c li ll). set (lab := child_label c).
  set (tree' := attach tree cur id lab).
  assert (Hcur : In cur (nodes tree)) by (apply Nd; right; assumption).
  assert (Hid : ~ In id (nodes tree)).
  { unfold id, child_id. rewrite Nd. destruct (c =? 1) eqn:Ec; [| lia].
    apply Z.eqb_eq in Ec. lia. }
  assert (Hidv : (c = 1 /\ id = ll + 1 /\ lab = None) \/
                 (2 <= c /\ id = li + 1 /\ lab = Some c)).
  { unfold id, lab, child_id, child_label. destruct (c =? 1) eqn:Ec.
    - apply Z.eqb_eq in Ec. auto.
    - apply Z.eqb_neq in Ec. right. repeat split; lia. }
  assert (Lold : forall x, In x (nodes tree) -> get_label tree' x = get_label tree x)
    by (intros; apply get_label_attach_old; assumption).
  assert (Lv : forall x, In x (nodes tree) -> label_val tree' x = label_val tree x)
    by (intros x Hx; unfold label_val; rewrite Lold by assumption; reflexivity).
  assert (Tv : forall x, In x (nodes tree) -> tips tree' x = tips tree x)
    by (intros x Hx; unfold tips; rewrite Lold by assumption; reflexivity).
  assert (Lnew : get_label tree' id = Ok lab)
    by (apply get_label_attach_new; assumption).
  assert (Tnew : tips tree' id = c).
  { unfold tips. rewrite Lnew. destruct Hidv as [(-> & _ & ->) | (_ & _ & ->)]; reflexivity. }
  assert (Sx : forall x, x <> cur -> succ_list tree' x = succ_list tree x).
  { intros x Hx. unfold tree'. rewrite succ_list_attach.
    destruct (cur =? x) eqn:Ex; [apply Z.eqb_eq in Ex; congruence |].
    apply app_nil_r. }
  assert (Scur : succ_list tree' cur = succ_list tree cur ++ [id]).
  { unfold tree'. rewrite succ_list_attach, Z.eqb_refl. reflexivity. }
  assert (Px : forall x, x <> id -> pred_list tree' x = pred_list tree x).
  { intros x Hx. unfold tree'. rewrite pred_list_attach.
    destruct (id =? x) eqn:Ex; [apply Z.eqb_eq in Ex; congruence |].
    apply app_nil_r. }
  assert (Qin : forall q, In q queue -> In q (nodes tree)).
  { intros q Hq. apply Nd. right. apply Q in Hq. tauto. }
  assert (Mq : map (label_val tree') queue = map (label_val tree) queue).
  { apply map_ext_in. intros q Hq. apply Lv. auto. }
  assert (Mq2 : map (fun q => label_val tree' q - 2) queue
                = map (fun q => label_val tree q - 2) queue).
  { apply map_ext_in. intros q Hq. rewrite Lv by auto. reflexivity. }
  assert (Nd' : forall x, In x (nodes tree') <-> In x (nodes tree) \/ x = id).
  { intros x. unfold tree'. rewrite nodes_attach, in_app_iff. simpl.
    intuition congruence. }
  split; [| split; assumption].
  constructor.
  - apply wf_attach; assumption.
  - apply acyclic_attach; assumption.
  - intros x. rewrite Nd', Nd.
    destruct Hidv as [(-> & Hi & _) | (Hc2 & Hi & _)]; rewrite Hi.
    + simpl. lia.
    + replace (c =? 1) with false by (symmetry; apply Z.eqb_neq; lia). lia.
  - destruct (c =? 1); lia.
  - destruct (c =? 1); lia.
  - destruct (c =? 1); [assumption |]. constructor; [| assumption].
    intros Hq. apply Q in Hq. lia.
  - intros q Hq.
    assert (Hcases : In q queue \/ (2 <= c /\ q = li + 1 /\ id = li + 1 /\ lab = Some c)).
    { destruct Hidv as [(-> & _ & _) | (Hc2 & Hi & Hl)].
      - left. exact Hq.
      - replace (c =? 1) with false in Hq by (symmetry; apply Z.eqb_neq; lia).
        destruct Hq as [<- | Hq]; auto. }
    destruct Hcases as [Ho | (Hc2 & -> & Hi & Hl)].
    + destruct (Q q Ho) as (Q1 & Q2 & Q3 & Q4 & Q5).
      rewrite Lv, Lold, Sx by auto.
      repeat split; try assumption; destruct (c =? 1); lia.
    + rewrite <- Hi. unfold label_val. rewrite Lnew, Hl.
      replace (c =? 1) with false by (symmetry; apply Z.eqb_neq; lia).
      repeat split; try lia.
      rewrite Sx by lia. apply succ_list_fresh; assumption.
  - intros x Hx. apply P. simpl; auto.
  - destruct Hidv as [(-> & _ & _) | (Hc2 & Hi & Hl)].
    + simpl. rewrite Mq. lia.
    + replace (c =? 1) with false by (symmetry; apply Z.eqb_neq; lia).
      simpl. rewrite Mq. unfold label_val at 1. rewrite <- Hi, Lnew, Hl. lia.
  - destruct Hidv as [(-> & _ & _) | (Hc2 & Hi & Hl)].
    + simpl. rewrite Mq2. lia.
    + replace (c =? 1) with false by (symmetry; apply Z.eqb_neq; lia).
      simpl. rewrite Mq2. unfold label_val at 1. rewrite <- Hi, Lnew, Hl. lia.
  - intros x Hr Hq Hx.
    assert (Hold : n + 1 <= x <= li /\ ~ In x queue).
    { destruct Hidv as [(-> & _ & _) | (Hc2 & Hi & Hl)].
      - simpl in Hr, Hq. auto.
      - replace (c =? 1) with false in Hr, Hq by (symmetry; apply Z.eqb_neq; lia).
        simpl in Hq. split; [lia | tauto]. }
    destruct Hold as [Hr' Hq'].
    destruct (D x Hr' Hq' Hx) as (c1 & c2 & D1 & D2 & D3 & D4).
    assert (Hxn : In x (nodes tree)) by (apply Nd; right; assumption).
    exists c1, c2. rewrite Lv, Lold, Sx by assumption.
    assert (In c1 (nodes tree) /\ In c2 (nodes tree)).
    { split.
      - assert (K : In c1 (succ_list tree x)) by (rewrite D3; simpl; auto).
        apply In_succ_list in K. apply (wf_ends tree W) in K. tauto.
      - assert (K : In c2 (succ_list tree x)) by (rewrite D3; simpl; auto).
        apply In_succ_list in K. apply (wf_ends tree W) in K. tauto. }
    rewrite !Tv by tauto. auto.
  - right. rewrite Lv, Lold, Scur by assumption.
    split; [destruct (c =? 1); lia |].
    split.
    { destruct (c =? 1); [assumption |]. simpl. intros [K | K]; [lia | tauto]. }
    split; [assumption |]. split; [assumption |].
    split.
    { rewrite length_app. simpl in Clen |- *. lia. }
    rewrite map_app, sumZ_app. simpl. rewrite Tnew.
    assert (Ms : map (tips tree') (succ_list tree cur) = map (tips tree) (succ_list tree cur)).
    { apply map_ext_in. intros y Hy. apply Tv.
      apply In_succ_list in Hy. apply (wf_ends tree W) in Hy. tauto. }
    rewrite Ms. lia.
  - intros x Hx.
    assert (Hcases : 1 <= x <= ll \/ (c = 1 /\ x = ll + 1 /\ id = ll + 1 /\ lab = None)).
    { destruct Hidv as [(-> & Hi & Hl) | (Hc2 & Hi & Hl)].
      - simpl in Hx. assert (x = ll + 1 \/ 1 <= x <= ll) by lia. tauto.
      - replace (c =? 1) with false in Hx by (symmetry; apply Z.eqb_neq; lia).
        auto. }
    destruct Hcases as [Ho | (-> & -> & Hi & Hl)].
    + destruct (L x Ho) as [L1 L2].
      rewrite Lold by (apply Nd; auto). rewrite Sx by lia. auto.
    + rewrite <- Hi, Lnew, Hl. split; [reflexivity |].
      rewrite Sx by lia. apply succ_list_fresh; assumption.
  - intros x Hx Hroot. apply Nd' in Hx. destruct Hx as [Hx | ->].
    + rewrite Px by (intros ->; contradiction). apply Pr; assumption.
    + exists cur. unfold tree'. rewrite pred_list_attach, Z.eqb_refl.
      rewrite (pred_list_fresh tree id W Hid). reflexivity.
  - rewrite Px; [assumption |].
    intros Heq. apply Hid. rewrite <- Heq. apply Nd. right. lia.
  - rewrite Lold; [assumption |]. apply Nd. right. lia.
Qed.

Lemma Inv_pop n tree li ll node queue s :
  1 <= n ->
  Inv n tree li ll (node :: queue) 0 [] ->
  1 <= s <= label_val tree node - 1 ->
  Inv n tree li ll queue node [s; label_val tree node - s].
Proof.
  intros Hn I Hs.
  destruct I as [W A Nd Hll Hli ND Q P T C D Cu L Pr Ro Rl].
  apply NoDup_cons_iff in ND. destruct ND as [Hnq ND'].
  destruct (Q node (or_introl eq_refl)) as (Q1 & Q2 & Q3 & Q4 & Q5).
  simpl in T, C.
  constructor; try assumption.
  - intros q Hq. destruct (Q q (or_intror Hq)) as (K1 & K2 & K3 & K4 & K5).
    repeat split; try assumption; try lia.
    intros ->. contradiction.
  - intros c [<- | [<- | []]]; lia.
  - simpl. lia.
  - simpl. lia.
  - intros x Hr Hq Hx. apply D; [assumption | | lia].
    simpl. intros [K | K]; [congruence | contradiction].
  - right. rewrite Q5. simpl. repeat split; try assumption; lia.
Qed.

Lemma Inv_close n tree li ll queue cur :
  1 <= n ->
  Inv n tree li ll queue cur [] -> Inv n tree li ll queue 0 [].
Proof.
  intros Hn I.
  destruct I as [W A Nd Hll Hli ND Q P T C D Cu L Pr Ro Rl].
  constructor; try assumption.
  - intros q Hq. destruct (Q q Hq) as (K1 & K2 & K3 & K4 & K5).
    repeat split; try assumption; lia.
  - intros x Hr Hq _.
    destruct (Z.eq_dec x cur) as [-> | Hne]; [| apply D; assumption].
    destruct Cu as [[-> _] | (Cr & Cq & Cl & Cg & Clen & Csum)]; [lia |].
    destruct (succ_list tree cur) as [|c1 [|c2 [|c3 t]]] eqn:Es;
      simpl in Clen; try lia.
    exists c1, c2. simpl in Csum. repeat split; try assumption. lia.
  - left. auto.
Qed.

Lemma In_py_range (a b x : Z) : In x (py_range a b) <-> a <= x < b.
Proof.
  unfold py_range. rewrite in_map_iff. split.
  - intros [i [<- Hi]]. apply in_seq in Hi. lia.
  - intros H. exists (Z.to_nat (x - a)). split; [lia |].
    apply in_seq. lia.
Qed.

Lemma length_py_range (a b : Z) : length (py_range a b) = Z.to_nat (b - a).
Proof. unfold py_range. rewrite length_map, length_seq. reflexivity. Qed.

(** [random.choices] *)

Lemma length_accumulate (weights : list float) :
  length (accumulate weights) = length weights.
Proof.
  destruct weights as [|w rest]; [reflexivity |]. cbn [accumulate length].
  f_equal. generalize w. induction rest as [|x rest IH]; intros acc;
    cbn [accumulate_from length]; [reflexivity | rewrite IH; reflexivity].
Qed.

(** The binary search stays between its bounds, whatever the comparisons
    give. *)
Lemma bisect_loop_range (a : list float) (x : float) :
  forall rounds lo hi,
    (lo <= hi)%nat -> (lo <= bisect_loop rounds a x lo hi <= hi)%nat.
Proof.
  induction rounds as [|rounds IH]; intros lo hi H; cbn [bisect_loop]; [lia |].
  destruct (lo <? hi)%nat eqn:E; [| lia].
  apply Nat.ltb_lt in E.
  assert (Hmid : (lo <= (lo + hi) / 2 < hi)%nat).
  { split.
    - apply Nat.div_le_lower_bound; lia.
    - apply Nat.Div0.div_lt_upper_bound; lia. }
  destruct (x <? nth ((lo + hi) / 2) a nan)%float.
  - specialize (IH lo ((lo + hi) / 2)%nat). lia.
  - specialize (IH (S ((lo + hi) / 2)) hi). lia.
Qed.

(** The rounds given to the binary search are enough: with more of them
    the result is the same, so the loop has ended by its own test. *)
Lemma bisect_loop_enough (a : list float) (x : float) :
  forall rounds1 rounds2 lo hi,
    (hi - lo <= rounds1)%nat -> (hi - lo <= rounds2)%nat ->
    bisect_loop rounds1 a x lo hi = bisect_loop rounds2 a x lo hi.
Proof.
  induction rounds1 as [|rounds1 IH]; intros rounds2 lo hi H1 H2.
  - assert (E : (lo <? hi)%nat = false) by (apply Nat.ltb_ge; lia).
    destruct rounds2; cbn [bisect_loop]; [| rewrite E]; reflexivity.
  - destruct rounds2 as [|rounds2].
    + assert (E : (lo <? hi)%nat = false) by (apply Nat.ltb_ge; lia).
      cbn [bisect_loop]. rewrite E. reflexivity.
    + cbn [bisect_loop]. destruct (lo <? hi)%nat eqn:E; [| reflexivity].
      apply Nat.ltb_lt in E.
      assert (Hmid : (lo <= (lo + hi) / 2 < hi)%nat).
      { split.
        - apply Nat.div_le_lower_bound; lia.
        - apply Nat.Div0.div_lt_upper_bound; lia. }
      destruct (x <? nth ((lo + hi) / 2) a nan)%float; apply IH; lia.
Qed.

Lemma total_ok_inv (weights : list float) :
  total_ok weights = true ->
  exists last,
    last_item (accumulate weights) = Ok last
    /\ (last + 0 <=? 0)%float = false
    /\ is_finite (last + 0)%float = true.
Proof.
  unfold total_ok. destruct (last_item (accumulate weights)) as [last |];
    [| discriminate].
  intros H. apply andb_true_iff in H. destruct H as [H1 H2].
  exists last. split; [reflexivity |]. split; [| exact H2].
  apply negb_true_iff. exact H1.
Qed.

Lemma random_choices_run {A} (population : list A) (weights : list float)
      (r : rng) :
  length weights = length population -> total_ok weights = true ->
  exists x, random_choices population weights r = Ok (x, rng_tail r)
            /\ In x population.
Proof.
  intros Hlen Hok. destruct (total_ok_inv weights Hok) as (last & Hl & H1 & H2).
  unfold random_choices. rewrite length_accumulate, Hlen, Nat.eqb_refl.
  cbn [negb]. rewrite (bind_ok _ _ r r last (lift_ok _ _ r Hl)).
  rewrite H1, H2. cbn [negb].
  rewrite (bind_ok _ _ r (rng_tail r) (rand_val r) (random_random_run r)).
  set (i := bisect _ _ _ _).
  assert (Hpos : (0 < length population)%nat).
  { rewrite <- Hlen, <- length_accumulate.
    destruct (accumulate weights); [discriminate Hl | simpl; lia]. }
  assert (Hi : (i < length population)%nat).
  { pose proof (bisect_loop_range (accumulate weights)
                  (float_of_draw (rand_val r) * (last + 0))%float
                  (length population - 1 - 0) 0 (length population - 1)
                  ltac:(lia)) as K.
    unfold i, bisect. lia. }
  destruct (nth_error population i) as [x |] eqn:Ex.
  - exists x. split; [reflexivity |]. eapply nth_error_In. exact Ex.
  - apply nth_error_None in Ex. lia.
Qed.

Lemma random_choices_inv {A} (population : list A) (weights : list float)
      (r r' : rng) (x : A) :
  random_choices population weights r = Ok (x, r') ->
  In x population /\ r' = rng_tail r
  /\ length weights = length population /\ total_ok weights = true.
Proof.
  intros H.
  assert (Hlen : length weights = length population).
  { unfold random_choices in H. rewrite length_accumulate in H.
    destruct (length weights =? length population)%nat eqn:E;
      [apply Nat.eqb_eq; exact E | discriminate H]. }
  assert (Hok : total_ok weights = true).
  { unfold random_choices in H. rewrite length_accumulate, Hlen, Nat.eqb_refl in H.
    cbn [negb] in H. unfold total_ok.
    destruct (last_item (accumulate weights)) as [last |]; [| discriminate H].
    unfold bind at 1, lift, ret in H.
    destruct (last + 0 <=? 0)%float; [discriminate H |].
    destruct (is_finite (last + 0)%float); [reflexivity | discriminate H]. }
  destruct (random_choices_run population weights r Hlen Hok) as (y & Hy & Hin).
  rewrite Hy in H. injection H as <- <-. auto.
Qed.

Lemma random_choices_bad {A} (population : list A) (weights : list float)
      (r : rng) :
  length weights = length population -> weights <> [] ->
  total_ok weights = false ->
  random_choices population weights r = Raise ValueError.
Proof.
  intros Hlen Hne Hbad. unfold random_choices.
  rewrite length_accumulate, Hlen, Nat.eqb_refl. cbn [negb].
  unfold total_ok in Hbad.
  destruct (last_item (accumulate weights)) as [last | e] eqn:El.
  - unfold bind at 1, lift, ret.
    destruct (last + 0 <=? 0)%float; [reflexivity |].
    cbn [negb andb] in Hbad. rewrite Hbad. reflexivity.
  - exfalso. destruct weights; [congruence | discriminate El].
Qed.

(** [computeProb] *)

Lemma length_computeProb loggamma np_exp (n : Z) (beta : float)
      (q_n : list float) :
  computeProb loggamma np_exp n beta = Ok q_n ->
  length q_n = Z.to_nat (n - 1).
Proof.
  unfold computeProb. rewrite <- (length_py_range 1 n).
  generalize (py_range 1 n) as range. intros range. revert q_n.
  induction range as [|i range IH]; intros q_n H; cbn [computeProb_loop] in H.
  - injection H as <-. reflexivity.
  - unfold rbind in H.
    destruct (q_i_n loggamma np_exp n beta i) as [q |]; [| discriminate H].
    destruct (computeProb_loop loggamma np_exp n beta range) as [qs |];
      [| discriminate H].
    injection H as <-. cbn [length]. rewrite (IH qs eq_refl). reflexivity.
Qed.

Lemma sample_split loggamma np_exp (m : Z) (beta : float) (q_n : list float)
      (r : rng) :
  2 <= m ->
  computeProb loggamma np_exp m beta = Ok q_n -> total_ok q_n = true ->
  exists s, random_choices (py_range 1 m) q_n r = Ok (s, rng_tail r)
            /\ 1 <= s <= m - 1.
Proof.
  intros Hm Hq Hok.
  destruct (random_choices_run (py_range 1 m) q_n r) as (s & Hs & Hin).
  - rewrite (length_computeProb _ _ _ _ _ Hq), length_py_range. reflexivity.
  - exact Hok.
  - exists s. split; [exact Hs |]. apply In_py_range in Hin. lia.
Qed.

Lemma simulate_loop_nil loggamma np_exp fuel beta tree li ll r :
  simulate_loop loggamma np_exp fuel beta (tree, li, ll, []) r = Ok (tree, r).
Proof. destruct fuel; reflexivity. Qed.

(** One round of the loop, unfolded. *)
Lemma simulate_loop_round loggamma np_exp fuel beta tree li ll node queue r :
  simulate_loop loggamma np_exp (S fuel) beta (tree, li, ll, node :: queue) r
  = bind (lift (get_label tree node))
      (fun l =>
         match l with
         | None => raise TypeError
         | Some n_node =>
             if n_node >? 1 then
               q_n <- lift (computeProb loggamma np_exp n_node beta) ;;
               split <- random_choices (py_range 1 n_node) q_n ;;
               st1 <- lift (add_child node split (tree, li, ll, queue)) ;;
               st2 <- lift (add_child node (n_node - split) st1) ;;
               simulate_loop loggamma np_exp fuel beta st2
             else simulate_loop loggamma np_exp fuel beta (tree, li, ll, queue)
         end) r.
Proof. reflexivity. Qed.

(** The node at the head of the queue has a label between 2 and [n]. *)
Lemma loop_head n tree li ll node queue :
  Inv n tree li ll (node :: queue) 0 [] ->
  get_label tree node = Ok (Some (label_val tree node))
  /\ 2 <= label_val tree node <= n.
Proof.
  intros I.
  destruct (inv_queue _ _ _ _ _ _ _ I node (or_introl eq_refl))
    as (_ & _ & Q3 & Q4 & _).
  split; [exact Q4 |]. split; [exact Q3 |].
  pose proof (inv_tips _ _ _ _ _ _ _ I) as T.
  pose proof (inv_ll _ _ _ _ _ _ _ I) as Hll.
  cbn [map sumZ fold_right] in T.
  assert (S : 0 <= sumZ (map (label_val tree) queue)).
  { apply sumZ_nonneg. intros x Hx. apply in_map_iff in Hx.
    destruct Hx as [q [<- Hq]].
    destruct (inv_queue _ _ _ _ _ _ _ I q (or_intror Hq)) as (_ & _ & K & _).
    lia. }
  unfold sumZ in S. lia.
Qed.

(** What one round does to the state, for a split [s] in range: the two
    children are attached, the invariant holds again, one round less is
    left and the tree has two more edges. *)
Lemma loop_round n tree li ll node queue s :
  2 <= n -> Inv n tree li ll (node :: queue) 0 [] ->
  1 <= s <= label_val tree node - 1 ->
  exists st1 tree2 li2 ll2 queue2,
    add_child node s (tree, li, ll, queue) = Ok st1
    /\ add_child node (label_val tree node - s) st1
       = Ok (tree2, li2, ll2, queue2)
    /\ Inv n tree2 li2 ll2 queue2 0 []
    /\ 2 * n - 1 - li + Z.of_nat (length (node :: queue))
       = 1 + (2 * n - 1 - li2 + Z.of_nat (length queue2))
    /\ 0 <= 2 * n - 1 - li2 + Z.of_nat (length queue2)
    /\ length (g_edge tree2) = (length (g_edge tree) + 2)%nat.
Proof.
  intros Hn I Hrange.
  set (m := label_val tree node) in *.
  pose proof (Inv_pop n tree li ll node queue s ltac:(lia) I Hrange) as I0.
  fold m in I0.
  destruct (Inv_attach n tree li ll queue node s [m - s] ltac:(lia) I0)
    as (I1 & Hq1 & Hid1).
  set (tree1 := attach tree node (child_id s li ll) (child_label s)) in *.
  set (li1 := if s =? 1 then li else li + 1) in *.
  set (ll1 := if s =? 1 then ll + 1 else ll) in *.
  set (queue1 := if s =? 1 then queue else (li + 1) :: queue) in *.
  destruct (Inv_attach n tree1 li1 ll1 queue1 node (m - s) [] ltac:(lia) I1)
    as (I2 & Hq2 & Hid2).
  set (tree2 := attach tree1 node (child_id (m - s) li1 ll1)
                       (child_label (m - s))) in *.
  set (li2 := if m - s =? 1 then li1 else li1 + 1) in *.
  set (ll2 := if m - s =? 1 then ll1 + 1 else ll1) in *.
  set (queue2 := if m - s =? 1 then queue1 else (li1 + 1) :: queue1) in *.
  apply Inv_close in I2; [| lia].
  exists (tree1, li1, ll1, queue1), tree2, li2, ll2, queue2.
  split.
  { apply add_child_attach;
      [apply (inv_wf _ _ _ _ _ _ _ I) | assumption | assumption]. }
  split.
  { apply add_child_attach;
      [apply (inv_wf _ _ _ _ _ _ _ I1) | assumption | assumption]. }
  split; [exact I2 |].
  split.
  { unfold li2, queue2, li1, queue1.
    cbn [length]. rewrite Nat2Z.inj_succ.
    destruct (s =? 1), (m - s =? 1);
      cbn [length]; rewrite ?Nat2Z.inj_succ; lia. }
  split.
  { pose proof (inv_count _ _ _ _ _ _ _ I2) as C.
    destruct (Inv_sums_nonneg _ _ _ _ _ _ _ I2) as (_ & S2 & _).
    change (sumZ (map (fun c => c - 1) [])) with 0 in C. lia. }
  unfold tree2, tree1, attach. cbn [g_edge].
  rewrite !length_app. cbn [length]. lia.
Qed.

(** When the queue is empty all the nodes have been numbered. *)
Lemma Inv_end n tree li ll :
  Inv n tree li ll [] 0 [] -> li = 2 * n - 1 /\ ll = n.
Proof.
  intros I.
  pose proof (inv_tips _ _ _ _ _ _ _ I) as T.
  pose proof (inv_count _ _ _ _ _ _ _ I) as C.
  cbn [map sumZ fold_right] in T, C. lia.
Qed.

(** Whatever the loop returns satisfies the invariant with an empty queue;
    it has made one draw and added two edges in each of the rounds that
    were left. *)
Lemma simulate_loop_sound loggamma np_exp (beta : float) (n : Z) :
  2 <= n ->
  forall fuel tree li ll queue r tree' r',
    Inv n tree li ll queue 0 [] ->
    simulate_loop loggamma np_exp fuel beta (tree, li, ll, queue) r
    = Ok (tree', r') ->
    Inv n tree' (2 * n - 1) n [] 0 []
    /\ r' = Nat.iter (Z.to_nat (2 * n - 1 - li + Z.of_nat (length queue)))
                     rng_tail r
    /\ length (g_edge tree')
       = (length (g_edge tree)
          + 2 * Z.to_nat (2 * n - 1 - li + Z.of_nat (length queue)))%nat.
Proof.
  intros Hn. induction fuel as [|fuel IH];
    intros tree li ll queue r tree' r' I H.
  - destruct queue as [|node queue]; [| discriminate H].
    cbn [simulate_loop] in H. injection H as <- <-.
    destruct (Inv_end _ _ _ _ I) as [-> ->].
    replace (2 * n - 1 - (2 * n - 1) + Z.of_nat (length (@nil Z))) with 0
      by (cbn [length]; lia).
    split; [exact I |]. split; [reflexivity | simpl; lia].
  - destruct queue as [|node queue].
    + cbn [simulate_loop] in H. injection H as <- <-.
      destruct (Inv_end _ _ _ _ I) as [-> ->].
      replace (2 * n - 1 - (2 * n - 1) + Z.of_nat (length (@nil Z))) with 0
        by (cbn [length]; lia).
      split; [exact I |]. split; [reflexivity | simpl; lia].
    + destruct (loop_head _ _ _ _ _ _ I) as [Hl Hm].
      set (m := label_val tree node) in *.
      rewrite simulate_loop_round in H.
      rewrite (bind_ok _ _ r r (Some m)) in H by (apply lift_ok; exact Hl).
      replace (m >? 1) with true in H by (symmetry; apply Z.gtb_lt; lia).
      apply bind_inv in H. destruct H as (q_n & r0 & Hq & H).
      apply lift_inv in Hq. destruct Hq as [Hq ->].
      apply bind_inv in H. destruct H as (s & r1 & Hs & H).
      apply random_choices_inv in Hs. destruct Hs as (Hin & -> & _ & _).
      apply In_py_range in Hin.
      destruct (loop_round n tree li ll node queue s Hn I ltac:(fold m; lia))
        as (st1 & tree2 & li2 & ll2 & queue2 & H1 & H2 & I2 & Hmeas & Hpos
            & Hedges).
      fold m in H2.
      rewrite (bind_ok _ _ _ (rng_tail r) st1) in H by (apply lift_ok; exact H1).
      rewrite (bind_ok _ _ _ (rng_tail r) (tree2, li2, ll2, queue2)) in H
        by (apply lift_ok; exact H2).
      destruct (IH _ _ _ _ _ _ _ I2 H) as (I' & Hr & Hlen).
      split; [exact I' |].
      rewrite Hmeas.
      replace (Z.to_nat (1 + (2 * n - 1 - li2 + Z.of_nat (length queue2))))
        with (S (Z.to_nat (2 * n - 1 - li2 + Z.of_nat (length queue2))))
        by lia.
      rewrite Nat.iter_succ_r. split; [exact Hr |].
      rewrite Hlen, Hedges. lia.
Qed.

(** With weights that [random.choices] accepts the loop ends within the
    rounds that are left. *)
Lemma simulate_loop_total loggamma np_exp (beta : float) (n : Z) :
  2 <= n -> good_weights loggamma np_exp n beta ->
  forall fuel tree li ll queue r,
    Inv n tree li ll queue 0 [] ->
    2 * n - 1 - li + Z.of_nat (length queue) <= Z.of_nat fuel ->
    exists tree' r',
      simulate_loop loggamma np_exp fuel beta (tree, li, ll, queue) r
      = Ok (tree', r').
Proof.
  intros Hn Hw. induction fuel as [|fuel IH]; intros tree li ll queue r I Hf.
  - destruct queue as [|node queue].
    + exists tree, r. reflexivity.
    + exfalso. destruct (Inv_sums_nonneg _ _ _ _ _ _ _ I) as (_ & S2 & _).
      pose proof (inv_count _ _ _ _ _ _ _ I) as C.
      change (sumZ (map (fun c => c - 1) [])) with 0 in C.
      cbn [length] in Hf. rewrite Nat2Z.inj_succ in Hf. lia.
  - destruct queue as [|node queue].
    + exists tree, r. reflexivity.
    + destruct (loop_head _ _ _ _ _ _ I) as [Hl Hm].
      set (m := label_val tree node) in *.
      destruct (Hw m Hm) as (q_n & Hq & Hok).
      destruct (sample_split loggamma np_exp m beta q_n r ltac:(lia) Hq Hok)
        as [s [Hs Hrange]].
      destruct (loop_round n tree li ll node queue s Hn I ltac:(fold m; lia))
        as (st1 & tree2 & li2 & ll2 & queue2 & H1 & H2 & I2 & Hmeas & Hpos
            & Hedges).
      fold m in H2.
      destruct (IH tree2 li2 ll2 queue2 (rng_tail r) I2) as (t' & r' & Hrun).
      { rewrite Nat2Z.inj_succ in Hf. lia. }
      exists t', r'.
      rewrite simulate_loop_round.
      rewrite (bind_ok _ _ r r (Some m)) by (apply lift_ok; exact Hl).
      replace (m >? 1) with true by (symmetry; apply Z.gtb_lt; lia).
      rewrite (bind_ok _ _ r r q_n) by (apply lift_ok; exact Hq).
      rewrite (bind_ok _ _ r (rng_tail r) s Hs).
      rewrite (bind_ok _ _ _ (rng_tail r) st1) by (apply lift_ok; exact H1).
      rewrite (bind_ok _ _ _ (rng_tail r) (tree2, li2, ll2, queue2))
        by (apply lift_ok; exact H2).
      exact Hrun.
Qed.

Lemma simulate_init (n : Z) :
  2 <= n ->
  set_label (add_node empty_graph (n + 1)) (n + 1) n
  = Ok (mkDiGraph [(n + 1, Some n)] [])
  /\ Inv n (mkDiGraph [(n + 1, Some n)] []) (n + 1) 0 [n + 1] 0 [].
Proof.
  intros Hn. split.
  - unfold set_label, add_node, has_node, empty_graph, nodes, mem_Z.
    cbn [g_node g_edge map existsb app fst snd orb].
    rewrite Z.eqb_refl. reflexivity.
  - assert (Hl : get_label (mkDiGraph [(n + 1, Some n)] []) (n + 1) = Ok (Some n)).
    { unfold get_label. simpl. rewrite Z.eqb_refl. reflexivity. }
    assert (Hv : label_val (mkDiGraph [(n + 1, Some n)] []) (n + 1) = n).
    { unfold label_val. rewrite Hl. reflexivity. }
    constructor.
    + constructor; simpl.
      * repeat constructor. simpl; tauto.
      * constructor.
      * intros u v [].
    + intros x y [].
    + intros x. simpl. lia.
    + lia.
    + lia.
    + repeat constructor. simpl; tauto.
    + intros q [<- | []]. rewrite Hv, Hl. repeat split; lia.
    + intros c [].
    + simpl. rewrite Hv. lia.
    + simpl. rewrite Hv. lia.
    + intros x Hr Hq _. exfalso. apply Hq. simpl. lia.
    + left. auto.
    + intros x Hx. lia.
    + intros x Hx Hne. simpl in Hx. exfalso. destruct Hx as [Hx | []]. lia.
    + reflexivity.
    + exact Hl.
Qed.

Lemma NoDup_py_range (a b : Z) : NoDup (py_range a b).
Proof.
  unfold py_range. apply NoDup_map_NoDup_ForallPairs; [| apply seq_NoDup].
  intros x y _ _ H. lia.
Qed.

Lemma length_interval (l : list Z) (a b : Z) :
  NoDup l -> (forall x, In x l <-> a <= x < b) ->
  length l = Z.to_nat (b - a).
Proof.
  intros ND H. rewrite <- (length_py_range a b).
  apply Permutation_length. apply NoDup_Permutation.
  - assumption.
  - apply NoDup_py_range.
  - intros x. rewrite H, In_py_range. tauto.
Qed.

(** Whatever [simulateBetaSplitting] returns for [n >= 2] satisfies the
    invariant with an empty queue, [last_leaf_node = n] and
    [last_internal_node = 2 n - 1]; [n - 1] draws were made and the tree
    has [2 n - 2] edges. *)
Lemma simulateBetaSplitting_sound loggamma np_exp (fuel : nat) (n : Z)
      (beta : float) (r r' : rng) (tree : DiGraph) :
  2 <= n ->
  simulateBetaSplitting loggamma np_exp fuel n beta r = Ok (tree, r') ->
  Inv n tree (2 * n - 1) n [] 0 []
  /\ r' = Nat.iter (Z.to_nat (n - 1)) rng_tail r
  /\ length (g_edge tree) = Z.to_nat (2 * n - 2).
Proof.
  intros Hn H. destruct (simulate_init n Hn) as [Hset I0].
  unfold simulateBetaSplitting in H.
  rewrite (bind_ok _ _ r r _ (lift_ok _ _ r Hset)) in H.
  destruct (simulate_loop_sound loggamma np_exp beta n Hn _ _ _ _ _ _ _ _ I0 H)
    as (I & Hr & Hlen).
  replace (2 * n - 1 - (n + 1) + Z.of_nat (length [n + 1])) with (n - 1)
    in Hr, Hlen by (cbn [length]; lia).
  split; [exact I |]. split; [exact Hr |].
  rewrite Hlen. cbn [g_edge length]. lia.
Qed.

(** With weights that [random.choices] accepts, the run of
    [simulateBetaSplitting] ends. *)
Lemma simulateBetaSplitting_Inv loggamma np_exp (fuel : nat) (n : Z)
      (beta : float) (r : rng) :
  2 <= n -> good_weights loggamma np_exp n beta ->
  (Z.to_nat (n - 1) <= fuel)%nat ->
  exists tree r',
    simulateBetaSplitting loggamma np_exp fuel n beta r = Ok (tree, r') /\
    Inv n tree (2 * n - 1) n [] 0 [].
Proof.
  intros Hn Hw Hf. destruct (simulate_init n Hn) as [Hset I0].
  destruct (simulate_loop_total loggamma np_exp beta n Hn Hw fuel _ _ _ _ r I0)
    as (tree & r' & Hrun).
  { cbn [length]. lia. }
  assert (Hsim : simulateBetaSplitting loggamma np_exp fuel n beta r
                 = Ok (tree, r')).
  { unfold simulateBetaSplitting.
    rewrite (bind_ok _ _ r r _ (lift_ok _ _ r Hset)). exact Hrun. }
  exists tree, r'. split; [exact Hsim |].
  apply (simulateBetaSplitting_sound _ _ _ _ _ _ _ _ Hn Hsim).
Qed.




(** ** The run on two tips *)

Lemma simulate_two_tips loggamma np_exp (fuel : nat) (beta : float)
      (r : rng) :
  good_weights loggamma np_exp 2 beta -> (1 <= fuel)%nat ->
  simulateBetaSplitting loggamma np_exp fuel 2 beta r = Ok (cherry, rng_tail r).
Proof.
  intros Hw Hf. destruct fuel as [|fuel]; [lia |].
  destruct (Hw 2 ltac:(lia)) as (q_n & Hq & Hok).
  unfold simulateBetaSplitting.
  rewrite (bind_ok _ _ r r (mkDiGraph [(3, Some 2)] []))
    by (apply lift_ok; reflexivity).
  change (simulate_loop loggamma np_exp (S fuel) beta
            (mkDiGraph [(3, Some 2)] [], 2 + 1, 0, [2 + 1]) r)
    with (bind (lift (computeProb loggamma np_exp 2 beta))
            (fun q_n =>
               split <- random_choices (py_range 1 2) q_n ;;
               st1 <- lift (add_child 3 split (mkDiGraph [(3, Some 2)] [], 3, 0, [])) ;;
               st2 <- lift (add_child 3 (2 - split) st1) ;;
               simulate_loop loggamma np_exp fuel beta st2) r).
  rewrite (bind_ok _ _ r r q_n) by (apply lift_ok; exact Hq).
  destruct (sample_split loggamma np_exp 2 beta q_n r ltac:(lia) Hq Hok)
    as [s [Hs Hrange]].
  assert (s = 1) by lia. subst s.
  rewrite (bind_ok _ _ r (rng_tail r) 1 Hs).
  change (simulate_loop loggamma np_exp fuel beta (cherry, 3, 2, []) (rng_tail r)
          = Ok (cherry, rng_tail r)).
  apply simulate_loop_nil.
Qed.

(** C8.  For 2 tips and no reticulation, with a [beta] for which the one
    weight is accepted by [random.choices] (at [beta = 0] it is [exp(-1)]),
    the run does not depend on the random draws: the tree has the nodes 3
    (the root), 1 and 2 (the leaves) and the edges (3, 1) and (3, 2),
    [GenerateNetwork] returns it unchanged, and the edge list printed is
    the two lines ["3 1"] and ["3 2"]. *)
Theorem two_tips_no_reticulation loggamma np_exp (fuel : nat) (beta : float)
        (r : rng) :
  good_weights loggamma np_exp 2 beta -> (1 <= fuel)%nat ->
  outcome (simulateBetaSplitting loggamma np_exp fuel 2 beta r) = Ok cherry
  /\ nodes cherry = [3; 1; 2]
  /\ leaves cherry = [1; 2]
  /\ pred_list cherry 3 = []
  /\ edges cherry = [(3, 1); (3, 2)]
  /\ (forall r1, outcome (GenerateNetwork fuel cherry 0 None r1) = Ok cherry)
  /\ map edge_line (edges cherry) = ["3 1"; "3 2"]%string
  /\ outcome (main loggamma np_exp fuel 2 beta 0 None "el" r)
     = Ok ("3 1" ++ CRLF ++ "3 2")%string.
Proof.
  intros Hw Hf.
  pose proof (simulate_two_tips loggamma np_exp fuel beta r Hw Hf) as Hsim.
  split; [rewrite Hsim; reflexivity |].
  do 4 (split; [reflexivity |]).
  split; [intros r1; reflexivity |].
  split; [reflexivity |].
  unfold main.
  rewrite (bind_ok _ _ r (rng_tail r) cherry Hsim).
  reflexivity.
Qed.

Lemma two_tips_no_reticulation_witness :
  outcome (main lib_loggamma lib_exp 1 2 0 0 None "el" zeros)
  = Ok ("3 1" ++ CRLF ++ "3 2")%string.
Proof.
  destruct (two_tips_no_reticulation lib_loggamma lib_exp 1 0 zeros)
    as (_ & _ & _ & _ & _ & _ & _ & H).
  - intros m Hm. assert (m = 2) by lia. subst m.
    exists [0x1.78b56362cef38p-2%float]. split; vm_compute; reflexivity.
  - lia.
  - exact H.
Defined.

(** ** The uniform selector and the bounded local search

    Two evaluations on the two-tip tree.  [insertion_counts] above gives the
    general picture: three more edges for two different edges, four more
    when the same edge is passed twice. *)

(** C3.  [AddEdgeUniform] does not resample: on the two-tip tree, when both
    index draws are 0, it hands the edge (3, 1) to [AddEdgeBetween] twice. *)
Theorem AddEdgeUniform_repeats_edge :
  outcome (np_random_choice_2 (length (edges cherry)) zeros) = Ok (0%nat, 0%nat)
  /\ nth 0 (edges cherry) (0, 0) = (3, 1)
  /\ AddEdgeUniform cherry None zeros
     = AddEdgeBetween cherry (3, 1) (3, 1) None (rng_tail (rng_tail zeros)).
Proof. repeat split. Qed.

(** C2.  On the two-tip tree (3 nodes, 2 edges) one insertion with the
    uniform selector, both index draws being 0, leaves 5 nodes and 6
    edges: the edge count grows by 4. *)
Theorem GenerateNetwork_uniform_counts :
  number_of_nodes cherry = 3%nat /\ number_of_edges cherry = 2%nat
  /\ match outcome (GenerateNetwork 0 cherry 1 None zeros) with
     | Ok g' => number_of_nodes g' = 5%nat /\ number_of_edges g' = 6%nat
                /\ edges g' = [(3, 2); (3, 4); (3, 5); (4, 1); (4, 5); (5, 1)]
     | Raise _ => False
     end.
Proof. vm_compute. repeat split. Qed.

(** C7.  [AddEdgeLocal] with [max_tries = 1] on the two-tip tree, all draws
    0: the only attempt ends with [edge2 = edge1 = (3, 1)], the loop is
    left because [try_number] exceeds [max_tries], and [AddEdgeBetween] is
    called all the same: the graph is changed. *)
Theorem AddEdgeLocal_exhausted_mutates :
  outcome (local_search 1 cherry (1 # 2) None (Some 1) 1 None zeros)
  = Ok (Some ((3, 1), (3, 1)))
  /\ match outcome (AddEdgeLocal 1 cherry None (1 # 2) None (Some 1) zeros) with
     | Ok g' => edges g' = [(3, 2); (3, 4); (3, 5); (4, 1); (4, 5); (5, 1)]
                /\ edges g' <> edges cherry
     | Raise _ => False
     end.
Proof. vm_compute. repeat split. discriminate. Qed.

(** ** Node identifiers *)

(** C9.  [AddEdgeBetween] takes [max(network.nodes()) + 1] and [+ 2] for
    the two new nodes.  On a graph with positive node identifiers both are
    new, so the identifiers stay pairwise distinct and positive and the
    nodes that were there stay.  In a whole run the tree has the nodes
    [1 .. 2 n - 1], and every node [GenerateNetwork] adds has an
    identifier above them that was not used before. *)
Theorem node_identifiers_fresh :
  (forall g e1 e2 r,
      wf g -> (forall x, In x (nodes g) -> 0 < x) ->
      In e1 (edges g) -> In e2 (edges g) ->
      exists g' r' max_node,
        py_max (nodes g) = Ok max_node /\
        In max_node (nodes g) /\
        (forall x, In x (nodes g) -> x <= max_node) /\
        AddEdgeBetween g e1 e2 None r = Ok (g', r') /\
        nodes g' = nodes g ++ [max_node + 1; max_node + 2] /\
        ~ In (max_node + 1) (nodes g) /\ ~ In (max_node + 2) (nodes g) /\
        NoDup (nodes g') /\
        (forall x, In x (nodes g') -> 0 < x))
  /\ (forall loggamma np_exp fuel n beta r0 k method tree r1 g' r2,
         2 <= n -> (Z.to_nat (n - 1) <= fuel)%nat ->
         simulateBetaSplitting loggamma np_exp fuel n beta r0 = Ok (tree, r1) ->
         GenerateNetwork fuel tree k method r1 = Ok (g', r2) ->
         (forall x, In x (nodes tree) <-> 1 <= x <= 2 * n - 1) /\
         NoDup (nodes g') /\
         exists l, nodes g' = nodes tree ++ l /\
                   length l = (2 * Z.to_nat k)%nat /\
                   forall x, In x l -> 2 * n - 1 < x).
Proof.
  split.
  - intros g e1 e2 r W P H1 H2.
    apply (edges_keys g _ W) in H1. apply (edges_keys g _ W) in H2.
    destruct (AddEdgeBetween_run g e1 e2 r W H1 H2)
      as (m & b & dA & dB & Hm & Hb & HdA & HdB & Hrun).
    destruct (py_max_spec (nodes g)) as [m' [Hm' [Hin Hle]]].
    { intros Hnil. destruct e1 as [a c].
      destruct (wf_ends g W a c H1) as [K _]. rewrite Hnil in K. contradiction. }
    assert (m' = m) by congruence. subst m'.
    assert (HX : ~ In (m + 1) (nodes g)) by (intros K; apply Hle in K; lia).
    assert (HY : ~ In (m + 2) (nodes g)) by (intros K; apply Hle in K; lia).
    eexists _, _, m. repeat (split; [eassumption |]).
    rewrite inserted_nodes.
    split; [reflexivity |]. split; [assumption |]. split; [assumption |].
    split.
    + apply NoDup_app.
      * apply (wf_nodes g W).
      * repeat constructor; simpl; [lia | tauto].
      * intros a Ha [<- | [<- | []]]; contradiction.
    + intros x Hx. apply in_app_or in Hx. destruct Hx as [Hx | Hx].
      * apply P. assumption.
      * specialize (P m Hin). simpl in Hx. lia.
  - intros loggamma np_exp fuel n beta r0 k method tree r1 g' r2 Hn Hf Hsim Hgen.
    destruct (simulateBetaSplitting_sound loggamma np_exp fuel n beta r0 r1
                tree Hn Hsim) as (I & _ & _).
    pose proof (inv_wf _ _ _ _ _ _ _ I) as W.
    pose proof (inv_dag _ _ _ _ _ _ _ I) as A.
    assert (Hnodes : forall x, In x (nodes tree) <-> 1 <= x <= 2 * n - 1).
    { intros x. rewrite (inv_nodes _ _ _ _ _ _ _ I). lia. }
    unfold GenerateNetwork in Hgen.
    apply GenerateNetwork_loop_grows in Hgen; [| assumption | assumption].
    apply grows_star_inv in Hgen; [| assumption | assumption].
    destruct Hgen as (W' & _ & l & Hl & Hlen & Hnew).
    split; [assumption |]. split; [apply (wf_nodes g' W') |].
    exists l. split; [assumption |]. split; [assumption |].
    intros x Hx. apply (Hnew x (2 * n - 1) Hx). apply Hnodes. lia.
Qed.

Lemma node_identifiers_fresh_witness :
  exists g' r',
    AddEdgeBetween cherry (3, 1) (3, 2) None zeros = Ok (g', r')
    /\ nodes g' = [3; 1; 2; 4; 5].
Proof.
  destruct (proj1 node_identifiers_fresh cherry (3, 1) (3, 2) zeros cherry_wf)
    as (g' & r' & m & Hm & _ & _ & Hrun & Hn & _).
  - simpl. intros x H. lia.
  - simpl; auto.
  - simpl; auto.
  - exists g', r'. split; [exact Hrun |].
    vm_compute in Hm. injection Hm as <-. exact Hn.
Defined.

(** * Further properties of the code *)

(** ** Error and edge behaviour *)

(** X1.  [AddEdgeBetween] never splices an edge that is not in the graph:
    when one of the two edges is missing the call raises ([ValueError] on
    a graph without nodes, [NodeNotFound] from [has_path], or [KeyError]
    from the look-up) and returns no graph, whatever [new_nodes] is. *)
Theorem AddEdgeBetween_missing_edge (g : DiGraph) (e1 e2 : edge)
        (new_nodes : option (Z * Z)) (r : rng) :
  has_edge g e1 = false \/ has_edge g e2 = false ->
  exists e, AddEdgeBetween g e1 e2 new_nodes r = Raise e
            /\ (e = ValueError \/ e = NodeNotFound \/ e = KeyError).
Proof.
  intros Hmiss.
  assert (Hno : forall d1 d2, get_edge_data g e1 = Ok d1 ->
                              get_edge_data g e2 = Ok d2 -> False).
  { intros d1 d2 K1 K2. apply get_edge_data_Ok in K1, K2.
    apply (mem_edge_In e1) in K1. apply (mem_edge_In e2) in K2.
    unfold has_edge in Hmiss. destruct Hmiss; congruence. }
  assert (Hrest : forall nn,
             exists e,
               bind (lift (has_path g (snd e2) (fst e1)))
                    (fun above =>
                       let '(edge1, edge2) := swap_if above (e1, e2) in
                       d1 <- lift (get_edge_data g edge1) ;;
                       d2 <- lift (get_edge_data g edge2) ;;
                       let network := remove_edges_from g [edge1; edge2] in
                       let network :=
                         add_edges_from network
                           [(fst edge1, fst nn); (fst nn, snd edge1);
                            (fst edge2, snd nn); (snd nn, snd edge2);
                            (fst nn, snd nn)] in
                       network <- split_length network (fst edge1) (fst nn)
                                    (snd edge1) (attr_length d1) ;;
                       network <- copy_prob network (fst nn) (snd edge1)
                                    (attr_prob d1) ;;
                       network <- split_length network (fst edge2) (snd nn)
                                    (snd edge2) (attr_length d2) ;;
                       copy_prob network (snd nn) (snd edge2) (attr_prob d2)) r
               = Raise e
               /\ (e = ValueError \/ e = NodeNotFound \/ e = KeyError)).
  { intros nn. unfold bind at 1.
    destruct (has_path g (snd e2) (fst e1)) as [above | e] eqn:Hp.
    - cbn [lift ret]. destruct above; cbn [swap_if fst snd].
      + unfold bind at 1.
        destruct (get_edge_data g e2) as [d2 | x] eqn:K2.
        * cbn [lift ret]. unfold bind at 1.
          destruct (get_edge_data g e1) as [d1 | x] eqn:K1.
          -- exfalso. apply (Hno d1 d2); reflexivity.
          -- unfold get_edge_data in K1.
             destruct (find _ _) as [[k d] |]; inversion K1.
             exists KeyError. cbn [lift raise]. auto.
        * unfold get_edge_data in K2.
          destruct (find _ _) as [[k d] |]; inversion K2.
          exists KeyError. cbn [lift raise]. auto.
      + unfold bind at 1.
        destruct (get_edge_data g e1) as [d1 | x] eqn:K1.
        * cbn [lift ret]. unfold bind at 1.
          destruct (get_edge_data g e2) as [d2 | x] eqn:K2.
          -- exfalso. apply (Hno d1 d2); reflexivity.
          -- unfold get_edge_data in K2.
             destruct (find _ _) as [[k d] |]; inversion K2.
             exists KeyError. cbn [lift raise]. auto.
        * unfold get_edge_data in K1.
          destruct (find _ _) as [[k d] |]; inversion K1.
          exists KeyError. cbn [lift raise]. auto.
    - unfold has_path in Hp.
      destruct (has_node g (snd e2) && has_node g (fst e1)); inversion Hp.
      exists NodeNotFound. cbn [lift raise]. auto. }
  unfold AddEdgeBetween. destruct new_nodes as [nn |].
  - unfold bind at 1. cbn [ret]. apply Hrest.
  - unfold bind at 1. unfold bind at 1.
    destruct (py_max (nodes g)) as [m | e] eqn:Hm.
    + cbn [lift ret]. apply Hrest.
    + unfold py_max in Hm. destruct (nodes g); inversion Hm.
      exists ValueError. cbn [lift raise]. auto.
Qed.

Lemma AddEdgeBetween_missing_edge_witness :
  exists e, AddEdgeBetween cherry (1, 2) (3, 2) None zeros = Raise e.
Proof.
  destruct (AddEdgeBetween_missing_edge cherry (1, 2) (3, 2) None zeros)
    as (e & H & _).
  - left. reflexivity.
  - exists e. exact H.
Defined.

(** X2.  [AddEdgeLocal] with [max_tries <= 0] never enters its loop, so
    [edge1] is unbound when [AddEdgeBetween] is called: the call raises
    [UnboundLocalError] on every graph and for every random stream. *)
Theorem AddEdgeLocal_no_tries (fuel : nat) (g : DiGraph)
        (new_nodes : option (Z * Z)) (stop_prob : Q) (max_steps : option Z)
        (k : Z) (r : rng) :
  k <= 0 ->
  AddEdgeLocal fuel g new_nodes stop_prob max_steps (Some k) r
  = Raise UnboundLocalError.
Proof.
  intros Hk. unfold AddEdgeLocal.
  assert (Hs : local_search fuel g stop_prob max_steps (Some k) 1 None r
               = Ok (None, r)).
  { destruct fuel; simpl;
      replace (1 <=? k) with false by (symmetry; apply Z.leb_gt; lia);
      reflexivity. }
  rewrite (bind_ok _ _ r r None Hs). reflexivity.
Qed.

Lemma AddEdgeLocal_no_tries_witness :
  AddEdgeLocal 5 cherry None (1 # 2) None (Some 0) zeros
  = Raise UnboundLocalError.
Proof. apply AddEdgeLocal_no_tries. lia. Defined.

Lemma simulate_single_node loggamma np_exp (fuel : nat) (n : Z)
        (beta : float) (r : rng) :
  n <= 1 -> (1 <= fuel)%nat ->
  simulateBetaSplitting loggamma np_exp fuel n beta r
  = Ok (mkDiGraph [(n + 1, Some n)] [], r).
Proof.
  intros Hn Hf. destruct fuel as [|fuel]; [lia |].
  unfold simulateBetaSplitting.
  assert (Hset : set_label (add_node empty_graph (n + 1)) (n + 1) n
                 = Ok (mkDiGraph [(n + 1, Some n)] [])).
  { unfold set_label, add_node, has_node, empty_graph, nodes, mem_Z.
    cbn [g_node g_edge map existsb app fst snd orb].
    rewrite Z.eqb_refl. reflexivity. }
  rewrite (bind_ok _ _ r r _ (lift_ok _ _ r Hset)).
  cbn [simulate_loop].
  assert (Hl : get_label (mkDiGraph [(n + 1, Some n)] []) (n + 1) = Ok (Some n)).
  { unfold get_label. cbn [g_node find fst]. rewrite Z.eqb_refl. reflexivity. }
  rewrite (bind_ok _ _ r r _ (lift_ok _ _ r Hl)).
  replace (n >? 1) with false
    by (symmetry; rewrite Z.gtb_ltb; apply Z.ltb_ge; lia).
  apply simulate_loop_nil.
Qed.

(** X3.  For [n <= 1] the tree builder never splits: it returns the single
    node [n + 1] with label [n], no edge, and makes no random draw. *)
Theorem simulateBetaSplitting_no_split loggamma np_exp (fuel : nat) (n : Z)
        (beta : float) (r : rng) :
  n <= 1 -> (1 <= fuel)%nat ->
  simulateBetaSplitting loggamma np_exp fuel n beta r
  = Ok (mkDiGraph [(n + 1, Some n)] [], r).
Proof. exact (simulate_single_node loggamma np_exp fuel n beta r). Qed.

Lemma simulateBetaSplitting_no_split_witness :
  simulateBetaSplitting (fun x => x) (fun x => x) 1 1 0%float zeros
  = Ok (mkDiGraph [(2, Some 1)] [], zeros).
Proof.
  apply (simulateBetaSplitting_no_split (fun x => x) (fun x => x) 1 1 0%float zeros);
    lia.
Defined.

Lemma GenerateNetwork_loop_first (fuel : nat) (g : DiGraph) (k : nat)
      (method : option Q) (r : rng) (e : exn) :
  match method with
  | None => AddEdgeUniform g None r
  | Some stop_prob => AddEdgeLocal fuel g None stop_prob None None r
  end = Raise e ->
  GenerateNetwork_loop fuel g (S k) method r = Raise e.
Proof.
  intros H. cbn [GenerateNetwork_loop]. unfold bind.
  destruct method; rewrite H; reflexivity.
Qed.

(** X4.  On a graph without edges every insertion fails before anything is
    changed: with the uniform selector [np.random.choice] raises
    [ValueError], with the local selector [random.choice] raises
    [IndexError].  So the whole script fails for [tree_size <= 1] as soon
    as one reticulation is asked for. *)
Theorem GenerateNetwork_no_edges (fuel : nat) (g : DiGraph) (r : Z)
        (r0 : rng) :
  edges g = [] -> 1 <= r ->
  GenerateNetwork fuel g r None r0 = Raise ValueError
  /\ (forall stop_prob, (1 <= fuel)%nat ->
        GenerateNetwork fuel g r (Some stop_prob) r0 = Raise IndexError)
  /\ (forall loggamma np_exp n beta out_type,
        n <= 1 -> (1 <= fuel)%nat ->
        main loggamma np_exp fuel n beta r None out_type r0 = Raise ValueError).
Proof.
  intros He Hr.
  assert (Hk : exists k, Z.to_nat r = S k).
  { exists (Z.to_nat (r - 1)). lia. }
  destruct Hk as [k Hk].
  assert (Huni : forall h r1, edges h = [] ->
                   GenerateNetwork fuel h r None r1 = Raise ValueError).
  { intros h r1 Hh. unfold GenerateNetwork. rewrite Hk.
    apply GenerateNetwork_loop_first. apply AddEdgeUniform_empty. exact Hh. }
  split; [apply Huni; exact He |]. split.
  - intros stop_prob Hf. unfold GenerateNetwork. rewrite Hk.
    apply GenerateNetwork_loop_first.
    destruct fuel as [|fuel]; [lia |].
    unfold AddEdgeLocal. cbn [local_search within].
    unfold local_attempt. rewrite He. reflexivity.
  - intros loggamma np_exp n beta out_type Hn Hf. unfold main.
    rewrite (bind_ok _ _ r0 r0 _
               (simulate_single_node loggamma np_exp fuel n beta r0 Hn Hf)).
    unfold bind. rewrite Huni; reflexivity.
Qed.

Lemma GenerateNetwork_no_edges_witness :
  main (fun x => x) (fun x => x) 1 1 0%float 10 None "el" zeros = Raise ValueError.
Proof.
  destruct (GenerateNetwork_no_edges 1 empty_graph 10 zeros) as (_ & _ & H).
  - reflexivity.
  - lia.
  - apply H; lia.
Defined.

(** ** Degrees, leaves and reticulations *)

Lemma insertion_facts (g g' : DiGraph) (e1 e2 : edge) (r r' : rng) :
  wf g -> In e1 (edges g) -> In e2 (edges g) ->
  AddEdgeBetween g e1 e2 None r = Ok (g', r') ->
  exists m eA eB,
    (forall x, In x (nodes g) -> x <= m) /\
    In eA (edge_keys g) /\ In eB (edge_keys g) /\
    (eA = eB <-> e1 = e2) /\
    wf g' /\
    nodes g' = nodes g ++ [m + 1; m + 2] /\
    edge_keys g' = edge_keys (spliced g eA eB (m + 1) (m + 2)).
Proof.
  intros W H1 H2 Hrun.
  apply (edges_keys g _ W) in H1. apply (edges_keys g _ W) in H2.
  destruct (AddEdgeBetween_run g e1 e2 r W H1 H2)
    as (m & b & dA & dB & Hm & Hb & _ & _ & Hrun').
  rewrite Hrun' in Hrun. injection Hrun as <- _.
  destruct (py_max_spec (nodes g)) as [m' [Hm' [_ Hle]]].
  { intros Hnil. destruct e1 as [a c].
    destruct (wf_ends g W a c H1) as [K _]. rewrite Hnil in K. contradiction. }
  assert (m' = m) by congruence. subst m'.
  exists m, (fst (swap_if b (e1, e2))), (snd (swap_if b (e1, e2))).
  set (eA := fst (swap_if b (e1, e2))).
  set (eB := snd (swap_if b (e1, e2))).
  assert (HA : In eA (edge_keys g)) by (unfold eA; destruct b; assumption).
  assert (HB : In eB (edge_keys g)) by (unfold eB; destruct b; assumption).
  assert (HX : ~ In (m + 1) (nodes g)) by (intros K; apply Hle in K; lia).
  assert (HY : ~ In (m + 2) (nodes g)) by (intros K; apply Hle in K; lia).
  split; [assumption |]. split; [assumption |]. split; [assumption |].
  split.
  { unfold eA, eB. destruct b; simpl; split; congruence. }
  split.
  { apply (wf_ext (spliced g eA eB (m + 1) (m + 2))).
    - rewrite inserted_nodes. symmetry. apply spliced_nodes.
    - apply inserted_keys.
    - apply spliced_wf; assumption || lia. }
  split; [apply inserted_nodes | apply inserted_keys].
Qed.

Lemma in_degree_keys (g : DiGraph) (x : Z) :
  in_degree g x = length (filter (fun e => snd e =? x) (edge_keys g)).
Proof. unfold in_degree, pred_list. apply length_map. Qed.

Lemma out_degree_keys (g : DiGraph) (x : Z) :
  out_degree g x = length (filter (fun e => fst e =? x) (edge_keys g)).
Proof. unfold out_degree, succ_list. apply length_map. Qed.

Lemma count_filter_out (P : edge -> bool) (l : list edge) (a : edge) :
  NoDup l -> In a l ->
  (length (filter P (filter (fun x => negb (edge_eqb x a)) l))
   + (if P a then 1 else 0))%nat
  = length (filter P l).
Proof.
  induction l as [|x l IH]; intros ND H; [contradiction |].
  inversion ND as [| ? ? Hx ND']; subst. cbn [filter].
  destruct (edge_eqb x a) eqn:Ex.
  - apply edge_eqb_eq in Ex. subst x. cbn [negb].
    rewrite (filter_out_absent l a Hx).
    destruct (P a); cbn [length]; lia.
  - cbn [negb]. destruct H as [H | H].
    { apply edge_eqb_neq in Ex. congruence. }
    specialize (IH ND' H). cbn [filter].
    destruct (P x); cbn [length]; lia.
Qed.

Lemma degree_fresh (g : DiGraph) (x : Z) :
  wf g -> ~ In x (nodes g) -> in_degree g x = 0%nat /\ out_degree g x = 0%nat.
Proof.
  intros W H. unfold in_degree, out_degree.
  rewrite (pred_list_fresh g x W H), (succ_list_fresh g x W H). auto.
Qed.

(** Degrees in the spliced graph, for two different edges. *)
Lemma spliced_degrees (g : DiGraph) (eA eB : edge) (X Y x : Z) :
  wf g -> In eA (edge_keys g) -> In eB (edge_keys g) -> eA <> eB ->
  in_degree (spliced g eA eB X Y) x
  = (in_degree g x + (if (X =? x)%Z then 1 else 0)
     + (if (Y =? x)%Z then 2 else 0))%nat
  /\ out_degree (spliced g eA eB X Y) x
     = (out_degree g x + (if (X =? x)%Z then 2 else 0)
        + (if (Y =? x)%Z then 1 else 0))%nat.
Proof.
  intros W HA HB Hne.
  assert (HB' : In eB (filter (fun e => negb (edge_eqb e eA)) (edge_keys g))).
  { apply filter_In. split; [assumption |].
    apply negb_true_iff, edge_eqb_neq. congruence. }
  assert (ND' : NoDup (filter (fun e => negb (edge_eqb e eA)) (edge_keys g)))
    by (apply NoDup_filter, (wf_keys g W)).
  rewrite !in_degree_keys, !out_degree_keys.
  assert (Hk : edge_keys (spliced g eA eB X Y)
               = filter (fun e => negb (edge_eqb e eB))
                   (filter (fun e => negb (edge_eqb e eA)) (edge_keys g))
                 ++ [(fst eA, X); (X, snd eA); (fst eB, Y); (Y, snd eB); (X, Y)]).
  { unfold spliced, edge_keys at 1. cbn [g_edge]. rewrite map_app.
    f_equal.
    change (map fst (g_edge (remove_edge (remove_edge g eA) eB)))
      with (edge_keys (remove_edge (remove_edge g eA) eB)).
    rewrite (remove_edge_keys (remove_edge g eA) eB), (remove_edge_keys g eA).
    reflexivity. }
  rewrite Hk, !filter_app, !length_app.
  split.
  - pose proof (count_filter_out (fun e => snd e =? x) _ eA (wf_keys g W) HA) as CA.
    pose proof (count_filter_out (fun e => snd e =? x) _ eB ND' HB') as CB.
    cbn [filter snd fst] in *. unfold edge in *.
    destruct (snd eA =? x), (snd eB =? x), (X =? x), (Y =? x);
      cbn [length] in *; lia.
  - pose proof (count_filter_out (fun e => fst e =? x) _ eA (wf_keys g W) HA) as CA.
    pose proof (count_filter_out (fun e => fst e =? x) _ eB ND' HB') as CB.
    cbn [filter snd fst] in *. unfold edge in *.
    destruct (fst eA =? x), (fst eB =? x), (X =? x), (Y =? x);
      cbn [length] in *; lia.
Qed.

Lemma degree_ext (g g' : DiGraph) (x : Z) :
  edge_keys g' = edge_keys g ->
  in_degree g' x = in_degree g x /\ out_degree g' x = out_degree g x.
Proof. intros H. rewrite !in_degree_keys, !out_degree_keys, H. auto. Qed.

Lemma out_degree_zero (g : DiGraph) (x : Z) :
  (out_degree g x =? 0)%nat = true <-> forall y, ~ E g x y.
Proof.
  unfold out_degree. rewrite Nat.eqb_eq. split.
  - intros H y Hy. apply In_succ_list in Hy.
    destruct (succ_list g x); [contradiction | discriminate].
  - intros H. destruct (succ_list g x) as [|y l] eqn:Es; [reflexivity |].
    exfalso. apply (H y). apply In_succ_list. rewrite Es. simpl; auto.
Qed.

Lemma leaves_ext (g g' : DiGraph) :
  nodes g' = nodes g -> edge_keys g' = edge_keys g -> leaves g' = leaves g.
Proof.
  intros Hn Hk. unfold leaves. rewrite Hn. apply filter_ext. intros x.
  rewrite !out_degree_keys, Hk. reflexivity.
Qed.

(** The leaves stay what they were, also when the same edge is spliced
    with itself. *)
Lemma spliced_leaves (g : DiGraph) (eA eB : edge) (X Y : Z) :
  wf g -> In eA (edge_keys g) -> In eB (edge_keys g) ->
  ~ In X (nodes g) -> ~ In Y (nodes g) ->
  leaves (spliced g eA eB X Y) = leaves g.
Proof.
  intros W HA HB HX HY. unfold leaves.
  rewrite spliced_nodes, filter_app.
  assert (Hnew : filter (fun x => (out_degree (spliced g eA eB X Y) x =? 0)%nat) [X; Y] = []).
  { cbn [filter].
    assert (KX : (out_degree (spliced g eA eB X Y) X =? 0)%nat = false).
    { destruct (out_degree (spliced g eA eB X Y) X =? 0)%nat eqn:K; [| reflexivity].
      exfalso. apply (proj1 (out_degree_zero _ _) K (snd eA)).
      apply spliced_E. right. simpl; auto. }
    assert (KY : (out_degree (spliced g eA eB X Y) Y =? 0)%nat = false).
    { destruct (out_degree (spliced g eA eB X Y) Y =? 0)%nat eqn:K; [| reflexivity].
      exfalso. apply (proj1 (out_degree_zero _ _) K (snd eB)).
      apply spliced_E. right. simpl; auto 6. }
    rewrite KX, KY. reflexivity. }
  rewrite Hnew, app_nil_r. apply filter_ext_in. intros x Hx.
  apply eq_true_iff_eq. rewrite !out_degree_zero. split.
  - intros H y Hy.
    destruct (edge_eq_dec (x, y) eA) as [Ea | Ea].
    + apply (H X). apply spliced_E. right. rewrite <- Ea. simpl; auto.
    + destruct (edge_eq_dec (x, y) eB) as [Eb | Eb].
      * apply (H Y). apply spliced_E. right. rewrite <- Eb. simpl; auto.
      * apply (H y). apply spliced_E. left. auto.
  - intros H y Hy. apply spliced_E in Hy. destruct Hy as [[Hy _] | Hy].
    + apply (H y Hy).
    + simpl in Hy.
      destruct Hy as [K | [K | [K | [K | [K | []]]]]]; injection K as K1 K2.
      * apply (H (snd eA)). rewrite <- K1. apply E_fst_snd. assumption.
      * subst x. contradiction.
      * apply (H (snd eB)). rewrite <- K1. apply E_fst_snd. assumption.
      * subst x. contradiction.
      * subst x. contradiction.
Qed.

Lemma insertion_degrees (g g' : DiGraph) (e1 e2 : edge) (r r' : rng) :
  wf g -> In e1 (edges g) -> In e2 (edges g) -> e1 <> e2 ->
  AddEdgeBetween g e1 e2 None r = Ok (g', r') ->
  exists m,
    nodes g' = nodes g ++ [m + 1; m + 2] /\
    (forall x, In x (nodes g) ->
               in_degree g' x = in_degree g x /\
               out_degree g' x = out_degree g x) /\
    in_degree g' (m + 1) = 1%nat /\ out_degree g' (m + 1) = 2%nat /\
    in_degree g' (m + 2) = 2%nat /\ out_degree g' (m + 2) = 1%nat /\
    leaves g' = leaves g /\
    reticulations g' = reticulations g ++ [m + 2].
Proof.
  intros W H1 H2 Hne Hrun.
  destruct (insertion_facts g g' e1 e2 r r' W H1 H2 Hrun)
    as (m & eA & eB & Hle & HA & HB & Heq & W' & Hn & Hk).
  assert (HAB : eA <> eB) by (intros K; apply Hne, Heq, K).
  assert (HX : ~ In (m + 1) (nodes g)) by (intros K; apply Hle in K; lia).
  assert (HY : ~ In (m + 2) (nodes g)) by (intros K; apply Hle in K; lia).
  assert (Hdeg : forall x,
             in_degree g' x
             = (in_degree g x + (if (m + 1 =? x)%Z then 1 else 0)
                + (if (m + 2 =? x)%Z then 2 else 0))%nat
             /\ out_degree g' x
                = (out_degree g x + (if (m + 1 =? x)%Z then 2 else 0)
                   + (if (m + 2 =? x)%Z then 1 else 0))%nat).
  { intros x. destruct (degree_ext _ g' x (eq_sym (eq_sym Hk))) as [-> ->].
    apply spliced_degrees; assumption. }
  assert (Hold : forall x, In x (nodes g) ->
                           in_degree g' x = in_degree g x /\
                           out_degree g' x = out_degree g x).
  { intros x Hx. destruct (Hdeg x) as [-> ->].
    replace (m + 1 =? x) with false
      by (symmetry; apply Z.eqb_neq; intros <-; contradiction).
    replace (m + 2 =? x) with false
      by (symmetry; apply Z.eqb_neq; intros <-; contradiction).
    lia. }
  destruct (degree_fresh g (m + 1) W HX) as [IX OX].
  destruct (degree_fresh g (m + 2) W HY) as [IY OY].
  assert (DX : in_degree g' (m + 1) = 1%nat /\ out_degree g' (m + 1) = 2%nat).
  { destruct (Hdeg (m + 1)) as [-> ->]. rewrite IX, OX, Z.eqb_refl.
    replace (m + 2 =? m + 1) with false by (symmetry; apply Z.eqb_neq; lia).
    auto. }
  assert (DY : in_degree g' (m + 2) = 2%nat /\ out_degree g' (m + 2) = 1%nat).
  { destruct (Hdeg (m + 2)) as [-> ->]. rewrite IY, OY, Z.eqb_refl.
    replace (m + 1 =? m + 2) with false by (symmetry; apply Z.eqb_neq; lia).
    auto. }
  exists m. split; [assumption |]. split; [assumption |].
  destruct DX as [DX1 DX2]. destruct DY as [DY1 DY2].
  repeat (split; [assumption |]).
  split.
  - rewrite (leaves_ext (spliced g eA eB (m + 1) (m + 2)) g').
    + apply spliced_leaves; assumption.
    + rewrite Hn. symmetry. apply spliced_nodes.
    + assumption.
  - unfold reticulations. rewrite Hn, filter_app. f_equal.
    + apply filter_ext_in. intros x Hx. destruct (Hold x Hx) as [-> _].
      reflexivity.
    + cbn [filter]. rewrite DX1, DY1. reflexivity.
Qed.

(** X5.  One insertion between two different edges leaves the in- and
    out-degree of every node of the graph as it was; the first new node
    gets one incoming and two outgoing edges, the second new node two
    incoming edges and one outgoing edge.  So the leaves are unchanged and
    exactly one reticulation (the second new node) is added. *)
Theorem AddEdgeBetween_degrees (g g' : DiGraph) (e1 e2 : edge) (r r' : rng) :
  wf g -> In e1 (edges g) -> In e2 (edges g) -> e1 <> e2 ->
  AddEdgeBetween g e1 e2 None r = Ok (g', r') ->
  exists m,
    nodes g' = nodes g ++ [m + 1; m + 2] /\
    (forall x, In x (nodes g) ->
               in_degree g' x = in_degree g x /\
               out_degree g' x = out_degree g x) /\
    in_degree g' (m + 1) = 1%nat /\ out_degree g' (m + 1) = 2%nat /\
    in_degree g' (m + 2) = 2%nat /\ out_degree g' (m + 2) = 1%nat /\
    leaves g' = leaves g /\
    reticulations g' = reticulations g ++ [m + 2].
Proof. exact (insertion_degrees g g' e1 e2 r r'). Qed.

Lemma AddEdgeBetween_degrees_witness :
  exists g' r' m,
    AddEdgeBetween cherry (3, 1) (3, 2) None zeros = Ok (g', r')
    /\ reticulations g' = reticulations cherry ++ [m + 2]
    /\ leaves g' = leaves cherry.
Proof.
  destruct (AddEdgeBetween_run cherry (3, 1) (3, 2) zeros cherry_wf)
    as (m0 & b & dA & dB & _ & _ & _ & _ & Hrun); [simpl; auto | simpl; auto |].
  assert (K1 : In (3, 1) (edges cherry)) by (simpl; auto).
  assert (K2 : In (3, 2) (edges cherry)) by (simpl; auto).
  assert (Kne : (3, 1) <> (3, 2)) by discriminate.
  destruct (AddEdgeBetween_degrees cherry _ (3, 1) (3, 2) zeros _ cherry_wf
              K1 K2 Kne Hrun) as (m & Hn & _ & _ & _ & _ & _ & Hl & Hr).
  eexists _, _, m. split; [exact Hrun |]. split; assumption.
Defined.

(** ** Whole runs of [GenerateNetwork] *)

Lemma AddEdgeUniform_inv (g g' : DiGraph) (r r' : rng) :
  AddEdgeUniform g None r = Ok (g', r') ->
  exists e1 e2 r1,
    In e1 (edges g) /\ In e2 (edges g) /\
    AddEdgeBetween g e1 e2 None r1 = Ok (g', r').
Proof.
  intros H.
  assert (Hne : edges g <> []).
  { intros K. rewrite AddEdgeUniform_empty in H by exact K. discriminate. }
  rewrite AddEdgeUniform_run in H by assumption.
  assert (Hlen : (0 < length (edges g))%nat).
  { destruct (edges g); [congruence | simpl; lia]. }
  eexists _, _, _. split; [| split; [| exact H]];
    apply nth_In, draw_index_lt; exact Hlen.
Qed.

Lemma local_search_distinct (fuel : nat) (g : DiGraph) (stop_prob : Q)
      (max_steps : option Z) :
  wf g ->
  forall try_number bound r found r',
    local_search fuel g stop_prob max_steps None try_number bound r
    = Ok (found, r') ->
    exists e1 e2, found = Some (e1, e2) /\ e1 <> e2 /\
                  In e1 (edges g) /\ In e2 (edges g).
Proof.
  intros W. induction fuel as [|fuel IH]; intros t bound r found r' H;
    cbn [local_search within] in H; [discriminate |].
  apply bind_inv in H. destruct H as ([e1 e2] & r1 & Ha & H).
  destruct (edge_eqb e1 e2) eqn:E12; cbn [negb] in H.
  - eapply IH; eassumption.
  - inversion H; subst. exists e1, e2.
    apply local_attempt_edges in Ha; [| assumption].
    apply edge_eqb_neq in E12. tauto.
Qed.

Lemma AddEdgeLocal_inv (fuel : nat) (g g' : DiGraph) (stop_prob : Q)
      (max_steps : option Z) (r r' : rng) :
  wf g ->
  AddEdgeLocal fuel g None stop_prob max_steps None r = Ok (g', r') ->
  exists e1 e2 r1,
    In e1 (edges g) /\ In e2 (edges g) /\ e1 <> e2 /\
    AddEdgeBetween g e1 e2 None r1 = Ok (g', r').
Proof.
  intros W H. unfold AddEdgeLocal in H.
  apply bind_inv in H. destruct H as (found & r1 & Hs & H).
  apply (local_search_distinct fuel g stop_prob max_steps W) in Hs.
  destruct Hs as (e1 & e2 & -> & Hne & K1 & K2).
  exists e1, e2, r1. tauto.
Qed.

Lemma GenerateNetwork_loop_counts (fuel : nat) (g g' : DiGraph) (r : Z)
        (method : option Q) (r0 r1 : rng) :
  wf g ->
  GenerateNetwork fuel g r method r0 = Ok (g', r1) ->
  wf g'
  /\ number_of_nodes g' = (number_of_nodes g + 2 * Z.to_nat r)%nat
  /\ leaves g' = leaves g
  /\ (number_of_edges g + 3 * Z.to_nat r <= number_of_edges g')%nat
  /\ (number_of_edges g' <= number_of_edges g + 4 * Z.to_nat r)%nat
  /\ (method <> None ->
      number_of_edges g' = (number_of_edges g + 3 * Z.to_nat r)%nat).
Proof.
  unfold GenerateNetwork. generalize (Z.to_nat r) as k. clear r.
  intros k. revert g r0. induction k as [|k IH]; intros g r0 W H.
  - cbn [GenerateNetwork_loop] in H. inversion H; subst.
    split; [assumption |]. repeat split; try reflexivity; lia.
  - cbn [GenerateNetwork_loop] in H.
    apply bind_inv in H. destruct H as (g1 & r2 & H1 & H).
    assert (Hstep : exists e1 e2 r3,
               In e1 (edges g) /\ In e2 (edges g) /\
               (method <> None -> e1 <> e2) /\
               AddEdgeBetween g e1 e2 None r3 = Ok (g1, r2)).
    { destruct method as [sp |].
      - apply AddEdgeLocal_inv in H1; [| assumption].
        destruct H1 as (e1 & e2 & r3 & K1 & K2 & Kne & Hrun).
        exists e1, e2, r3. tauto.
      - apply AddEdgeUniform_inv in H1.
        destruct H1 as (e1 & e2 & r3 & K1 & K2 & Hrun).
        exists e1, e2, r3. repeat split; try assumption. congruence. }
    destruct Hstep as (e1 & e2 & r3 & K1 & K2 & Kne & Hrun).
    destruct (insertion_counts g g1 e1 e2 r3 r2 W K1 K2 Hrun) as [Cn Ce].
    destruct (insertion_facts g g1 e1 e2 r3 r2 W K1 K2 Hrun)
      as (m & eA & eB & Hle & HA & HB & Heq & W1 & Hn & Hk).
    assert (HX : ~ In (m + 1) (nodes g)) by (intros K; apply Hle in K; lia).
    assert (HY : ~ In (m + 2) (nodes g)) by (intros K; apply Hle in K; lia).
    assert (Hl : leaves g1 = leaves g).
    { rewrite (leaves_ext (spliced g eA eB (m + 1) (m + 2)) g1).
      - apply spliced_leaves; assumption.
      - rewrite Hn. symmetry. apply spliced_nodes.
      - assumption. }
    destruct (IH g1 r2 W1 H) as (W' & In' & Il & Ie1 & Ie2 & Ie3).
    split; [assumption |]. split; [lia |]. split; [congruence |].
    split; [destruct (edge_eqb e1 e2); lia |].
    split; [destruct (edge_eqb e1 e2); lia |].
    intros Hm. specialize (Ie3 Hm). specialize (Kne Hm).
    apply edge_eqb_neq in Kne. rewrite Kne in Ce. lia.
Qed.

(** X6.  Every network [GenerateNetwork] returns has exactly two more nodes
    per insertion and the same leaves as the graph it started from; it has
    between three and four more edges per insertion, and exactly three
    when the local selector is used (which never passes the same edge
    twice). *)
Theorem GenerateNetwork_counts (fuel : nat) (g g' : DiGraph) (r : Z)
        (method : option Q) (r0 r1 : rng) :
  wf g ->
  GenerateNetwork fuel g r method r0 = Ok (g', r1) ->
  wf g'
  /\ number_of_nodes g' = (number_of_nodes g + 2 * Z.to_nat r)%nat
  /\ leaves g' = leaves g
  /\ (number_of_edges g + 3 * Z.to_nat r <= number_of_edges g')%nat
  /\ (number_of_edges g' <= number_of_edges g + 4 * Z.to_nat r)%nat
  /\ (method <> None ->
      number_of_edges g' = (number_of_edges g + 3 * Z.to_nat r)%nat).
Proof. exact (GenerateNetwork_loop_counts fuel g g' r method r0 r1). Qed.

Lemma GenerateNetwork_counts_witness :
  exists g' r1,
    GenerateNetwork 0 cherry 1 None zeros = Ok (g', r1)
    /\ number_of_nodes g' = 5%nat /\ leaves g' = [1; 2].
Proof.
  destruct (GenerateNetwork 0 cherry 1 None zeros) as [[g' r1] | e] eqn:H.
  - exists g', r1. split; [reflexivity |].
    destruct (GenerateNetwork_counts 0 cherry g' 1 None zeros r1 cherry_wf H)
      as (_ & Hn & Hl & _).
    split; [exact Hn | exact Hl].
  - vm_compute in H. discriminate H.
Defined.

Lemma NoDup_app_disjoint {A} (l1 l2 : list A) (x : A) :
  NoDup (l1 ++ l2) -> In x l1 -> In x l2 -> False.
Proof.
  induction l1 as [|a l1 IH]; intros ND H1 H2; [contradiction |].
  simpl in ND. inversion ND as [| ? ? Ha ND']; subst.
  destruct H1 as [-> | H1]; [| auto].
  apply Ha. apply in_or_app. right. assumption.
Qed.

Lemma local_loop_structure (fuel : nat) (stop_prob : Q) (k : nat) :
  forall g r0 g' r1,
    wf g ->
    GenerateNetwork_loop fuel g k (Some stop_prob) r0 = Ok (g', r1) ->
    wf g'
    /\ (forall x, In x (nodes g) ->
                  in_degree g' x = in_degree g x /\
                  out_degree g' x = out_degree g x)
    /\ exists l,
         nodes g' = nodes g ++ l
         /\ (forall x, In x l ->
                       (in_degree g' x = 1 /\ out_degree g' x = 2)%nat
                       \/ (in_degree g' x = 2 /\ out_degree g' x = 1)%nat)
         /\ length (filter (fun x => (in_degree g' x =? 2)%nat) l) = k.
Proof.
  induction k as [|k IH]; intros g r0 g' r1 W H; cbn [GenerateNetwork_loop] in H.
  - inversion H; subst. split; [assumption |]. split; [auto |].
    exists []. rewrite app_nil_r. split; [reflexivity |].
    split; [intros x [] | reflexivity].
  - apply bind_inv in H. destruct H as (g1 & r2 & H1 & H).
    apply AddEdgeLocal_inv in H1; [| assumption].
    destruct H1 as (e1 & e2 & r3 & K1 & K2 & Kne & Hrun).
    destruct (insertion_degrees g g1 e1 e2 r3 r2 W K1 K2 Kne Hrun)
      as (m & Hn & Hold & DX1 & DX2 & DY1 & DY2 & _ & _).
    destruct (insertion_facts g g1 e1 e2 r3 r2 W K1 K2 Hrun)
      as (_ & _ & _ & _ & _ & _ & _ & W1 & _ & _).
    destruct (IH g1 r2 g' r1 W1 H) as (W' & Hold1 & l & Hl & Hkind & Hcount).
    assert (In1 : forall x, In x (nodes g) -> In x (nodes g1))
      by (intros x Hx; rewrite Hn; apply in_or_app; left; assumption).
    assert (InX : In (m + 1) (nodes g1))
      by (rewrite Hn; apply in_or_app; right; simpl; auto).
    assert (InY : In (m + 2) (nodes g1))
      by (rewrite Hn; apply in_or_app; right; simpl; auto).
    split; [assumption |]. split.
    + intros x Hx. destruct (Hold1 x (In1 x Hx)) as [-> ->]. auto.
    + exists ([m + 1; m + 2] ++ l). rewrite Hl, Hn, <- app_assoc.
      split; [reflexivity |]. split.
      * intros x Hx. apply in_app_or in Hx. destruct Hx as [Hx | Hx]; [| auto].
        destruct Hx as [<- | [<- | []]].
        -- left. destruct (Hold1 _ InX) as [-> ->]. auto.
        -- right. destruct (Hold1 _ InY) as [-> ->]. auto.
      * rewrite filter_app, length_app, Hcount. cbn [filter].
        destruct (Hold1 _ InX) as [-> _]. destruct (Hold1 _ InY) as [-> _].
        rewrite DX1, DY1. reflexivity.
Qed.

(** The degrees in the tree [simulateBetaSplitting] returns. *)
Lemma tree_degrees (n : Z) (tree : DiGraph) :
  2 <= n -> Inv n tree (2 * n - 1) n [] 0 [] ->
  (forall x, 1 <= x <= n ->
             in_degree tree x = 1%nat /\ out_degree tree x = 0%nat)
  /\ (forall x, n + 2 <= x <= 2 * n - 1 ->
                in_degree tree x = 1%nat /\ out_degree tree x = 2%nat)
  /\ (in_degree tree (n + 1) = 0%nat /\ out_degree tree (n + 1) = 2%nat).
Proof.
  intros Hn I. destruct I as [W A Nd Hll Hli ND Q P T C D Cu L Pr Ro Rl].
  assert (Hin : forall x, In x (nodes tree) -> x <> n + 1 ->
                          in_degree tree x = 1%nat).
  { intros x Hx Hne. unfold in_degree. destruct (Pr x Hx Hne) as [p ->].
    reflexivity. }
  assert (Hout : forall x, n + 1 <= x <= 2 * n - 1 -> out_degree tree x = 2%nat).
  { intros x Hx. unfold out_degree.
    destruct (D x Hx (fun K => K) ltac:(lia)) as (c1 & c2 & _ & _ & -> & _).
    reflexivity. }
  split; [| split].
  - intros x Hx. split.
    + apply Hin; [apply Nd; auto | lia].
    + unfold out_degree. destruct (L x Hx) as [_ ->]. reflexivity.
  - intros x Hx. split.
    + apply Hin; [apply Nd; right; lia | lia].
    + apply Hout. lia.
  - split.
    + unfold in_degree. rewrite Ro. reflexivity.
    + apply Hout. lia.
Qed.

(** X7.  A whole run with the local selector gives a binary phylogenetic
    network: every node is the root (0 in, 2 out), a tree node (1, 2), a
    leaf (1, 0) or a reticulation (2, 1); the root [n + 1] is the only node
    without an incoming edge; the leaves are those of the tree, [n] of
    them; there are exactly [r] reticulations; and there is no cycle. *)
Theorem local_run_binary_network loggamma np_exp (fuel : nat) (n : Z)
        (beta : float) (r0 : rng) (k : Z) (stop_prob : Q)
        (tree : DiGraph) (r1 : rng) (g' : DiGraph) (r2 : rng) :
  2 <= n -> (Z.to_nat (n - 1) <= fuel)%nat ->
  simulateBetaSplitting loggamma np_exp fuel n beta r0 = Ok (tree, r1) ->
  GenerateNetwork fuel tree k (Some stop_prob) r1 = Ok (g', r2) ->
  (forall x, In x (nodes g') -> binary_node g' x)
  /\ (forall x, In x (nodes g') -> (in_degree g' x = 0%nat <-> x = n + 1))
  /\ leaves g' = leaves tree
  /\ Z.of_nat (length (leaves g')) = n
  /\ length (reticulations g') = Z.to_nat k
  /\ acyclic g'.
Proof.
  intros Hn Hf Hsim Hgen.
  destruct (simulateBetaSplitting_sound loggamma np_exp fuel n beta r0 r1
              tree Hn Hsim) as (I & _ & _).
  pose proof (inv_wf _ _ _ _ _ _ _ I) as W.
  pose proof (inv_dag _ _ _ _ _ _ _ I) as A.
  assert (Hnodes : forall x, In x (nodes tree) <-> 1 <= x <= 2 * n - 1).
  { intros x. rewrite (inv_nodes _ _ _ _ _ _ _ I). lia. }
  destruct (tree_degrees n tree Hn I) as (Dl & Di & Dr).
  destruct (GenerateNetwork_loop_counts fuel tree g' k (Some stop_prob) r1 r2 W Hgen)
    as (_ & _ & Hleaves & _).
  pose proof Hgen as Hgen'. unfold GenerateNetwork in Hgen'.
  destruct (local_loop_structure fuel stop_prob _ _ _ _ _ W Hgen')
    as (W' & Hold & l & Hl & Hkind & Hcount).
  assert (Hfresh : forall x, In x l -> ~ In x (nodes tree)).
  { intros x Hx Hin. pose proof (wf_nodes g' W') as ND. rewrite Hl in ND.
    apply (NoDup_app_disjoint (nodes tree) l x ND Hin Hx). }
  assert (Htree : forall x, In x (nodes tree) ->
             (x = n + 1 /\ in_degree g' x = 0%nat /\ out_degree g' x = 2%nat)
             \/ (x <> n + 1 /\ in_degree g' x = 1%nat /\ out_degree g' x = 2%nat)
             \/ (x <> n + 1 /\ in_degree g' x = 1%nat /\ out_degree g' x = 0%nat)).
  { intros x Hx. destruct (Hold x Hx) as [-> ->]. apply Hnodes in Hx.
    destruct (Z.eq_dec x (n + 1)) as [-> | Hne]; [left; tauto |].
    right. assert (Hc : 1 <= x <= n \/ n + 2 <= x <= 2 * n - 1) by lia.
    destruct Hc as [Hc | Hc].
    - right. destruct (Dl x Hc). tauto.
    - left. destruct (Di x Hc). tauto. }
  split; [| split; [| split; [| split; [| split]]]].
  - intros x Hx. rewrite Hl in Hx. apply in_app_or in Hx. unfold binary_node.
    destruct Hx as [Hx | Hx].
    + destruct (Htree x Hx) as [(_ & -> & ->) | [(_ & -> & ->) | (_ & -> & ->)]];
        simpl; auto.
    + destruct (Hkind x Hx) as [[-> ->] | [-> ->]]; simpl; auto.
  - intros x Hx. rewrite Hl in Hx. apply in_app_or in Hx.
    destruct Hx as [Hx | Hx].
    + destruct (Htree x Hx) as [(K1 & K2 & _) | [(K1 & K2 & _) | (K1 & K2 & _)]];
        rewrite K2; split; congruence.
    + assert (x <> n + 1).
      { intros ->. apply (Hfresh _ Hx). apply Hnodes. lia. }
      destruct (Hkind x Hx) as [[K _] | [K _]]; rewrite K; split; congruence.
  - exact Hleaves.
  - rewrite Hleaves.
    rewrite (length_interval (leaves tree) 1 (n + 1)).
    + lia.
    + apply NoDup_filter. apply (wf_nodes tree W).
    + intros x. unfold leaves. rewrite filter_In. split.
      * intros [Hx Ho]. apply Nat.eqb_eq in Ho. apply Hnodes in Hx.
        assert (Hc : 1 <= x <= n \/ n + 1 <= x <= 2 * n - 1) by lia.
        destruct Hc as [Hc | Hc]; [lia |].
        exfalso. assert (Hc' : x = n + 1 \/ n + 2 <= x <= 2 * n - 1) by lia.
        destruct Hc' as [-> | Hc'].
        -- destruct Dr as [_ K]. congruence.
        -- destruct (Di x Hc') as [_ K]. congruence.
      * intros Hx. split; [apply Hnodes; lia |].
        destruct (Dl x ltac:(lia)) as [_ ->]. reflexivity.
  - unfold reticulations. rewrite Hl, filter_app, length_app, Hcount.
    assert (Hnone : filter (fun x => (in_degree g' x =? 2)%nat) (nodes tree) = []).
    { assert (K : forall ns, (forall x, In x ns -> In x (nodes tree)) ->
                  filter (fun x => (in_degree g' x =? 2)%nat) ns = []).
      { induction ns as [|a ns IHn]; intros Hs; [reflexivity |].
        cbn [filter].
        destruct (Htree a (Hs a (or_introl eq_refl)))
          as [(_ & -> & _) | [(_ & -> & _) | (_ & -> & _)]];
          cbn [Nat.eqb]; apply IHn; intros x Hx; apply Hs; right; assumption. }
      apply K. auto. }
    rewrite Hnone. reflexivity.
  - apply GenerateNetwork_loop_grows in Hgen'; [| assumption | assumption].
    apply grows_star_inv in Hgen'; tauto.
Qed.

(** The weight of the split of two tips at [beta = 0], with the stand-ins
    for the library functions. *)
Lemma lib_weights_two : good_weights lib_loggamma lib_exp 2 0.
Proof.
  intros m Hm. assert (m = 2) by lia. subst m.
  exists [0x1.78b56362cef38p-2%float]. split; vm_compute; reflexivity.
Defined.

Lemma local_run_binary_network_witness :
  exists g' r2,
    GenerateNetwork 4 cherry 1 (Some (1 # 2)) (rng_tail mixed) = Ok (g', r2)
    /\ length (reticulations g') = 1%nat
    /\ Z.of_nat (length (leaves g')) = 2.
Proof.
  destruct (GenerateNetwork 4 cherry 1 (Some (1 # 2)) (rng_tail mixed))
    as [[g' r2] | e] eqn:H.
  - exists g', r2. split; [reflexivity |].
    assert (Hn : 2 <= 2) by lia.
    assert (Hf : (Z.to_nat (2 - 1) <= 4)%nat) by (simpl; lia).
    destruct (local_run_binary_network lib_loggamma lib_exp 4 2 0 mixed
                1 (1 # 2) cherry (rng_tail mixed) g' r2 Hn Hf
                (simulate_two_tips lib_loggamma lib_exp 4 0 mixed
                   lib_weights_two ltac:(lia)) H)
      as (_ & _ & _ & Hl & Hr & _).
    split; [exact Hr | exact Hl].
  - vm_compute in H. discriminate H.
Defined.

Lemma uniform_loop_total (fuel : nat) (g : DiGraph) (r : Z)
        (r0 : rng) :
  wf g -> edges g <> [] ->
  exists g' r1, GenerateNetwork fuel g r None r0 = Ok (g', r1).
Proof.
  unfold GenerateNetwork. generalize (Z.to_nat r) as k. clear r.
  intros k. revert g r0. induction k as [|k IH]; intros g r0 W He.
  - exists g, r0. reflexivity.
  - cbn [GenerateNetwork_loop].
    assert (Hlen : (0 < length (edges g))%nat).
    { destruct (edges g); [congruence | simpl; lia]. }
    set (e1 := nth (draw_index (r0 0%nat) (length (edges g))) (edges g) (0, 0)).
    set (e2 := nth (draw_index (r0 1%nat) (length (edges g))) (edges g) (0, 0)).
    assert (K1 : In e1 (edges g)) by (apply nth_In, draw_index_lt, Hlen).
    assert (K2 : In e2 (edges g)) by (apply nth_In, draw_index_lt, Hlen).
    destruct (AddEdgeBetween_run g e1 e2 (rng_tail (rng_tail r0)) W)
      as (m & b & dA & dB & _ & _ & _ & _ & Hrun);
      [apply (edges_keys g _ W); assumption
      | apply (edges_keys g _ W); assumption |].
    assert (Hu : AddEdgeUniform g None r0 = Ok (_, _))
      by (rewrite AddEdgeUniform_run by assumption; exact Hrun).
    rewrite (bind_ok _ _ r0 _ _ Hu).
    destruct (insertion_facts g _ e1 e2 _ _ W K1 K2 Hrun)
      as (_ & _ & _ & _ & _ & _ & _ & W1 & _ & _).
    destruct (insertion_counts g _ e1 e2 _ _ W K1 K2 Hrun) as [_ Ce].
    apply IH; [assumption |].
    intros Hnil. unfold number_of_edges in Ce. rewrite Hnil in Ce.
    simpl in Ce. lia.
Qed.

(** X8.  With the uniform selector [GenerateNetwork] cannot fail on a
    well-formed graph that has an edge: for every [r] and every random
    stream it returns a network. *)
Theorem GenerateNetwork_uniform_total (fuel : nat) (g : DiGraph) (r : Z)
        (r0 : rng) :
  wf g -> edges g <> [] ->
  exists g' r1, GenerateNetwork fuel g r None r0 = Ok (g', r1).
Proof. exact (uniform_loop_total fuel g r r0). Qed.

Lemma GenerateNetwork_uniform_total_witness :
  exists g' r1, GenerateNetwork 0 cherry 7 None mixed = Ok (g', r1).
Proof.
  apply GenerateNetwork_uniform_total; [apply cherry_wf | discriminate].
Defined.

(** X9.  The script with the uniform selector (the default), at least two
    tips and a [beta] whose weights [random.choices] accepts (their total
    is finite and greater than zero at every size from 2 to [n]) ends
    normally, for every number of reticulations, both output types and
    every random stream: it returns the text of an acyclic network built
    from the tree. *)
Theorem main_uniform_total loggamma np_exp (fuel : nat) (n : Z)
        (beta : float) (retics : Z) (out_type : string) (r0 : rng) :
  2 <= n -> good_weights loggamma np_exp n beta ->
  (Z.to_nat (n - 1) <= fuel)%nat ->
  exists tree network r1 r2,
    simulateBetaSplitting loggamma np_exp fuel n beta r0 = Ok (tree, r1)
    /\ GenerateNetwork fuel tree retics None r1 = Ok (network, r2)
    /\ wf network /\ acyclic network
    /\ main loggamma np_exp fuel n beta retics None out_type r0
       = Ok (OutputNetwork network out_type, r2).
Proof.
  intros Hn Hw Hf.
  destruct (simulateBetaSplitting_Inv loggamma np_exp fuel n beta r0 Hn Hw Hf)
    as (tree & r1 & Hsim & I).
  pose proof (inv_wf _ _ _ _ _ _ _ I) as W.
  pose proof (inv_dag _ _ _ _ _ _ _ I) as A.
  assert (He : edges tree <> []).
  { destruct (inv_done _ _ _ _ _ _ _ I (n + 1) ltac:(lia) (fun K => K) ltac:(lia))
      as (c1 & c2 & _ & _ & Hs & _).
    assert (K : In (n + 1, c1) (edges tree)).
    { apply (edges_keys tree _ W). apply In_succ_list. rewrite Hs. simpl; auto. }
    intros Hnil. rewrite Hnil in K. contradiction. }
  destruct (uniform_loop_total fuel tree retics r1 W He)
    as (network & r2 & Hgen).
  exists tree, network, r1, r2.
  split; [assumption |]. split; [assumption |].
  pose proof Hgen as Hgen'. unfold GenerateNetwork in Hgen'.
  apply GenerateNetwork_loop_grows in Hgen'; [| assumption | assumption].
  apply grows_star_inv in Hgen'; [| assumption | assumption].
  destruct Hgen' as (W' & A' & _).
  split; [assumption |]. split; [assumption |].
  unfold main.
  rewrite (bind_ok _ _ r0 r1 tree Hsim).
  rewrite (bind_ok _ _ r1 r2 network Hgen). reflexivity.
Qed.

Lemma main_uniform_total_witness :
  exists out r2,
    main lib_loggamma lib_exp 1 2 0 2 None "pl" mixed = Ok (out, r2).
Proof.
  destruct (main_uniform_total lib_loggamma lib_exp 1 2 0 2 "pl" mixed)
    as (tree & network & r1 & r2 & _ & _ & _ & _ & H).
  - lia.
  - exact lib_weights_two.
  - simpl. lia.
  - eexists _, _. exact H.
Defined.

(** ** Reachability after an insertion *)

Lemma reach_spliced_old (g : DiGraph) (eA eB : edge) (X Y : Z) (u v : Z) :
  reach g u v -> reach (spliced g eA eB X Y) u v.
Proof.
  induction 1 as [x | x y z Hxy _ IH]; [apply reach_refl |].
  destruct (edge_eq_dec (x, y) eA) as [Ea | Ea].
  - apply (reach_step _ x X); [apply spliced_E; right; rewrite <- Ea; simpl; auto |].
    apply (reach_step _ X y); [apply spliced_E; right; rewrite <- Ea; simpl; auto |].
    exact IH.
  - destruct (edge_eq_dec (x, y) eB) as [Eb | Eb].
    + apply (reach_step _ x Y);
        [apply spliced_E; right; rewrite <- Eb; simpl; auto |].
      apply (reach_step _ Y y);
        [apply spliced_E; right; rewrite <- Eb; simpl; auto 6 |].
      exact IH.
    + apply (reach_step _ x y); [apply spliced_E; left; auto | exact IH].
Qed.

Lemma reach_spliced_connector (g : DiGraph) (eA eB : edge) (X Y : Z) :
  reach (spliced g eA eB X Y) (fst eA) (snd eB).
Proof.
  apply (reach_step _ _ X); [apply spliced_E; right; simpl; auto |].
  apply (reach_step _ _ Y); [apply spliced_E; right; simpl; auto 6 |].
  apply (reach_step _ _ (snd eB)); [apply spliced_E; right; simpl; auto 6 |].
  apply reach_refl.
Qed.

(** X10.  An insertion into a DAG keeps every reachability between nodes
    of the graph and adds exactly those that pass through the connector:
    with [eA], [eB] the two edges after the reorientation, [v] is reachable
    from [u] afterwards iff it was before, or [u] reaches the parent of
    [eA] and the child of [eB] reaches [v]. *)
Theorem AddEdgeBetween_reachability (g g' : DiGraph) (e1 e2 : edge)
        (r r' : rng) :
  wf g -> acyclic g -> In e1 (edges g) -> In e2 (edges g) ->
  AddEdgeBetween g e1 e2 None r = Ok (g', r') ->
  exists b,
    has_path g (snd e2) (fst e1) = Ok b /\
    forall eA eB, (eA, eB) = swap_if b (e1, e2) ->
      forall u v, In u (nodes g) -> In v (nodes g) ->
        (reach g' u v <->
         reach g u v \/ (reach g u (fst eA) /\ reach g (snd eB) v)).
Proof.
  intros W A H1 H2 Hrun.
  apply (edges_keys g _ W) in H1. apply (edges_keys g _ W) in H2.
  destruct (insertion_invariants g e1 e2 r W A H1 H2)
    as (g1 & r1 & m & b & Hm & Hle & Hb & Hiff & Hrun' & Hn & Hk & W' & A').
  rewrite Hrun' in Hrun. injection Hrun as <- _.
  exists b. split; [assumption |].
  intros eA eB Hsw u v Hu Hv.
  pose proof (reorientation_sound g e1 e2 b A H1 H2 Hiff) as Hbelow.
  rewrite <- Hsw in Hk, Hbelow. cbn [fst snd] in Hk, Hbelow.
  assert (HA : In eA (edge_keys g))
    by (destruct b; cbn [swap_if fst snd] in Hsw; injection Hsw as -> ->; assumption).
  assert (HB : In eB (edge_keys g))
    by (destruct b; cbn [swap_if fst snd] in Hsw; injection Hsw as -> ->; assumption).
  assert (HX : ~ In (m + 1) (nodes g)) by (intros K; apply Hle in K; lia).
  assert (HY : ~ In (m + 2) (nodes g)) by (intros K; apply Hle in K; lia).
  assert (HXY : m + 1 <> m + 2) by lia.
  split.
  - intros R. apply (reach_ext _ g1 Hk) in R.
    destruct (reach_new_old g eA eB (m + 1) (m + 2) W HA HB HX HY HXY Hbelow
                u v R Hv) as (K & _ & _).
    apply K; intros ->; contradiction.
  - intros R. apply (reach_ext g1 (spliced g eA eB (m + 1) (m + 2)));
      [symmetry; exact Hk |].
    destruct R as [R | [R1 R2]].
    + apply reach_spliced_old. assumption.
    + eapply reach_trans; [apply reach_spliced_old; exact R1 |].
      eapply reach_trans; [apply reach_spliced_connector |].
      apply reach_spliced_old. exact R2.
Qed.

Lemma AddEdgeBetween_reachability_witness :
  exists g' r',
    AddEdgeBetween cherry (3, 1) (3, 2) None zeros = Ok (g', r')
    /\ reach g' 3 2.
Proof.
  destruct (AddEdgeBetween_run cherry (3, 1) (3, 2) zeros cherry_wf)
    as (m0 & b0 & dA & dB & _ & _ & _ & _ & Hrun); [simpl; auto | simpl; auto |].
  assert (K1 : In (3, 1) (edges cherry)) by (simpl; auto).
  assert (K2 : In (3, 2) (edges cherry)) by (simpl; auto).
  destruct (AddEdgeBetween_reachability cherry _ (3, 1) (3, 2) zeros _
              cherry_wf cherry_acyclic K1 K2 Hrun) as (b & Hb & H).
  eexists _, _. split; [exact Hrun |].
  vm_compute in Hb. injection Hb as <-.
  apply (H (3, 1) (3, 2) eq_refl 3 2); [simpl; auto | simpl; auto |].
  left. apply reach_edge. unfold E. simpl; auto.
Defined.

Lemma caterpillar_wf : wf caterpillar.
Proof. apply wfb_wf. reflexivity. Defined.

Lemma caterpillar_acyclic : acyclic caterpillar.
Proof. apply is_dag_acyclic; [apply caterpillar_wf | reflexivity]. Defined.

(** X11.  When the second edge is above the first one, the order of the
    two arguments does not matter: both calls return the same graph
    (and leave the random source in the same state). *)
Theorem AddEdgeBetween_comparable_any_order (g : DiGraph) (e1 e2 : edge)
        (r : rng) :
  wf g -> acyclic g -> In e1 (edges g) -> In e2 (edges g) ->
  reach g (snd e2) (fst e1) ->
  AddEdgeBetween g e1 e2 None r = AddEdgeBetween g e2 e1 None r.
Proof.
  intros W A H1 H2 R.
  apply (edges_keys g _ W) in H1. apply (edges_keys g _ W) in H2.
  destruct (AddEdgeBetween_run g e1 e2 r W H1 H2)
    as (m & b & dA & dB & Hm & Hb & HdA & HdB & Hrun).
  destruct (AddEdgeBetween_run g e2 e1 r W H2 H1)
    as (m' & b' & dA' & dB' & Hm' & Hb' & HdA' & HdB' & Hrun').
  assert (m' = m) by congruence. subst m'.
  assert (N1 : In (fst e1) (nodes g) /\ In (snd e1) (nodes g))
    by (destruct e1 as [a c]; apply (wf_ends g W a c H1)).
  assert (N2 : In (fst e2) (nodes g) /\ In (snd e2) (nodes g))
    by (destruct e2 as [a c]; apply (wf_ends g W a c H2)).
  destruct (has_path_spec g (snd e2) (fst e1) W (proj2 N2) (proj1 N1))
    as [c [Hc Hciff]].
  destruct (has_path_spec g (snd e1) (fst e2) W (proj2 N1) (proj1 N2))
    as [c' [Hc' Hciff']].
  assert (c = b) by congruence. assert (c' = b') by congruence. subst c c'.
  assert (b = true) by (apply Hciff; assumption). subst b.
  assert (b' = false).
  { destruct b'; [| reflexivity]. exfalso.
    assert (R' : reach g (snd e1) (fst e2)) by (apply Hciff'; reflexivity).
    apply (A (fst e1) (snd e1) (E_fst_snd g e1 H1)).
    eapply reach_trans; [exact R' |].
    eapply reach_step; [apply (E_fst_snd g e2 H2) | exact R]. }
  subst b'. cbn [swap_if fst snd] in *.
  assert (dA' = dA) by congruence. assert (dB' = dB) by congruence.
  subst dA' dB'. rewrite Hrun, Hrun'. reflexivity.
Qed.

Lemma AddEdgeBetween_comparable_any_order_witness :
  reach caterpillar 5 5 /\
  AddEdgeBetween caterpillar (5, 2) (4, 5) None zeros
  = AddEdgeBetween caterpillar (4, 5) (5, 2) None zeros.
Proof.
  split; [apply reach_refl |].
  apply AddEdgeBetween_comparable_any_order.
  - apply caterpillar_wf.
  - apply caterpillar_acyclic.
  - vm_compute. auto.
  - vm_compute. auto.
  - apply reach_refl.
Defined.

(** ** The parameters of the local search *)

Lemma Qlt_bool_true (a b : Q) : (a < b)%Q -> Qlt_bool a b = true.
Proof.
  intros H. unfold Qlt_bool. destruct (Qle_bool b a) eqn:K; [| reflexivity].
  apply Qle_bool_iff in K. exfalso. apply (Qlt_not_le _ _ H K).
Qed.

Lemma Qlt_bool_false (a b : Q) : (b <= a)%Q -> Qlt_bool a b = false.
Proof.
  intros H. unfold Qlt_bool. apply Qle_bool_iff in H. rewrite H. reflexivity.
Qed.

(** One step of the walk from [cur], when [(prev, cur)] lies on an edge:
    the three library calls succeed and the next node is a neighbour. *)
Lemma walk_step (g : DiGraph) (prev cur : Z) (r : rng) :
  wf g ->
  In (prev, cur) (edge_keys g) \/ In (cur, prev) (edge_keys g) ->
  exists next,
    successors g cur = Ok (succ_list g cur) /\
    predecessors g cur = Ok (pred_list g cur) /\
    random_choice (succ_list g cur ++ pred_list g cur) r
    = Ok (next, rng_tail r) /\
    (In (cur, next) (edge_keys g) \/ In (next, cur) (edge_keys g)).
Proof.
  intros W H.
  assert (Hc : has_node g cur = true).
  { apply mem_Z_In.
    destruct H as [H | H]; apply (wf_ends g W) in H; tauto. }
  assert (Hne : succ_list g cur ++ pred_list g cur <> []).
  { intros K. apply app_eq_nil in K. destruct K as [K1 K2].
    destruct H as [H | H].
    - apply In_pred_list in H. rewrite K2 in H. destruct H.
    - apply In_succ_list in H. rewrite K1 in H. destruct H. }
  pose proof (random_choice_run _ 0 r Hne) as Hrun.
  eexists. unfold successors, predecessors. rewrite Hc.
  split; [reflexivity |]. split; [reflexivity |]. split; [exact Hrun |].
  pose proof (random_choice_In _ _ _ _ Hrun) as Hin.
  apply in_app_or in Hin. destruct Hin as [Hin | Hin].
  - left. apply In_succ_list. assumption.
  - right. apply In_pred_list. assumption.
Qed.

Lemma walk_unbounded (g : DiGraph) (stop_prob : Q) :
  wf g -> (stop_prob <= 0)%Q ->
  forall fuel step prev cur r,
    In (prev, cur) (edge_keys g) \/ In (cur, prev) (edge_keys g) ->
    walk fuel g stop_prob None step prev cur r = Raise OutOfFuel.
Proof.
  intros W Hs. induction fuel as [|fuel IH]; intros step prev cur r H;
    cbn [walk within]; [reflexivity |].
  destruct (walk_step g prev cur r W H) as (next & Hsu & Hpr & Hch & Hnx).
  rewrite Hsu, Hpr.
  rewrite (bind_ok _ _ r r (succ_list g cur) eq_refl).
  rewrite (bind_ok _ _ r r (pred_list g cur) eq_refl).
  rewrite (bind_ok _ _ r (rng_tail r) next Hch).
  rewrite (bind_ok _ _ (rng_tail r) (rng_tail (rng_tail r))
             (rand_val (rng_tail r)) (random_random_run _)).
  rewrite Qlt_bool_false.
  - apply IH. assumption.
  - eapply Qle_trans; [exact Hs | apply rand_val_range].
Qed.

(** The start of an attempt: [edge1] and the orientation are drawn, and
    the walk starts on [edge1]. *)
Lemma local_attempt_start (fuel : nat) (g : DiGraph) (stop_prob : Q)
      (max_steps : option Z) (r : rng) :
  wf g -> edges g <> [] ->
  exists e1 prev cur,
    In e1 (edge_keys g) /\
    ((prev = fst e1 /\ cur = snd e1) \/ (prev = snd e1 /\ cur = fst e1)) /\
    local_attempt fuel g stop_prob max_steps r
    = bind (walk fuel g stop_prob max_steps 1 prev cur)
           (fun pc =>
              let edge2 := (fst pc, snd pc) in
              let edge2 :=
                if negb (mem_edge edge2 (edges g))
                then (snd pc, fst pc) else edge2 in
              ret (e1, edge2))
           (rng_tail (rng_tail r)).
Proof.
  intros W He. unfold local_attempt.
  pose proof (random_choice_run (edges g) (0, 0) r He) as H1.
  set (e1 := nth (draw_index (r 0%nat) (length (edges g))) (edges g) (0, 0))
    in H1.
  assert (K1 : In e1 (edge_keys g)).
  { apply (edges_keys g _ W). eapply random_choice_In. exact H1. }
  assert (Hne : [fst e1; snd e1] <> []) by discriminate.
  pose proof (random_choice_run [fst e1; snd e1] 0 (rng_tail r) Hne) as H2.
  set (prev := nth _ _ _) in H2.
  assert (Hp : In prev [fst e1; snd e1])
    by (eapply random_choice_In; exact H2).
  exists e1, prev, (if fst e1 =? prev then snd e1 else fst e1).
  split; [assumption |]. split.
  - destruct Hp as [<- | [<- | []]].
    + rewrite Z.eqb_refl. left; auto.
    + destruct (fst e1 =? snd e1) eqn:Eq.
      * apply Z.eqb_eq in Eq. left. split; congruence.
      * right; auto.
  - rewrite (bind_ok _ _ r (rng_tail r) e1 H1).
    rewrite (bind_ok _ _ (rng_tail r) (rng_tail (rng_tail r)) prev H2).
    unfold bind.
    destruct (walk fuel g stop_prob max_steps 1 prev
                (if fst e1 =? prev then snd e1 else fst e1)
                (rng_tail (rng_tail r))) as [[[p c] r3] |]; reflexivity.
Qed.

Lemma start_on_edge (g : DiGraph) (e1 : edge) (prev cur : Z) :
  In e1 (edge_keys g) ->
  (prev = fst e1 /\ cur = snd e1) \/ (prev = snd e1 /\ cur = fst e1) ->
  In (prev, cur) (edge_keys g) \/ In (cur, prev) (edge_keys g).
Proof.
  destruct e1 as [a b]. cbn [fst snd].
  intros H [[-> ->] | [-> ->]]; auto.
Qed.

(** X12.  With [stop_prob <= 0] and no bound on the steps the random walk
    of [AddEdgeLocal] never stops: on a graph with an edge the call does
    not return, whatever the random draws (every amount of fuel runs
    out). *)
Theorem AddEdgeLocal_walk_never_stops (g : DiGraph)
        (new_nodes : option (Z * Z)) (stop_prob : Q) (max_tries : option Z) :
  wf g -> edges g <> [] -> (stop_prob <= 0)%Q ->
  within max_tries 1 = true ->
  forall fuel r,
    AddEdgeLocal fuel g new_nodes stop_prob None max_tries r
    = Raise OutOfFuel.
Proof.
  intros W He Hs Ht fuel r. unfold AddEdgeLocal.
  assert (H : local_search fuel g stop_prob None max_tries 1 None r
              = Raise OutOfFuel).
  { destruct fuel as [|fuel]; cbn [local_search]; rewrite Ht; [reflexivity |].
    destruct (local_attempt_start (S fuel) g stop_prob None r W He)
      as (e1 & prev & cur & K1 & Hor & Hrun).
    unfold bind at 1. rewrite Hrun. unfold bind at 1.
    rewrite (walk_unbounded g stop_prob W Hs (S fuel) 1 prev cur _
               (start_on_edge g e1 prev cur K1 Hor)).
    reflexivity. }
  unfold bind. rewrite H. reflexivity.
Qed.

Lemma AddEdgeLocal_walk_never_stops_witness :
  AddEdgeLocal 50 cherry None 0%Q None None zeros = Raise OutOfFuel.
Proof.
  apply AddEdgeLocal_walk_never_stops.
  - apply cherry_wf.
  - discriminate.
  - apply Qle_refl.
  - reflexivity.
Defined.

Lemma walk_no_step (fuel : nat) (g : DiGraph) (stop_prob : Q)
      (max_steps step prev cur : Z) (r : rng) :
  max_steps < step ->
  walk fuel g stop_prob (Some max_steps) step prev cur r = Ok ((prev, cur), r).
Proof.
  intros H.
  assert (K : within (Some max_steps) step = false)
    by (apply Z.leb_gt; assumption).
  destruct fuel; cbn [walk]; rewrite K; reflexivity.
Qed.

Lemma local_attempt_no_step (g : DiGraph) (stop_prob : Q) (max_steps : Z) :
  wf g -> acyclic g -> edges g <> [] -> max_steps <= 0 ->
  forall fuel r, exists e1,
    local_attempt fuel g stop_prob (Some max_steps) r
    = Ok ((e1, e1), rng_tail (rng_tail r)).
Proof.
  intros W A He Hm fuel r.
  destruct (local_attempt_start fuel g stop_prob (Some max_steps) r W He)
    as (e1 & prev & cur & K1 & Hor & Hrun).
  exists e1. rewrite Hrun. unfold bind.
  rewrite walk_no_step by lia. cbn [fst snd]. unfold ret.
  destruct e1 as [a b]. cbn [fst snd] in Hor.
  destruct Hor as [[-> ->] | [-> ->]].
  - assert (Hin : mem_edge (a, b) (edges g) = true)
      by (apply mem_edge_In, (edges_keys g _ W); assumption).
    rewrite Hin. reflexivity.
  - assert (Hin : mem_edge (b, a) (edges g) = false).
    { apply mem_edge_false. intros K. apply (edges_keys g _ W) in K.
      apply (A a b K1). apply reach_edge. exact K. }
    rewrite Hin. reflexivity.
Qed.

(** X13.  With [max_steps <= 0] the walk of [AddEdgeLocal] takes no step,
    so on a DAG every attempt ends with [edge2 = edge1]; without a bound
    on the tries the search then repeats for ever and the call does not
    return. *)
Theorem AddEdgeLocal_no_steps (g : DiGraph) (new_nodes : option (Z * Z))
        (stop_prob : Q) (max_steps : Z) :
  wf g -> acyclic g -> edges g <> [] -> max_steps <= 0 ->
  (forall fuel r e1 e2 r',
      local_attempt fuel g stop_prob (Some max_steps) r = Ok ((e1, e2), r') ->
      e2 = e1)
  /\ (forall fuel r,
         AddEdgeLocal fuel g new_nodes stop_prob (Some max_steps) None r
         = Raise OutOfFuel).
Proof.
  intros W A He Hm. split.
  - intros fuel r e1 e2 r' H.
    destruct (local_attempt_no_step g stop_prob max_steps W A He Hm fuel r)
      as [e K].
    rewrite K in H. injection H as <- <- _. reflexivity.
  - intros fuel r. unfold AddEdgeLocal.
    assert (H : forall t bound r0,
               local_search fuel g stop_prob (Some max_steps) None t bound r0
               = Raise OutOfFuel).
    { induction fuel as [|fuel IH]; intros t bound r0;
        cbn [local_search within]; [reflexivity |].
      destruct (local_attempt_no_step g stop_prob max_steps W A He Hm
                  (S fuel) r0) as [e K].
      rewrite (bind_ok _ _ r0 _ (e, e) K).
      rewrite edge_eqb_refl. cbn [negb]. apply IH. }
    unfold bind. rewrite H. reflexivity.
Qed.

Lemma AddEdgeLocal_no_steps_witness :
  AddEdgeLocal 50 cherry None (1 # 2) (Some 0) None zeros = Raise OutOfFuel.
Proof.
  apply AddEdgeLocal_no_steps.
  - apply cherry_wf.
  - apply cherry_acyclic.
  - discriminate.
  - lia.
Defined.

(** X14.  With [stop_prob >= 1] the walk of [AddEdgeLocal] stops after its
    first step: on a graph with an edge an attempt returns after exactly
    four draws, and its [edge2] is an edge of the graph that has a node in
    common with [edge1]. *)
Theorem AddEdgeLocal_one_step (fuel : nat) (g : DiGraph) (stop_prob : Q)
        (max_steps : option Z) (r : rng) :
  wf g -> edges g <> [] -> (1 <= stop_prob)%Q ->
  within max_steps 1 = true -> (1 <= fuel)%nat ->
  exists e1 e2,
    local_attempt fuel g stop_prob max_steps r
    = Ok ((e1, e2), rng_tail (rng_tail (rng_tail (rng_tail r))))
    /\ In e1 (edges g) /\ In e2 (edges g)
    /\ (fst e2 = fst e1 \/ fst e2 = snd e1 \/
        snd e2 = fst e1 \/ snd e2 = snd e1).
Proof.
  intros W He Hs Hw Hf.
  destruct (local_attempt_start fuel g stop_prob max_steps r W He)
    as (e1 & prev & cur & K1 & Hor & Hrun).
  destruct fuel as [|fuel]; [lia |].
  destruct (walk_step g prev cur (rng_tail (rng_tail r)) W
              (start_on_edge g e1 prev cur K1 Hor))
    as (next & Hsu & Hpr & Hch & Hnx).
  assert (Hwalk : walk (S fuel) g stop_prob max_steps 1 prev cur
                    (rng_tail (rng_tail r))
                  = Ok ((cur, next),
                        rng_tail (rng_tail (rng_tail (rng_tail r))))).
  { cbn [walk]. rewrite Hw, Hsu, Hpr.
    rewrite (bind_ok _ _ _ _ (succ_list g cur) eq_refl).
    rewrite (bind_ok _ _ _ _ (pred_list g cur) eq_refl).
    rewrite (bind_ok _ _ _ _ next Hch).
    rewrite (bind_ok _ _ _ _ _ (random_random_run _)).
    rewrite Qlt_bool_true
      by (eapply Qlt_le_trans; [apply rand_val_range | exact Hs]).
    reflexivity. }
  rewrite (bind_ok _ _ _ _ _ Hwalk) in Hrun. cbn [fst snd] in Hrun.
  assert (Hc : cur = fst e1 \/ cur = snd e1)
    by (destruct Hor as [[_ ->] | [_ ->]]; auto).
  eexists e1, _. split; [exact Hrun |].
  split; [apply (edges_keys g _ W); exact K1 |].
  destruct (mem_edge (cur, next) (edges g)) eqn:Em; cbn [negb fst snd].
  - split; [apply mem_edge_In; exact Em | tauto].
  - split; [| tauto].
    apply mem_edge_false in Em. apply (edges_keys g _ W).
    destruct Hnx as [Hnx | Hnx]; [| exact Hnx].
    exfalso. apply Em. apply (edges_keys g _ W). exact Hnx.
Qed.

Lemma AddEdgeLocal_one_step_witness :
  exists e1 e2,
    local_attempt 1 cherry 1%Q None zeros
    = Ok ((e1, e2), rng_tail (rng_tail (rng_tail (rng_tail zeros))))
    /\ In e2 (edges cherry).
Proof.
  destruct (AddEdgeLocal_one_step 1 cherry 1%Q None zeros cherry_wf)
    as (e1 & e2 & H & _ & K & _).
  - discriminate.
  - apply Qle_refl.
  - reflexivity.
  - lia.
  - exists e1, e2. split; [exact H | exact K].
Defined.

(** ** The output *)

Lemma string_app_nil_r (s : string) : (s ++ "")%string = s.
Proof. induction s as [|a s IH]; simpl; [| rewrite IH]; reflexivity. Qed.

Lemma string_app_assoc (a b c : string) :
  ((a ++ b) ++ c)%string = (a ++ (b ++ c))%string.
Proof. induction a as [|x a IH]; simpl; [| rewrite IH]; reflexivity. Qed.

(** [sep.join(x :: xs)], with the separator in front of every later
    item. *)
Lemma concat_prefixed (sep x : string) (xs : list string) :
  String.concat sep (x :: xs)
  = (x ++ String.concat "" (map (append sep) xs))%string.
Proof.
  revert x. induction xs as [|y ys IH]; intros x.
  - simpl. rewrite string_app_nil_r. reflexivity.
  - change (String.concat sep (x :: y :: ys))
      with (x ++ sep ++ String.concat sep (y :: ys))%string.
    rewrite IH. f_equal.
    change (map (append sep) (y :: ys))
      with ((sep ++ y)%string :: map (append sep) ys).
    destruct ys as [|z zs].
    + simpl. rewrite !string_app_nil_r. reflexivity.
    + change (String.concat "" ((sep ++ y)%string :: map (append sep) (z :: zs)))
        with ((sep ++ y) ++ "" ++ String.concat "" (map (append sep) (z :: zs)))%string.
      rewrite string_app_assoc. reflexivity.
Qed.

Lemma output_lines_later (lines : list string) :
  forall i output,
    output_lines (S i) lines output
    = (output ++ String.concat "" (map (append CRLF) lines))%string.
Proof.
  induction lines as [|l rest IH]; intros i output.
  - simpl. rewrite string_app_nil_r. reflexivity.
  - cbn [output_lines Nat.eqb negb]. rewrite IH.
    rewrite !string_app_assoc. f_equal.
    change (map (append CRLF) (l :: rest))
      with ((CRLF ++ l)%string :: map (append CRLF) rest).
    destruct rest as [|l2 rest].
    + simpl. rewrite !string_app_nil_r. reflexivity.
    + change (String.concat "" ((CRLF ++ l)%string :: map (append CRLF) (l2 :: rest)))
        with ((CRLF ++ l) ++ "" ++ String.concat "" (map (append CRLF) (l2 :: rest)))%string.
      rewrite string_app_assoc. reflexivity.
Qed.

Lemma output_lines_join (lines : list string) :
  output_lines 0 lines "" = String.concat CRLF lines.
Proof.
  destruct lines as [|l rest]; [reflexivity |].
  cbn [output_lines Nat.eqb negb]. rewrite output_lines_later.
  rewrite concat_prefixed. reflexivity.
Qed.

Lemma parent_line_join (g : DiGraph) (v : Z) :
  parent_line g v = String.concat " " (map str (v :: pred_list g v)).
Proof.
  unfold parent_line. cbn [map]. rewrite concat_prefixed.
  generalize (str v) as out. generalize (pred_list g v) as l.
  induction l as [|p l IH]; intros out.
  - simpl. rewrite string_app_nil_r. reflexivity.
  - cbn [fold_left map]. rewrite IH. rewrite !string_app_assoc. f_equal.
    destruct l as [|q l].
    + simpl. rewrite !string_app_nil_r. reflexivity.
    + change (String.concat "" ((" " ++ str p)%string :: map (append " ") (map str (q :: l))))
        with ((" " ++ str p) ++ "" ++ String.concat "" (map (append " ") (map str (q :: l))))%string.
      reflexivity.
Qed.

(** X15.  [OutputNetwork] joins its lines with CR LF, with no separator
    before the first or after the last one: the edge list has one line
    "u v" for each edge, the parent list one line for each node, the node
    followed by its parents, separated by single spaces.  Any other
    output type gives the empty string. *)
Theorem OutputNetwork_join (g : DiGraph) (out_type : string) :
  OutputNetwork g "el"
  = String.concat CRLF
      (map (fun e => String.concat " " [str (fst e); str (snd e)]) (edges g))
  /\ OutputNetwork g "pl"
     = String.concat CRLF
         (map (fun v => String.concat " " (map str (v :: pred_list g v)))
              (nodes g))
  /\ (out_type <> "el"%string -> out_type <> "pl"%string ->
      OutputNetwork g out_type = ""%string).
Proof.
  split; [| split].
  - unfold OutputNetwork. cbn [String.eqb Ascii.eqb Bool.eqb].
    rewrite output_lines_join. reflexivity.
  - unfold OutputNetwork.
    change (("pl" =? "el")%string) with false.
    change (("pl" =? "pl")%string) with true. cbv iota.
    rewrite output_lines_join. f_equal. apply map_ext.
    intros v. apply parent_line_join.
  - intros H1 H2. unfold OutputNetwork.
    apply String.eqb_neq in H1. apply String.eqb_neq in H2.
    rewrite H1, H2. reflexivity.
Qed.

Lemma OutputNetwork_join_witness :
  OutputNetwork cherry "nw" = ""%string.
Proof.
  apply (OutputNetwork_join cherry "nw"); discriminate.
Defined.

Lemma occurs_app (c : ascii) (a b : string) :
  occurs c (a ++ b) <-> occurs c a \/ occurs c b.
Proof.
  induction a as [|x a IH]; simpl; [tauto |]. rewrite IH. tauto.
Qed.

(** A string is cut in one way only at the first occurrence of [c]. *)
Lemma split_unique (c : ascii) (a b x y : string) :
  ~ occurs c a -> ~ occurs c b ->
  (a ++ String c x)%string = (b ++ String c y)%string -> a = b /\ x = y.
Proof.
  revert b. induction a as [|a0 a IH]; intros [|b0 b] Ha Hb H; simpl in *.
  - injection H as ->. auto.
  - injection H as -> _. tauto.
  - injection H as -> _. tauto.
  - injection H as -> H. destruct (IH b) as [-> ->]; tauto.
Qed.

Lemma uint_chars (c : ascii) (d : Decimal.uint) :
  occurs c (NilEmpty.string_of_uint d) ->
  In c ["0"; "1"; "2"; "3"; "4"; "5"; "6"; "7"; "8"; "9"]%char.
Proof.
  induction d as [|d IH|d IH|d IH|d IH|d IH|d IH|d IH|d IH|d IH|d IH];
    cbn [NilEmpty.string_of_uint occurs]; [tauto | ..];
    (intros [<- | H]; [simpl; tauto | apply IH; exact H]).
Qed.

Lemma str_chars (c : ascii) (z : Z) :
  occurs c (str z) ->
  In c ["-"; "0"; "1"; "2"; "3"; "4"; "5"; "6"; "7"; "8"; "9"]%char.
Proof.
  assert (U : forall d, occurs c (NilZero.string_of_uint d) ->
                        In c ["0"; "1"; "2"; "3"; "4"; "5"; "6"; "7"; "8"; "9"]%char).
  { intros d. destruct d; try apply uint_chars.
    simpl. intros [<- | []]. auto. }
  unfold str. destruct (Z.to_int z) as [d | d];
    cbn [NilZero.string_of_int occurs].
  - intros H. right. apply (U d). exact H.
  - intros [<- | H]; [left; reflexivity | right; apply (U d); exact H].
Qed.

Lemma str_no_space (z : Z) : ~ occurs " "%char (str z).
Proof.
  intros H. apply str_chars in H. simpl in H.
  repeat (destruct H as [H | H]; [discriminate H |]). exact H.
Qed.

Lemma str_no_CR (z : Z) : ~ occurs (ascii_of_nat 13) (str z).
Proof.
  intros H. apply str_chars in H. simpl in H.
  repeat (destruct H as [H | H]; [discriminate H |]). exact H.
Qed.

Lemma str_inj (a b : Z) : str a = str b -> a = b.
Proof.
  assert (N : forall z, Z.to_int z <> Decimal.Pos Decimal.Nil
                        /\ Z.to_int z <> Decimal.Neg Decimal.Nil).
  { intros [|p|p]; simpl; split; try discriminate;
      intros K; injection K as K;
      apply (DecimalPos.Unsigned.to_uint_nonnil p K). }
  unfold str. intros H. apply DecimalZ.to_int_inj.
  assert (K : Some (Z.to_int a) = Some (Z.to_int b)).
  { rewrite <- (NilZero.isi (Z.to_int a)) by apply N.
    rewrite <- (NilZero.isi (Z.to_int b)) by apply N.
    rewrite H. reflexivity. }
  injection K as K. exact K.
Qed.

Lemma edge_line_inj (e e' : edge) : edge_line e = edge_line e' -> e = e'.
Proof.
  destruct e as [a b], e' as [a' b']. unfold edge_line. cbn [fst snd].
  change (" " ++ str b)%string with (String " " (str b)).
  change (" " ++ str b')%string with (String " " (str b')).
  intros H. apply split_unique in H; try apply str_no_space.
  destruct H as [H1 H2]. apply str_inj in H1. apply str_inj in H2.
  congruence.
Qed.

Lemma edge_line_clean (e : edge) :
  ~ occurs (ascii_of_nat 13) (edge_line e) /\ edge_line e <> ""%string.
Proof.
  unfold edge_line.
  change (" " ++ str (snd e))%string with (String " " (str (snd e))).
  split.
  - intros H. apply occurs_app in H. destruct H as [H | H].
    + apply (str_no_CR _ H).
    + destruct H as [H | H]; [discriminate H | apply (str_no_CR _ H)].
  - destruct (str (fst e)); discriminate.
Qed.

(** Lines without CR, none of them empty, are recovered from their join. *)
Lemma join_inj (l1 : list string) :
  forall l2,
    (forall s, In s l1 -> ~ occurs (ascii_of_nat 13) s /\ s <> ""%string) ->
    (forall s, In s l2 -> ~ occurs (ascii_of_nat 13) s /\ s <> ""%string) ->
    String.concat CRLF l1 = String.concat CRLF l2 -> l1 = l2.
Proof.
  assert (step : forall x y ys,
             String.concat CRLF (x :: y :: ys)
             = (x ++ String (ascii_of_nat 13)
                      (String (ascii_of_nat 10)
                              (String.concat CRLF (y :: ys))))%string)
    by reflexivity.
  induction l1 as [|x xs IH]; intros [|y ys] H1 H2 H.
  - reflexivity.
  - exfalso. destruct (H2 y (or_introl eq_refl)) as [_ K]. apply K.
    destruct ys; [symmetry; exact H |].
    rewrite step in H. destruct y; [reflexivity | discriminate H].
  - exfalso. destruct (H1 x (or_introl eq_refl)) as [_ K]. apply K.
    destruct xs; [exact H |].
    rewrite step in H. destruct x; [reflexivity | discriminate H].
  - destruct (H1 x (or_introl eq_refl)) as [Cx _].
    destruct (H2 y (or_introl eq_refl)) as [Cy _].
    destruct xs as [|x2 xs], ys as [|y2 ys].
    + simpl in H. congruence.
    + exfalso. rewrite step in H. apply Cx.
      change (String.concat CRLF [x]) with x in H. rewrite H.
      apply occurs_app. right. left. reflexivity.
    + exfalso. rewrite step in H. apply Cy.
      change (String.concat CRLF [y]) with y in H. rewrite <- H.
      apply occurs_app. right. left. reflexivity.
    + rewrite !step in H. apply split_unique in H; [| assumption | assumption].
      destruct H as [-> H]. injection H as H. f_equal.
      apply IH.
      * intros s Hs. apply H1. right. exact Hs.
      * intros s Hs. apply H2. right. exact Hs.
      * exact H.
Qed.

(** X16.  The edge list [OutputNetwork] prints determines the edges and
    their order: two graphs give the same "el" output exactly when their
    edge lists are the same. *)
Theorem OutputNetwork_el_faithful (g g' : DiGraph) :
  OutputNetwork g "el" = OutputNetwork g' "el" <-> edges g = edges g'.
Proof.
  unfold OutputNetwork. cbn [String.eqb Ascii.eqb Bool.eqb].
  rewrite !output_lines_join. split.
  - intros H. apply join_inj in H.
    + revert H. generalize (edges g) as l1. generalize (edges g') as l2.
      intros l2 l1. revert l2.
      induction l1 as [|a l1 IH]; intros [|b l2] H; try discriminate H.
      * reflexivity.
      * cbn [map] in H. injection H as Hab H.
        apply edge_line_inj in Hab. rewrite Hab, (IH l2 H). reflexivity.
    + intros s Hs. apply in_map_iff in Hs. destruct Hs as [e [<- _]].
      apply edge_line_clean.
    + intros s Hs. apply in_map_iff in Hs. destruct Hs as [e [<- _]].
      apply edge_line_clean.
  - intros ->. reflexivity.
Qed.

(** ** What an insertion leaves alone *)

Lemma find_app_split {A} (P : A -> bool) (l1 l2 : list A) :
  find P (l1 ++ l2)
  = match find P l1 with Some y => Some y | None => find P l2 end.
Proof.
  induction l1 as [|a l1 IH]; simpl; [reflexivity |].
  destruct (P a); [reflexivity | exact IH].
Qed.

Lemma get_remove_other (g : DiGraph) (a e : edge) :
  e <> a -> get_edge_data (remove_edge g a) e = get_edge_data g e.
Proof.
  intros H. unfold get_edge_data, remove_edge. cbn [g_edge].
  assert (K : find (fun x => edge_eqb (fst x) e)
                (filter (fun x => negb (edge_eqb (fst x) a)) (g_edge g))
              = find (fun x => edge_eqb (fst x) e) (g_edge g)).
  { induction (g_edge g) as [|[k d] l IH]; [reflexivity |].
    cbn [filter find fst]. destruct (edge_eqb k a) eqn:Ka; cbn [negb].
    - apply edge_eqb_eq in Ka. subst k.
      assert (Ke : edge_eqb a e = false) by (apply edge_eqb_neq; congruence).
      rewrite Ke. exact IH.
    - cbn [find fst]. destruct (edge_eqb k e); [reflexivity | exact IH]. }
  rewrite K. reflexivity.
Qed.

Lemma get_spliced_old (g : DiGraph) (eA eB : edge) (X Y : Z) (e : edge) :
  In e (edge_keys g) -> e <> eA -> e <> eB ->
  get_edge_data (spliced g eA eB X Y) e = get_edge_data g e.
Proof.
  intros He HA HB.
  rewrite <- (get_remove_other g eA e HA).
  rewrite <- (get_remove_other (remove_edge g eA) eB e HB).
  assert (Hin : In e (edge_keys (remove_edge (remove_edge g eA) eB)))
    by (rewrite !In_remove_edge; tauto).
  destruct (get_edge_data_In _ _ Hin) as [d Hd]. rewrite Hd.
  unfold get_edge_data in *. unfold spliced. cbn [g_edge].
  rewrite find_app_split.
  destruct (find (fun x => edge_eqb (fst x) e)
              (g_edge (remove_edge (remove_edge g eA) eB))) as [[k d'] |];
    [exact Hd | discriminate Hd].
Qed.

Lemma redistribute_g_node g p x c d u :
  g_node (redistribute g p x c d u) = g_node g.
Proof.
  unfold redistribute. destruct (attr_length d), (attr_prob d); reflexivity.
Qed.

Lemma inserted_g_node g eA eB X Y dA dB u1 u2 :
  g_node (inserted g eA eB X Y dA dB u1 u2)
  = g_node g ++ [(X, None); (Y, None)].
Proof. unfold inserted. rewrite !redistribute_g_node. reflexivity. Qed.

Lemma find_node_In (l : list (Z * option Z)) (x : Z) :
  In x (map fst l) <-> find (fun y => fst y =? x) l <> None.
Proof.
  induction l as [|[k v] l IH]; cbn [map find fst In]; [tauto |].
  destruct (k =? x) eqn:Ek.
  - apply Z.eqb_eq in Ek. split; [discriminate | auto].
  - apply Z.eqb_neq in Ek. rewrite <- IH. tauto.
Qed.

(** X17.  [AddEdgeBetween] touches the two given edges only: every other
    edge keeps its attributes, every node keeps its label, the two new
    nodes have no label, and the two given edges are no longer edges. *)
Theorem AddEdgeBetween_frame (g g' : DiGraph) (e1 e2 : edge) (r r' : rng) :
  wf g -> In e1 (edges g) -> In e2 (edges g) ->
  AddEdgeBetween g e1 e2 None r = Ok (g', r') ->
  (forall e, In e (edges g) -> e <> e1 -> e <> e2 ->
             get_edge_data g' e = get_edge_data g e)
  /\ (forall x, In x (nodes g) -> get_label g' x = get_label g x)
  /\ (forall x, In x (nodes g') -> ~ In x (nodes g) ->
                get_label g' x = Ok None)
  /\ has_edge g' e1 = false /\ has_edge g' e2 = false.
Proof.
  intros W H1 H2 Hrun.
  apply (edges_keys g _ W) in H1. apply (edges_keys g _ W) in H2.
  destruct (AddEdgeBetween_run g e1 e2 r W H1 H2)
    as (m & b & dA & dB & Hm & Hb & _ & _ & Hrun').
  rewrite Hrun' in Hrun. injection Hrun as <- _.
  destruct (py_max_spec (nodes g)) as [m' [Hm' [_ Hle]]].
  { intros Hnil. destruct e1 as [a c].
    destruct (wf_ends g W a c H1) as [K _]. rewrite Hnil in K. contradiction. }
  assert (m' = m) by congruence. subst m'.
  set (eA := fst (swap_if b (e1, e2))).
  set (eB := snd (swap_if b (e1, e2))).
  assert (Hsw : (eA = e1 /\ eB = e2) \/ (eA = e2 /\ eB = e1))
    by (unfold eA, eB; destruct b; cbn [swap_if fst snd]; auto).
  assert (HX : ~ In (m + 1) (nodes g)) by (intros K; apply Hle in K; lia).
  assert (HY : ~ In (m + 2) (nodes g)) by (intros K; apply Hle in K; lia).
  assert (Hold : forall e, In e (edge_keys g) ->
                           ~ In e [(fst eA, m + 1); (m + 1, snd eA);
                                   (fst eB, m + 2); (m + 2, snd eB);
                                   (m + 1, m + 2)]).
  { intros [u v] He Hin. destruct (wf_ends g W u v He) as [Hu Hv].
    simpl in Hin.
    repeat (destruct Hin as [Hin | Hin];
            [injection Hin as <- <-; contradiction |]).
    exact Hin. }
  assert (Hgone : forall e, e = eA \/ e = eB -> In e (edge_keys g) ->
                            has_edge (inserted g eA eB (m + 1) (m + 2) dA dB
                                        (rand_float r)
                                        (rand_float (after_length dA r))) e
                            = false).
  { intros e He Hk. apply mem_edge_false. rewrite inserted_keys.
    intros K. destruct e as [u v]. apply (spliced_E g eA eB) in K.
    destruct K as [(_ & Ka & Kb) | K]; [tauto |].
    apply (Hold (u, v) Hk K). }
  split; [| split; [| split; [| split]]].
  - intros e He Ne1 Ne2. apply (edges_keys g _ W) in He.
    pose proof (Hold e He) as Hn. simpl in Hn.
    unfold inserted.
    rewrite !get_redistribute_other by (intros ->; apply Hn; auto 6).
    apply get_spliced_old; [assumption | |];
      destruct Hsw as [[-> ->] | [-> ->]]; assumption.
  - intros x Hx. unfold get_label. rewrite inserted_g_node, find_app_split.
    apply find_node_In in Hx.
    destruct (find (fun y => fst y =? x) (g_node g)); [reflexivity | congruence].
  - intros x Hx Hn. rewrite inserted_nodes in Hx.
    apply in_app_or in Hx. destruct Hx as [Hx | Hx]; [contradiction |].
    unfold get_label. rewrite inserted_g_node, find_app_split.
    assert (K : find (fun y => fst y =? x) (g_node g) = None).
    { destruct (find (fun y => fst y =? x) (g_node g)) eqn:Ef; [| reflexivity].
      exfalso. apply Hn. apply find_node_In. rewrite Ef. discriminate. }
    rewrite K. cbn [find fst].
    destruct Hx as [<- | [<- | []]].
    + rewrite Z.eqb_refl. reflexivity.
    + destruct (m + 1 =? m + 2); [reflexivity |].
      rewrite Z.eqb_refl. reflexivity.
  - apply Hgone; [destruct Hsw as [[-> ->] | [-> ->]]; auto | assumption].
  - apply Hgone; [destruct Hsw as [[-> ->] | [-> ->]]; auto | assumption].
Qed.

Lemma AddEdgeBetween_frame_witness :
  exists g' r',
    AddEdgeBetween caterpillar (4, 1) (5, 2) None zeros = Ok (g', r')
    /\ get_edge_data g' (5, 3) = Ok no_attr
    /\ get_label g' 5 = Ok (Some 2)
    /\ has_edge g' (4, 1) = false.
Proof.
  destruct (AddEdgeBetween_run caterpillar (4, 1) (5, 2) zeros caterpillar_wf)
    as (m0 & b0 & dA & dB & _ & _ & _ & _ & Hrun); [simpl; auto | simpl; auto |].
  assert (K1 : In (4, 1) (edges caterpillar)) by (vm_compute; auto).
  assert (K2 : In (5, 2) (edges caterpillar)) by (vm_compute; auto).
  destruct (AddEdgeBetween_frame caterpillar _ (4, 1) (5, 2) zeros _
              caterpillar_wf K1 K2 Hrun) as (F1 & F2 & _ & F4 & _).
  eexists _, _. split; [exact Hrun |]. split; [| split].
  - rewrite F1; [reflexivity | vm_compute; auto | discriminate | discriminate].
  - rewrite F2; [reflexivity | vm_compute; auto].
  - exact F4.
Defined.

(** ** The size of the tree and the draws it takes *)

(** X18.  For [n >= 2], whenever the tree builder returns it has made
    exactly [n - 1] random draws, one for each internal node, and the tree
    has [2 n - 2] edges; it does return when [random.choices] accepts the
    weights of every size from 2 to [n]. *)
Theorem simulateBetaSplitting_cost loggamma np_exp (fuel : nat) (n : Z)
        (beta : float) (r : rng) :
  2 <= n ->
  (forall tree r',
      simulateBetaSplitting loggamma np_exp fuel n beta r = Ok (tree, r') ->
      r' = Nat.iter (Z.to_nat (n - 1)) rng_tail r
      /\ Z.of_nat (number_of_edges tree) = 2 * n - 2)
  /\ (good_weights loggamma np_exp n beta ->
      (Z.to_nat (n - 1) <= fuel)%nat ->
      exists tree,
        simulateBetaSplitting loggamma np_exp fuel n beta r
        = Ok (tree, Nat.iter (Z.to_nat (n - 1)) rng_tail r)).
Proof.
  intros Hn.
  assert (Hcost : forall tree r',
             simulateBetaSplitting loggamma np_exp fuel n beta r
             = Ok (tree, r') ->
             r' = Nat.iter (Z.to_nat (n - 1)) rng_tail r
             /\ Z.of_nat (number_of_edges tree) = 2 * n - 2).
  { intros tree r' H.
    destruct (simulateBetaSplitting_sound _ _ _ _ _ _ _ _ Hn H)
      as (I & Hr & Hlen).
    split; [exact Hr |].
    rewrite (number_of_edges_keys tree (inv_wf _ _ _ _ _ _ _ I)).
    unfold edge_keys. rewrite length_map, Hlen. lia. }
  split; [exact Hcost |].
  intros Hw Hf.
  destruct (simulateBetaSplitting_Inv loggamma np_exp fuel n beta r Hn Hw Hf)
    as (tree & r' & Hrun & _).
  exists tree. destruct (Hcost tree r' Hrun) as [<- _]. exact Hrun.
Qed.

Lemma simulateBetaSplitting_cost_witness :
  exists tree,
    simulateBetaSplitting lib_loggamma lib_exp 1 2 0 zeros
    = Ok (tree, Nat.iter 1 rng_tail zeros)
    /\ Z.of_nat (number_of_edges tree) = 2.
Proof.
  destruct (simulateBetaSplitting_cost lib_loggamma lib_exp 1 2 0 zeros)
    as [Hcost Hrun]; [lia |].
  destruct (Hrun lib_weights_two) as [tree Ht]; [simpl; lia |].
  exists tree. split; [exact Ht |].
  destruct (Hcost tree _ Ht) as [_ He]. exact He.
Defined.

(** X19.  The split of a node with [m >= 2] tips, once [computeProb] has
    returned its weights: there are as many weights as the population
    [range(1, m)] has items; when their total is finite and greater than
    zero one draw is made and both parts [split] and [m - split] have at
    least one tip; otherwise [random.choices] raises [ValueError]. *)
Theorem split_in_range loggamma np_exp (m : Z) (beta : float)
        (q_n : list float) (r : rng) :
  2 <= m -> computeProb loggamma np_exp m beta = Ok q_n ->
  length q_n = length (py_range 1 m)
  /\ (total_ok q_n = true ->
      exists split,
        random_choices (py_range 1 m) q_n r = Ok (split, rng_tail r)
        /\ 1 <= split <= m - 1 /\ 1 <= m - split <= m - 1)
  /\ (total_ok q_n = false ->
      random_choices (py_range 1 m) q_n r = Raise ValueError).
Proof.
  intros Hm Hq.
  assert (Hlen : length q_n = length (py_range 1 m)).
  { rewrite (length_computeProb _ _ _ _ _ Hq), length_py_range. reflexivity. }
  split; [exact Hlen |]. split.
  - intros Hok.
    destruct (sample_split loggamma np_exp m beta q_n r Hm Hq Hok)
      as [s [Hs Hr]].
    exists s. split; [exact Hs | lia].
  - intros Hbad. apply random_choices_bad; [exact Hlen | | exact Hbad].
    intros ->. rewrite length_py_range in Hlen. simpl in Hlen. lia.
Qed.

Lemma split_in_range_witness :
  random_choices (py_range 1 2) [0x1.78b56362cef38p-2%float] zeros
  = Ok (1, rng_tail zeros)
  /\ random_choices (py_range 1 2) [infinity] zeros = Raise ValueError.
Proof.
  assert (H0 : computeProb lib_loggamma lib_exp 2 0
               = Ok [0x1.78b56362cef38p-2%float]) by (vm_compute; reflexivity).
  assert (H200 : computeProb lib_loggamma lib_exp 2 200 = Ok [infinity])
    by (vm_compute; reflexivity).
  split.
  - destruct (split_in_range lib_loggamma lib_exp 2 0 _ zeros
                ltac:(lia) H0) as (_ & H & _).
    destruct (H eq_refl) as (s & Hs & Hr & _).
    assert (s = 1) by lia. subst s. exact Hs.
  - destruct (split_in_range lib_loggamma lib_exp 2 200 _ zeros
                ltac:(lia) H200) as (_ & _ & H).
    apply H. reflexivity.
Defined.
